(** * Elevator system: the car's scheduling state machine and the dispatch
    strategies, embedded from [elevator_system/models.py], [elevator.py],
    [strategies.py] and [builder.py].

    Python integers are unbounded and are modelled by [Z].  The two
    [SortedSet]s of stops are finite sets of floors ([gset Z]), the
    dictionary [floor -> set of requests] is a [gmap Z (list Request)].
    A Python [set] of requests has no duplicates up to [Request.__eq__]
    (equality of ids) and is iterated in an order fixed by the hash table;
    the lists keep the members, and the iteration order is a parameter of
    the development ([set_iter], any permutation of the members). *)

From Stdlib Require Import ZArith List Bool Lia Floats.SpecFloat.
From stdpp Require Import base decidable numbers option list sets gmap.

Local Open Scope Z_scope.

(** ** models.py *)

Inductive Direction := UP | DOWN | IDLE.

Inductive DoorState := OPEN | CLOSED | OPENING | CLOSING.

#[global] Instance Direction_eq_dec : EqDecision Direction.
Proof. solve_decision. Defined.

#[global] Instance DoorState_eq_dec : EqDecision DoorState.
Proof. solve_decision. Defined.

(** [Direction.opposite] *)
Definition opposite (d : Direction) : Direction :=
  match d with
  | UP => DOWN
  | DOWN => UP
  | IDLE => IDLE
  end.

(** Calls that raise [ValueError] return [Raise]. *)
Inductive result (A : Type) :=
  | Ok (a : A)
  | Raise.
Arguments Ok {A} a.
Arguments Raise {A}.

(** The frozen dataclass [Request].  [id] is the UUID, by which requests
    are compared; [timestamp] is the creation time (seconds), which the car
    does not read. *)
Record Request := mkRequest {
  pickup_floor : Z;
  destination_floor : Z;
  id : N;
  timestamp : Z;
  passengers : Z
}.

#[global] Instance Request_eq_dec : EqDecision Request.
Proof. solve_decision. Defined.

(** [Request.__post_init__]: the dataclass constructor runs it and raises
    before the object is handed to the caller. *)
Definition Request_post_init (r : Request) : result Request :=
  if bool_decide (pickup_floor r = destination_floor r) then Raise
  else if bool_decide (passengers r < 1) then Raise
  else Ok r.

(** [Request(pickup_floor, destination_floor, id, timestamp, passengers)] *)
Definition new_Request (pickup destination : Z) (uuid : N) (ts : Z)
    (n : Z) : result Request :=
  Request_post_init (mkRequest pickup destination uuid ts n).

(** Requests that exist at run time are those the constructor returned. *)
Definition constructed (r : Request) : Prop := Request_post_init r = Ok r.

(** [Request.direction] *)
Definition direction (r : Request) : Direction :=
  if bool_decide (destination_floor r > pickup_floor r) then UP else DOWN.

(** [Request.__eq__] / [__hash__]: identity is the id. *)
Definition Request_eqb (r1 r2 : Request) : bool := bool_decide (id r1 = id r2).

(** The dataclass [ElevatorState], a snapshot of one car. *)
Record ElevatorState := mkElevatorState {
  elevator_id : Z;
  current_floor : Z;
  st_direction : Direction;
  door_state : DoorState;
  current_load : Z;
  capacity : Z;
  pending_stops_up : gset Z;
  pending_stops_down : gset Z
}.

(** [len] of a frozenset. *)
Definition len (s : gset Z) : Z := Z.of_nat (size s).

Definition is_idle (s : ElevatorState) : bool :=
  bool_decide (st_direction s = IDLE)
  && bool_decide (len (pending_stops_up s) = 0)
  && bool_decide (len (pending_stops_down s) = 0).

Definition available_capacity (s : ElevatorState) : Z :=
  capacity s - current_load s.

Definition total_pending_stops (s : ElevatorState) : Z :=
  len (pending_stops_up s) + len (pending_stops_down s).

Definition distance_to (s : ElevatorState) (floor : Z) : Z :=
  Z.abs (current_floor s - floor).

(** ** elevator.py *)

(** The calls made on the registered observers, in order.  Every call
    carries the snapshot [get_state()] taken when it is made. *)
Inductive Event :=
  | on_floor_reached (s : ElevatorState) (floor : Z)
  | on_door_opened (s : ElevatorState)
  | on_door_closed (s : ElevatorState)
  | on_request_accepted (s : ElevatorState) (r : Request)
  | on_request_completed (s : ElevatorState) (r : Request).

(** The mutable fields of [Elevator].  [notified] is not a field of the
    Python object: it records the observer calls the car has made. *)
Record Elevator := mkElevator {
  _id : Z;
  _min_floor : Z;
  _max_floor : Z;
  _capacity : Z;
  _current_floor : Z;
  _direction : Direction;
  _door_state : DoorState;
  _current_load : Z;
  _up_stops : gset Z;
  _down_stops : gset Z;
  _active_requests : gmap Z (list Request);
  notified : list Event
}.

Definition set_current_floor (e : Elevator) (v : Z) : Elevator :=
  mkElevator (_id e) (_min_floor e) (_max_floor e) (_capacity e)
    v (_direction e) (_door_state e) (_current_load e)
    (_up_stops e) (_down_stops e) (_active_requests e) (notified e).

Definition set_direction (e : Elevator) (v : Direction) : Elevator :=
  mkElevator (_id e) (_min_floor e) (_max_floor e) (_capacity e)
    (_current_floor e) v (_door_state e) (_current_load e)
    (_up_stops e) (_down_stops e) (_active_requests e) (notified e).

Definition set_door_state (e : Elevator) (v : DoorState) : Elevator :=
  mkElevator (_id e) (_min_floor e) (_max_floor e) (_capacity e)
    (_current_floor e) (_direction e) v (_current_load e)
    (_up_stops e) (_down_stops e) (_active_requests e) (notified e).

Definition set_current_load (e : Elevator) (v : Z) : Elevator :=
  mkElevator (_id e) (_min_floor e) (_max_floor e) (_capacity e)
    (_current_floor e) (_direction e) (_door_state e) v
    (_up_stops e) (_down_stops e) (_active_requests e) (notified e).

Definition set_up_stops (e : Elevator) (v : gset Z) : Elevator :=
  mkElevator (_id e) (_min_floor e) (_max_floor e) (_capacity e)
    (_current_floor e) (_direction e) (_door_state e) (_current_load e)
    v (_down_stops e) (_active_requests e) (notified e).

Definition set_down_stops (e : Elevator) (v : gset Z) : Elevator :=
  mkElevator (_id e) (_min_floor e) (_max_floor e) (_capacity e)
    (_current_floor e) (_direction e) (_door_state e) (_current_load e)
    (_up_stops e) v (_active_requests e) (notified e).

Definition set_active_requests (e : Elevator)
    (v : gmap Z (list Request)) : Elevator :=
  mkElevator (_id e) (_min_floor e) (_max_floor e) (_capacity e)
    (_current_floor e) (_direction e) (_door_state e) (_current_load e)
    (_up_stops e) (_down_stops e) v (notified e).

Definition set_notified (e : Elevator) (v : list Event) : Elevator :=
  mkElevator (_id e) (_min_floor e) (_max_floor e) (_capacity e)
    (_current_floor e) (_direction e) (_door_state e) (_current_load e)
    (_up_stops e) (_down_stops e) (_active_requests e) v.

(** [Elevator.__init__] *)
Definition new_Elevator (elevator_id min_floor max_floor capacity
    start_floor : Z) : result Elevator :=
  if bool_decide (min_floor > max_floor) then Raise
  else if negb (bool_decide (min_floor <= start_floor)
                && bool_decide (start_floor <= max_floor)) then Raise
  else if bool_decide (capacity < 1) then Raise
  else Ok (mkElevator elevator_id min_floor max_floor capacity
             start_floor IDLE CLOSED 0 ∅ ∅ ∅ []).

(** [Elevator.get_state] *)
Definition get_state (e : Elevator) : ElevatorState :=
  mkElevatorState (_id e) (_current_floor e) (_direction e) (_door_state e)
    (_current_load e) (_capacity e) (_up_stops e) (_down_stops e).

(** [Elevator.can_accept_request] *)
Definition can_accept_request (e : Elevator) (request : Request) : bool :=
  if negb (bool_decide (_min_floor e <= pickup_floor request)
           && bool_decide (pickup_floor request <= _max_floor e)) then false
  else if negb (bool_decide (_min_floor e <= destination_floor request)
                && bool_decide (destination_floor request <= _max_floor e))
  then false
  else if bool_decide (passengers request > _capacity e) then false
  else true.

(** [set.add] and [set.discard] on a set of requests. *)
Definition set_add (r : Request) (l : list Request) : list Request :=
  if existsb (Request_eqb r) l then l else l ++ [r].

Definition set_discard (r : Request) (l : list Request) : list Request :=
  filter (fun r' => Request_eqb r r' = false) l.

(** [if floor not in d: d[floor] = set()] followed by [d[floor].add(r)] *)
Definition track (floor : Z) (r : Request)
    (d : gmap Z (list Request)) : gmap Z (list Request) :=
  match d !! floor with
  | Some l => <[floor := set_add r l]> d
  | None => <[floor := set_add r []]> d
  end.

(** The five [_notify_*] helpers: one observer call with a fresh snapshot. *)
Definition notify (ev : ElevatorState -> Event) (e : Elevator) : Elevator :=
  set_notified e (notified e ++ [ev (get_state e)]).

(** [Elevator.add_request] *)
Definition add_request (e : Elevator) (request : Request) : bool * Elevator :=
  if negb (can_accept_request e request) then (false, e)
  else
    let pickup := pickup_floor request in
    let destination := destination_floor request in
    let request_direction := direction request in
    let e := set_active_requests e
               (track pickup request (_active_requests e)) in
    let e := set_active_requests e
               (track destination request (_active_requests e)) in
    let e :=
      if bool_decide (request_direction = UP)
      then set_up_stops e ({[destination]} ∪ ({[pickup]} ∪ _up_stops e))
      else set_down_stops e ({[destination]} ∪ ({[pickup]} ∪ _down_stops e)) in
    let e :=
      if bool_decide (_direction e = IDLE) then
        if bool_decide (pickup > _current_floor e) then set_direction e UP
        else if bool_decide (pickup < _current_floor e)
        then set_direction e DOWN
        else set_direction e request_direction
      else e in
    (true, notify (fun s => on_request_accepted s request) e).

Section Car.

(** The order in which [for request in a_set] yields the members of a set
    of requests.  CPython fixes it by the hash table; the development only
    uses that it enumerates the members. *)
Variable set_iter : list Request -> list Request.

(** [Elevator._is_current_floor_a_stop] *)
Definition _is_current_floor_a_stop (e : Elevator) : bool :=
  let floor := _current_floor e in
  match _direction e with
  | UP => bool_decide (floor ∈ _up_stops e)
  | DOWN => bool_decide (floor ∈ _down_stops e)
  | IDLE => bool_decide (floor ∈ _up_stops e)
            || bool_decide (floor ∈ _down_stops e)
  end.

(** The loop [for request in self._active_requests[floor]] of
    [_process_current_floor], run on the requests in iteration order; the
    second component is the list [completed]. *)
Fixpoint process_requests (floor : Z) (rs : list Request) (e : Elevator)
    (completed : list Request) : Elevator * list Request :=
  match rs with
  | [] => (e, completed)
  | request :: rs' =>
      if bool_decide (destination_floor request = floor) then
        let e := set_current_load e
                   (Z.max 0 (_current_load e - passengers request)) in
        let completed := completed ++ [request] in
        let e := notify (fun s => on_request_completed s request) e in
        process_requests floor rs' e completed
      else if bool_decide (pickup_floor request = floor) then
        if bool_decide (_current_load e + passengers request <= _capacity e)
        then process_requests floor rs'
               (set_current_load e (_current_load e + passengers request))
               completed
        else process_requests floor rs' e completed
      else process_requests floor rs' e completed
  end.

(** The loop [for request in completed] of [_process_current_floor]:
    [d[floor].discard(request)], and the same at the pickup floor when that
    floor is a key. *)
Fixpoint clean_up (floor : Z) (completed : list Request)
    (d : gmap Z (list Request)) : gmap Z (list Request) :=
  match completed with
  | [] => d
  | request :: rest =>
      let d := alter (set_discard request) floor d in
      let d := alter (set_discard request) (pickup_floor request) d in
      clean_up floor rest d
  end.

(** [_process_current_floor], "Remove floor from appropriate stop list". *)
Definition remove_stop (floor : Z) (e : Elevator) : Elevator :=
  if bool_decide (_direction e = UP) && bool_decide (floor ∈ _up_stops e)
  then set_up_stops e (_up_stops e ∖ {[floor]})
  else if bool_decide (_direction e = DOWN)
          && bool_decide (floor ∈ _down_stops e)
  then set_down_stops e (_down_stops e ∖ {[floor]})
  else e.

(** [_process_current_floor], the block [if floor in self._active_requests]:
    the passenger loop, the clean-up loop and the deletion of an emptied
    entry. *)
Definition process_active (floor : Z) (e : Elevator) : Elevator :=
  match _active_requests e !! floor with
  | Some l =>
      let '(e, completed) := process_requests floor (set_iter l) e [] in
      let d := clean_up floor completed (_active_requests e) in
      let d := match d !! floor with
               | Some [] => delete floor d
               | _ => d
               end in
      set_active_requests e d
  | None => e
  end.

(** [Elevator._process_current_floor] *)
Definition _process_current_floor (e : Elevator) : Elevator :=
  let floor := _current_floor e in
  let e := set_door_state e OPEN in
  let e := notify on_door_opened e in
  let e := remove_stop floor e in
  let e := process_active floor e in
  let e := set_door_state e CLOSED in
  notify on_door_closed e.

(** [Elevator._move] *)
Definition _move (e : Elevator) : Elevator :=
  match _direction e with
  | UP =>
      if bool_decide (_current_floor e < _max_floor e)
      then set_current_floor e (_current_floor e + 1) else e
  | DOWN =>
      if bool_decide (_current_floor e > _min_floor e)
      then set_current_floor e (_current_floor e - 1) else e
  | IDLE => e
  end.

(** [Elevator._has_pending_stops] *)
Definition _has_pending_stops (e : Elevator) : bool :=
  bool_decide (len (_up_stops e) > 0) || bool_decide (len (_down_stops e) > 0).

(** Truth value of a [SortedSet]. *)
Definition truthy (s : gset Z) : bool := bool_decide (s ≠ ∅).

(** [Elevator._update_direction].  The comprehensions [higher_stops] and
    [lower_stops] are only tested for emptiness, so the order of
    [elements] is not observed. *)
Definition _update_direction (e : Elevator) : Elevator :=
  match _direction e with
  | UP =>
      let higher_stops :=
        filter (fun f => f > _current_floor e) (elements (_up_stops e)) in
      match higher_stops with
      | _ :: _ => e
      | [] =>
          if truthy (_down_stops e) then set_direction e DOWN
          else if truthy (_up_stops e) then set_direction e DOWN
          else set_direction e IDLE
      end
  | DOWN =>
      let lower_stops :=
        filter (fun f => f < _current_floor e) (elements (_down_stops e)) in
      match lower_stops with
      | _ :: _ => e
      | [] =>
          if truthy (_up_stops e) then set_direction e UP
          else if truthy (_down_stops e) then set_direction e UP
          else set_direction e IDLE
      end
  | IDLE => e
  end.

(** [if self._is_current_floor_a_stop(): self._process_current_floor()],
    which [step] runs before and after the move. *)
Definition arrive (e : Elevator) : Elevator :=
  if _is_current_floor_a_stop e then _process_current_floor e else e.

(** [Elevator.step] *)
Definition step (e : Elevator) : Elevator :=
  if bool_decide (_direction e = IDLE) then e
  else
    let e := arrive e in
    let e :=
      if _has_pending_stops e then
        let e := _move e in
        let e := notify (fun s => on_floor_reached s (_current_floor e)) e in
        arrive e
      else e in
    _update_direction e.

(** The public operations a caller can apply to a car. *)
Inductive Op :=
  | op_add_request (r : Request)
  | op_step.

Definition run_op (e : Elevator) (o : Op) : Elevator :=
  match o with
  | op_add_request r => snd (add_request e r)
  | op_step => step e
  end.

Definition run (e : Elevator) (ops : list Op) : Elevator :=
  fold_left run_op ops e.

End Car.

(** A car is reachable when a constructor call returned it, or a public
    operation was applied to a reachable car; requests are objects the
    [Request] constructor returned. *)
Definition constructed_op (o : Op) : Prop :=
  match o with
  | op_add_request r => constructed r
  | op_step => True
  end.

Definition reachable (set_iter : list Request -> list Request)
    (e : Elevator) : Prop :=
  exists elevator_id min_floor max_floor capacity start_floor e0 ops,
    new_Elevator elevator_id min_floor max_floor capacity start_floor = Ok e0
    /\ Forall constructed_op ops
    /\ e = run set_iter e0 ops.

(** The requests handed to [add_request] by a sequence of operations. *)
Definition submitted (ops : list Op) : list Request :=
  omap (fun o => match o with
                 | op_add_request r => Some r
                 | op_step => None
                 end) ops.

(** UUIDs identify requests: two submitted requests with one id are the
    same object. *)
Definition unique_ids (rs : list Request) : Prop :=
  forall r1 r2, r1 ∈ rs -> r2 ∈ rs -> id r1 = id r2 -> r1 = r2.

(** The stop set a request's floors are added to. *)
Definition stops_for (d : Direction) (e : Elevator) : gset Z :=
  match d with
  | UP => _up_stops e
  | _ => _down_stops e
  end.

#[global] Instance ElevatorState_eq_dec : EqDecision ElevatorState.
Proof. solve_decision. Defined.

#[global] Instance Event_eq_dec : EqDecision Event.
Proof. solve_decision. Defined.

#[global] Instance Elevator_eq_dec : EqDecision Elevator.
Proof. solve_decision. Defined.

(** ** Python floats

    A Python [float] is an IEEE 754 binary64 number; the operations are
    those of [SpecFloat] at precision 53, every result rounded to nearest
    even as the hardware does. *)
Module PyFloat.

Definition float := spec_float.
Definition prec : Z := 53.
Definition emax : Z := 1024.

(** [float("inf")] *)
Definition inf : float := S754_infinity false.

Definition mul : float -> float -> float := SFmul prec emax.
Definition add : float -> float -> float := SFadd prec emax.
Definition ltb : float -> float -> bool := SFltb.

(** [float(z)], also applied to the [int] operand of a mixed
    [int * float]: the nearest double, [OverflowError] when there is
    none. *)
Definition of_int (z : Z) : result float :=
  match binary_normalize prec emax z 0 false with
  | S754_infinity _ => Raise
  | f => Ok f
  end.

(** The double a decimal literal [num/den] denotes: the nearest one. *)
Definition literal (num den : Z) : float :=
  SFdiv prec emax (binary_normalize prec emax num 0 false)
                  (binary_normalize prec emax den 0 false).

Definition f0_3 : float := Eval vm_compute in literal 3 10.
Definition f0_5 : float := Eval vm_compute in literal 5 10.
Definition f0_8 : float := Eval vm_compute in literal 8 10.
Definition f1_5 : float := Eval vm_compute in literal 15 10.
Definition f2_0 : float := Eval vm_compute in literal 20 10.

(** [z >= f] for an [int] and a [float]: Python compares the two exact
    values, without converting the integer. *)
Definition int_ge (z : Z) (f : float) : bool :=
  match f with
  | S754_nan => false
  | S754_infinity s => s
  | S754_zero _ => 0 <=? z
  | S754_finite s m e =>
      let v := if s then Z.neg m else Z.pos m in
      if 0 <=? e then v * 2 ^ e <=? z else v <=? z * 2 ^ (- e)
  end.

End PyFloat.

Definition bind {A B : Type} (m : result A) (k : A -> result B) : result B :=
  match m with
  | Ok a => k a
  | Raise => Raise
  end.

Notation "'let*' x := m 'in' k" := (bind m (fun x => k))
  (at level 10, x name, m at level 200, k at level 200).

(** ** strategies.py *)

(** [DispatchStrategy._get_compatible_elevators] *)
Definition _get_compatible_elevators (request : Request)
    (elevators : list Elevator) : list Elevator :=
  filter (fun e => can_accept_request e request = true) elevators.

(** The class [LookDispatchStrategy]. *)
Module LookDispatchStrategy.

(** [_calculate_score] *)
Definition _calculate_score (state : ElevatorState) (pickup : Z)
    (request_direction : Direction) : result PyFloat.float :=
  let distance := distance_to state pickup in
  let* score := PyFloat.of_int distance in
  if is_idle state then
    let* n := PyFloat.of_int (total_pending_stops state) in
    Ok (PyFloat.add score (PyFloat.mul n PyFloat.f0_5))
  else
    let current := current_floor state in
    let score :=
      match st_direction state with
      | UP =>
          if bool_decide (pickup >= current) then
            if bool_decide (request_direction = UP)
            then PyFloat.mul score PyFloat.f0_5
            else PyFloat.mul score PyFloat.f1_5
          else PyFloat.mul score PyFloat.f2_0
      | DOWN =>
          if bool_decide (pickup <= current) then
            if bool_decide (request_direction = DOWN)
            then PyFloat.mul score PyFloat.f0_5
            else PyFloat.mul score PyFloat.f1_5
          else PyFloat.mul score PyFloat.f2_0
      | IDLE => score
      end in
    let* n := PyFloat.of_int (total_pending_stops state) in
    let score := PyFloat.add score (PyFloat.mul n PyFloat.f0_3) in
    let* c := PyFloat.of_int (capacity state) in
    if PyFloat.int_ge (current_load state) (PyFloat.mul c PyFloat.f0_8)
    then Ok (PyFloat.mul score PyFloat.f1_5)
    else Ok score.

(** The loop [for elevator in compatible] of [select_elevator]. *)
Fixpoint loop (compatible : list Elevator) (pickup : Z)
    (request_direction : Direction) (best_elevator : option Elevator)
    (best_score : PyFloat.float) : result (option Elevator) :=
  match compatible with
  | [] => Ok best_elevator
  | elevator :: rest =>
      let state := get_state elevator in
      let* score := _calculate_score state pickup request_direction in
      if PyFloat.ltb score best_score
      then loop rest pickup request_direction (Some elevator) score
      else loop rest pickup request_direction best_elevator best_score
  end.

(** [select_elevator] *)
Definition select_elevator (request : Request)
    (elevators : list Elevator) : result (option Elevator) :=
  let compatible := _get_compatible_elevators request elevators in
  match compatible with
  | [] => Ok None
  | _ :: _ =>
      loop compatible (pickup_floor request) (direction request)
        None PyFloat.inf
  end.

End LookDispatchStrategy.

(** The class [FCFSDispatchStrategy]. *)
Module FCFSDispatchStrategy.

(** The only field of the object. *)
Record t := mk { _next_index : Z }.

(** [__init__] *)
Definition init : t := mk 0.

(** The loop [for _ in range(n)] of [select_elevator];
    [None] when it runs to its end.  [idx] is in [0, n), so the lookup
    [elevators[idx]] cannot fail. *)
Fixpoint loop (rounds : nat) (n : Z) (elevators compatible : list Elevator)
    (self : t) : option Elevator * t :=
  match rounds with
  | O => (None, self)
  | S rounds' =>
      let idx := _next_index self `mod` n in
      let self := mk ((_next_index self + 1) `mod` n) in
      match elevators !! Z.to_nat idx with
      | Some e =>
          if bool_decide (e ∈ compatible) then (Some e, self)
          else loop rounds' n elevators compatible self
      | None => (None, self)
      end
  end.

(** [select_elevator] *)
Definition select_elevator (self : t)
    (request : Request) (elevators : list Elevator)
    : option Elevator * t :=
  let compatible := _get_compatible_elevators request elevators in
  match compatible with
  | [] => (None, self)
  | first :: _ =>
      let n := Z.of_nat (length elevators) in
      match loop (length elevators) n elevators compatible self with
      | (Some e, self) => (Some e, self)
      | (None, self) => (Some first, self)
      end
  end.

End FCFSDispatchStrategy.

(** Short names for the two classes. *)
Module Look := LookDispatchStrategy.
Module FCFS := FCFSDispatchStrategy.

(** One strategy object serving a sequence of requests over one fleet. *)
Fixpoint FCFS_dispatch_all (self : FCFS.t)
    (requests : list Request) (elevators : list Elevator)
    : list (option Elevator) :=
  match requests with
  | [] => []
  | request :: rest =>
      let '(selected, self) :=
        FCFS.select_elevator self request elevators in
      selected :: FCFS_dispatch_all self rest elevators
  end.

(** ** builder.py *)
Module Builder.

(** The fields of [ElevatorSystemBuilder] that configure the cars; the
    strategy, the step interval and the observers are left out. *)
Record ElevatorSystemBuilder := mkBuilder {
  _min_floor : Z;
  _max_floor : Z;
  _num_elevators : Z;
  _capacity : Z;
  _start_floors : option (list Z)
}.

(** [ElevatorSystemBuilder.__init__] *)
Definition new_Builder : ElevatorSystemBuilder := mkBuilder 0 10 1 8 None.

(** Truth value of an [Optional[List[int]]]: [None] and [[]] are false. *)
Definition truthy (l : option (list Z)) : bool :=
  match l with
  | Some (_ :: _) => true
  | _ => false
  end.

(** [ElevatorSystemBuilder.with_floors] *)
Definition with_floors (self : ElevatorSystemBuilder) (min_floor max_floor : Z)
    : result ElevatorSystemBuilder :=
  if bool_decide (min_floor > max_floor) then Raise
  else Ok (mkBuilder min_floor max_floor (_num_elevators self)
             (_capacity self) (_start_floors self)).

(** [len(start_floors)] *)
Definition length_of (l : option (list Z)) : Z :=
  match l with
  | Some l => Z.of_nat (length l)
  | None => 0
  end.

(** [ElevatorSystemBuilder.with_elevators] *)
Definition with_elevators (self : ElevatorSystemBuilder) (count capacity : Z)
    (start_floors : option (list Z)) : result ElevatorSystemBuilder :=
  if bool_decide (count < 1) then Raise
  else if bool_decide (capacity < 1) then Raise
  else if truthy start_floors
          && negb (bool_decide (length_of start_floors = count)) then Raise
  else Ok (mkBuilder (_min_floor self) (_max_floor self) count capacity
             start_floors).

(** The loop [for i in range(self._num_elevators)] of
    [ElevatorSystemBuilder.build] that creates the cars, [i] counting
    up from [i0]. *)
Fixpoint build_elevators (self : ElevatorSystemBuilder) (k : nat) (i0 : Z)
    : result (list Elevator) :=
  match k with
  | O => Ok []
  | S k' =>
      let* start_floor :=
        if truthy (_start_floors self) then
          match default [] (_start_floors self) !! Z.to_nat i0 with
          | Some f => Ok f
          | None => Raise
          end
        else Ok (_min_floor self) in
      let* elevator :=
        new_Elevator i0 (_min_floor self) (_max_floor self)
          (_capacity self) start_floor in
      let* rest := build_elevators self k' (i0 + 1) in
      Ok (elevator :: rest)
  end.

End Builder.

(** ** The specification's wording, for comparison with the code *)

(** A stop [f] strictly ahead of, or strictly behind, a car at [floor]
    travelling in direction [d]. *)
Definition strictly_ahead (d : Direction) (floor f : Z) : Prop :=
  match d with
  | UP => f > floor
  | DOWN => f < floor
  | IDLE => False
  end.

Definition strictly_behind (d : Direction) (floor f : Z) : Prop :=
  match d with
  | UP => f < floor
  | DOWN => f > floor
  | IDLE => False
  end.

#[global] Instance strictly_ahead_dec d floor f :
  Decision (strictly_ahead d floor f).
Proof. destruct d; simpl; apply _. Defined.

#[global] Instance strictly_behind_dec d floor f :
  Decision (strictly_behind d floor f).
Proof. destruct d; simpl; apply _. Defined.

(** The recomputed direction in the specification's words: keep [d] if
    its own stop set has a floor strictly ahead; otherwise reverse if the
    other set is non-empty; otherwise reverse if the own set has floors
    behind the car; otherwise idle. *)
Definition recomputed_direction (d : Direction) (floor : Z)
    (own other : gset Z) : Direction :=
  if bool_decide (set_Exists (strictly_ahead d floor) own) then d
  else if bool_decide (other ≠ ∅) then opposite d
  else if bool_decide (set_Exists (strictly_behind d floor) own) then opposite d
  else IDLE.

(** The LOOK cost in the specification's words. *)
Definition moving_toward (s : ElevatorState) (pickup : Z) : bool :=
  match st_direction s with
  | UP => bool_decide (pickup >= current_floor s)
  | DOWN => bool_decide (pickup <= current_floor s)
  | IDLE => false
  end.

Definition look_factor (s : ElevatorState) (pickup : Z)
    (request_direction : Direction) : PyFloat.float :=
  if moving_toward s pickup then
    if bool_decide (st_direction s = request_direction)
    then PyFloat.f0_5 else PyFloat.f1_5
  else PyFloat.f2_0.

Definition look_cost (s : ElevatorState) (pickup : Z)
    (request_direction : Direction) : result PyFloat.float :=
  let* distance := PyFloat.of_int (Z.abs (current_floor s - pickup)) in
  let* stops := PyFloat.of_int (total_pending_stops s) in
  if is_idle s then Ok (PyFloat.add distance (PyFloat.mul stops PyFloat.f0_5))
  else
    let cost := PyFloat.mul distance (look_factor s pickup request_direction) in
    let cost := PyFloat.add cost (PyFloat.mul stops PyFloat.f0_3) in
    let* cap := PyFloat.of_int (capacity s) in
    if PyFloat.int_ge (current_load s) (PyFloat.mul cap PyFloat.f0_8)
    then Ok (PyFloat.mul cost PyFloat.f1_5)
    else Ok cost.

(** ** Invariants *)

(** The construction-time configuration of a car. *)
Definition config (e : Elevator) : Z * Z * Z * Z :=
  (_id e, _min_floor e, _max_floor e, _capacity e).

Definition floor_in_range (e : Elevator) : Prop :=
  _min_floor e <= _current_floor e <= _max_floor e.

Definition load_in_range (e : Elevator) : Prop :=
  0 <= _current_load e <= _capacity e.

(** Every request on record was returned by the constructor. *)
Definition all_constructed (e : Elevator) : Prop :=
  forall f l r, _active_requests e !! f = Some l -> r ∈ l -> constructed r.

(** What the floor dictionary records about a request, given the
    requests [hist] submitted to the car: the request was submitted, it is
    filed under one of its two floors, it is still filed under its
    destination, and its destination is still a stop of its direction. *)
Definition well_tracked (hist : list Request) (e : Elevator) : Prop :=
  forall f l r, _active_requests e !! f = Some l -> r ∈ l ->
    r ∈ hist
    /\ (f = pickup_floor r \/ f = destination_floor r)
    /\ (exists l', _active_requests e !! destination_floor r = Some l'
                   /\ r ∈ l')
    /\ destination_floor r ∈ stops_for (direction r) e.

(** The car [e], at position [i] of [cars], has cost [s], no car has a
    strictly smaller cost, and every car before it has a strictly larger
    one: the minimum-cost car, a tie going to the first in list order. *)
Definition first_minimum (cost : Elevator -> result PyFloat.float)
    (cars : list Elevator) (i : nat) (e : Elevator) (s : PyFloat.float)
    : Prop :=
  cars !! i = Some e
  /\ cost e = Ok s
  /\ (forall j e' s', cars !! j = Some e' -> cost e' = Ok s' ->
        PyFloat.ltb s' s = false)
  /\ (forall j e' s', (j < i)%nat -> cars !! j = Some e' -> cost e' = Ok s' ->
        PyFloat.ltb s s' = true).

(** A car whose direction is [IDLE] has no stop left. *)
Definition idle_means_no_stops (e : Elevator) : Prop :=
  _direction e = IDLE -> _up_stops e = ∅ /\ _down_stops e = ∅.

(** ** The rest of strategies.py *)

(** Python's [min(cars, key=key)]: the first car of least key, found by
    replacing the best so far when a key is strictly smaller. *)
Fixpoint min_from (key : Elevator -> Z) (best : Elevator)
    (l : list Elevator) : Elevator :=
  match l with
  | [] => best
  | x :: l' =>
      if bool_decide (key x < key best) then min_from key x l'
      else min_from key best l'
  end.

(** [None] stands for the [ValueError] of [min] on an empty list. *)
Definition py_min (key : Elevator -> Z) (l : list Elevator) : option Elevator :=
  match l with
  | [] => None
  | x :: l' => Some (min_from key x l')
  end.

(** The class [NearestElevatorStrategy]. *)
Module NearestElevatorStrategy.

(** [select_elevator] *)
Definition select_elevator (request : Request) (elevators : list Elevator)
    : option Elevator :=
  let compatible := _get_compatible_elevators request elevators in
  match compatible with
  | [] => None
  | _ :: _ =>
      let pickup := pickup_floor request in
      let idle_elevators :=
        filter (fun e => is_idle (get_state e) = true) compatible in
      match idle_elevators with
      | _ :: _ =>
          py_min (fun e => distance_to (get_state e) pickup) idle_elevators
      | [] => py_min (fun e => distance_to (get_state e) pickup) compatible
      end
  end.

End NearestElevatorStrategy.

(** The class [ZonedDispatchStrategy]; its fallback strategy has no state. *)
Module ZonedDispatchStrategy.

Record t := mk { _zone_assignments : gmap Z (Z * Z) }.

(** [__init__]: [zone_assignments or {}] *)
Definition init (zone_assignments : option (gmap Z (Z * Z))) : t :=
  mk (default ∅ zone_assignments).

(** [set_zone] *)
Definition set_zone (self : t) (elevator_id min_floor max_floor : Z) : t :=
  mk (<[elevator_id := (min_floor, max_floor)]> (_zone_assignments self)).

(** [zone and zone[0] <= pickup_floor <= zone[1]], for the zone of a car *)
Definition zone_contains (self : t) (pickup : Z) (e : Elevator) : bool :=
  match _zone_assignments self !! _id e with
  | Some (lo, hi) => bool_decide (lo <= pickup) && bool_decide (pickup <= hi)
  | None => false
  end.

(** [select_elevator] *)
Definition select_elevator (self : t) (request : Request)
    (elevators : list Elevator) : option Elevator :=
  let compatible := _get_compatible_elevators request elevators in
  match compatible with
  | [] => None
  | _ :: _ =>
      let pickup := pickup_floor request in
      let zone_elevators :=
        filter (fun e => zone_contains self pickup e = true) compatible in
      match zone_elevators with
      | _ :: _ =>
          py_min (fun e => distance_to (get_state e) pickup) zone_elevators
      | [] => NearestElevatorStrategy.select_elevator request compatible
      end
  end.

End ZonedDispatchStrategy.

Module Nearest := NearestElevatorStrategy.
Module Zoned := ZonedDispatchStrategy.

(** ** controller.py

    The controller as one thread sees it: the lock, the background thread
    and its flags are left out.  The cars are the objects of the list
    [_elevators]; the queue of pending requests is a list, oldest first. *)

(** The strategy objects a controller can hold. *)
Inductive DispatchStrategy :=
  | LookStrategy
  | NearestStrategy
  | FCFSStrategy (s : FCFS.t)
  | ZonedStrategy (z : Zoned.t).

(** [self._dispatch_strategy.select_elevator(request, self._elevators)]:
    the selected car and the strategy object after the call; [Raise] when
    the call raises. *)
Definition strategy_select (s : DispatchStrategy) (request : Request)
    (elevators : list Elevator) : result (option Elevator * DispatchStrategy) :=
  match s with
  | LookStrategy =>
      let* selected := Look.select_elevator request elevators in
      Ok (selected, LookStrategy)
  | NearestStrategy =>
      Ok (Nearest.select_elevator request elevators, NearestStrategy)
  | FCFSStrategy st =>
      let '(selected, st') := FCFS.select_elevator st request elevators in
      Ok (selected, FCFSStrategy st')
  | ZonedStrategy z =>
      Ok (Zoned.select_elevator z request elevators, ZonedStrategy z)
  end.

(** The first car of the list equal to [old] becomes [new]. *)
Fixpoint replace_first (old new : Elevator) (l : list Elevator)
    : list Elevator :=
  match l with
  | [] => []
  | x :: l' =>
      if bool_decide (x = old) then new :: l'
      else x :: replace_first old new l'
  end.

(** [elevator.add_request(request)] on a car the strategy returned: the
    call changes the object where it stands in the fleet.  Objects are told
    apart by their fields (the cars of a fleet have distinct ids). *)
Definition call_add_request (elevator : Elevator) (request : Request)
    (elevators : list Elevator) : bool * list Elevator :=
  let '(accepted, elevator') := add_request elevator request in
  (accepted, replace_first elevator elevator' elevators).

Module ElevatorController.

Record t := mk {
  _elevators : list Elevator;
  _dispatch_strategy : DispatchStrategy;
  _pending_requests : list Request
}.

(** [__init__] *)
Definition init (elevators : list Elevator)
    (dispatch_strategy : option DispatchStrategy) : result t :=
  match elevators with
  | [] => Raise
  | _ :: _ => Ok (mk elevators (default LookStrategy dispatch_strategy) [])
  end.

(** [set_dispatch_strategy] *)
Definition set_dispatch_strategy (self : t) (strategy : DispatchStrategy) : t :=
  mk (_elevators self) strategy (_pending_requests self).

(** [_dispatch_request] *)
Definition _dispatch_request (self : t) (request : Request)
    : result (bool * t) :=
  let* sel := strategy_select (_dispatch_strategy self) request
                (_elevators self) in
  let '(elevator, strategy) := sel in
  match elevator with
  | Some e =>
      let '(accepted, elevators) :=
        call_add_request e request (_elevators self) in
      if accepted then Ok (true, mk elevators strategy (_pending_requests self))
      else Ok (false, mk elevators strategy (_pending_requests self ++ [request]))
  | None =>
      Ok (false, mk (_elevators self) strategy
                   (_pending_requests self ++ [request]))
  end.

(** [request_elevator]; the id and the creation time of the new request
    are inputs. *)
Definition request_elevator (self : t) (from_floor to_floor passengers : Z)
    (uuid : N) (now : Z) : result (Request * t) :=
  let* request := new_Request from_floor to_floor uuid now passengers in
  let* res := _dispatch_request self request in
  Ok (request, res.2).

(** The loop [while not self._pending_requests.empty()] of
    [_process_pending_requests]: the requests left in the queue, the list
    [retry_queue], the cars and the strategy.  An exception leaves the
    loop, the request just taken from the queue being in neither list. *)
Fixpoint drain (queue retry_queue : list Request) (elevators : list Elevator)
    (strategy : DispatchStrategy)
    : list Request * list Request * list Elevator * DispatchStrategy :=
  match queue with
  | [] => ([], retry_queue, elevators, strategy)
  | request :: queue' =>
      match strategy_select strategy request elevators with
      | Raise => (queue', retry_queue, elevators, strategy)
      | Ok (Some e, strategy') =>
          let '(accepted, elevators') :=
            call_add_request e request elevators in
          if accepted then drain queue' retry_queue elevators' strategy'
          else drain queue' (retry_queue ++ [request]) elevators' strategy'
      | Ok (None, strategy') =>
          drain queue' (retry_queue ++ [request]) elevators strategy'
      end
  end.

(** [_process_pending_requests] *)
Definition _process_pending_requests (self : t) : t :=
  let '(queue, retry_queue, elevators, strategy) :=
    drain (_pending_requests self) [] (_elevators self)
      (_dispatch_strategy self) in
  mk elevators strategy (queue ++ retry_queue).

(** [step], for the iteration order [set_iter] of the cars' request sets *)
Definition step (set_iter : list Request -> list Request) (self : t) : t :=
  let self := _process_pending_requests self in
  mk (map (step set_iter) (_elevators self)) (_dispatch_strategy self)
     (_pending_requests self).

(** [get_elevator] *)
Definition get_elevator (self : t) (elevator_id : Z) : option Elevator :=
  snd <$> list_find (fun e => _id e = elevator_id) (_elevators self).

(** The entries of the dictionary [get_system_status] returns, but for
    the flag of the background thread. *)
Record SystemStatus := mkStatus {
  pending_requests : Z;
  total_elevators : Z;
  idle_elevators : Z;
  total_load : Z;
  total_capacity : Z;
  elevators : list (Z * Z * Direction * Z * Z * Z)
}.

(** [sum] of a list of integers *)
Definition sum (l : list Z) : Z := foldr Z.add 0 l.

(** [get_system_status] *)
Definition get_system_status (self : t) : SystemStatus :=
  let states := map get_state (_elevators self) in
  mkStatus
    (Z.of_nat (length (_pending_requests self)))
    (Z.of_nat (length (_elevators self)))
    (sum (map (fun _ => 1) (filter (fun s => is_idle s = true) states)))
    (sum (map current_load states))
    (sum (map capacity states))
    (map (fun s => (elevator_id s, current_floor s, st_direction s,
                    current_load s, capacity s, total_pending_stops s))
       states).

End ElevatorController.

Module Controller := ElevatorController.

(** [ElevatorSystemBuilder.build], the strategy given to the builder being
    an input; observers are not registered. *)
Definition build (self : Builder.ElevatorSystemBuilder)
    (dispatch_strategy : option DispatchStrategy) : result Controller.t :=
  let* elevators :=
    Builder.build_elevators self (Z.to_nat (Builder._num_elevators self)) 0 in
  Controller.init elevators (Some (default LookStrategy dispatch_strategy)).

(** ** The rest of models.py *)

(** [Request.floors_to_serve] *)
Definition floors_to_serve (r : Request) : gset Z :=
  {[pickup_floor r; destination_floor r]}.

(** ** observers.py: [MetricsObserver], but for the wait times, which are
    read off the clock. *)
Module MetricsObserver.

Record t := mk {
  total_requests_completed : Z;
  floor_visits : list Z;
  load_samples : list Z
}.

(** [__init__] *)
Definition init : t := mk 0 [] [].

(** One observer call: [on_floor_reached] and [on_request_completed] are
    overridden, the other calls do nothing. *)
Definition handle (self : t) (ev : Event) : t :=
  match ev with
  | on_floor_reached s floor =>
      mk (total_requests_completed self) (floor_visits self ++ [floor])
         (load_samples self ++ [current_load s])
  | on_request_completed _ _ =>
      mk (total_requests_completed self + 1) (floor_visits self)
         (load_samples self)
  | _ => self
  end.

(** The observer after the calls a car has made. *)
Definition observe (self : t) (events : list Event) : t :=
  fold_left handle events self.

End MetricsObserver.

(** ** Definitions for the properties of the rest of the code *)

(** The car [e] stands at position [i] of [cars], no car has a smaller
    key, and the cars before it have a strictly larger one. *)
Definition first_least (key : Elevator -> Z) (cars : list Elevator)
    (i : nat) (e : Elevator) : Prop :=
  cars !! i = Some e
  /\ (forall j x, cars !! j = Some x -> key e <= key x)
  /\ (forall j x, (j < i)%nat -> cars !! j = Some x -> key e < key x).

(** The calls a single-threaded user makes on a controller.  A call that
    raises leaves the controller as it was: the exception comes from the
    [Request] constructor or from the strategy, before anything is
    changed. *)
Inductive ControllerOp :=
  | c_request_elevator (from_floor to_floor passengers : Z) (uuid : N) (now : Z)
  | c_step
  | c_set_dispatch_strategy (s : DispatchStrategy).

Definition controller_op (set_iter : list Request -> list Request)
    (c : Controller.t) (o : ControllerOp) : Controller.t :=
  match o with
  | c_request_elevator from_floor to_floor passengers uuid now =>
      match Controller.request_elevator c from_floor to_floor passengers
              uuid now with
      | Ok (_, c') => c'
      | Raise => c
      end
  | c_step => Controller.step set_iter c
  | c_set_dispatch_strategy s => Controller.set_dispatch_strategy c s
  end.

Definition controller_run (set_iter : list Request -> list Request)
    (c : Controller.t) (ops : list ControllerOp) : Controller.t :=
  fold_left (controller_op set_iter) ops c.

(** [n] calls of [Elevator.step] *)
Definition steps (set_iter : list Request -> list Request) (n : nat)
    (e : Elevator) : Elevator :=
  run set_iter e (replicate n op_step).

(** The requests filed in the floor dictionary of a car. *)
Definition on_record (e : Elevator) (r : Request) : Prop :=
  exists f l, _active_requests e !! f = Some l /\ r ∈ l.

(** All stops and all keys of the floor dictionary are floors of the car. *)
Definition stops_in_range (e : Elevator) : Prop :=
  (forall f, f ∈ _up_stops e ∪ _down_stops e ->
     _min_floor e <= f <= _max_floor e)
  /\ (forall f l, _active_requests e !! f = Some l ->
        _min_floor e <= f <= _max_floor e).

(** The car [e'] has no stop and no filed request that [e] has not. *)
Definition shrinks (e e' : Elevator) : Prop :=
  _up_stops e' ⊆ _up_stops e
  /\ _down_stops e' ⊆ _down_stops e
  /\ (forall f l', _active_requests e' !! f = Some l' ->
        exists l, _active_requests e !! f = Some l
                  /\ forall r, r ∈ l' -> r ∈ l).

(** No car of the fleet can accept any request of the queue. *)
Definition pending_unservable (c : Controller.t) : Prop :=
  forall r e, r ∈ Controller._pending_requests c ->
    e ∈ Controller._elevators c -> can_accept_request e r = false.

(** No car of the fleet can accept the request. *)
Definition unservable (c : Controller.t) (r : Request) : Prop :=
  forall e, e ∈ Controller._elevators c -> can_accept_request e r = false.

(** The calls that keep the strategy object or replace it by one of the
    strategies that return a car whenever one is compatible. *)
Definition keeps_off_look (o : ControllerOp) : Prop :=
  match o with
  | c_set_dispatch_strategy s => s <> LookStrategy
  | _ => True
  end.

(** The builders a caller obtains from the constructor by calls of
    [with_floors] and [with_elevators] that return. *)
Inductive configured : Builder.ElevatorSystemBuilder -> Prop :=
  | configured_new : configured Builder.new_Builder
  | configured_floors b min_floor max_floor b' :
      configured b ->
      Builder.with_floors b min_floor max_floor = Ok b' ->
      configured b'
  | configured_elevators b count capacity start_floors b' :
      configured b ->
      Builder.with_elevators b count capacity start_floors = Ok b' ->
      configured b'.

(** The floor at which [build] puts car [i]. *)
Definition start_floor_of (b : Builder.ElevatorSystemBuilder) (i : nat) : Z :=
  default (Builder._min_floor b) (default [] (Builder._start_floors b) !! i).

(** The floor next to [f] in direction [d]. *)
Definition toward (d : Direction) (f : Z) : Z :=
  match d with
  | UP => f + 1
  | DOWN => f - 1
  | IDLE => f
  end.

(** The floor [g] lies strictly ahead of [f] in direction [d]. *)
Definition beyond (d : Direction) (f g : Z) : Prop :=
  match d with
  | UP => f < g
  | DOWN => g < f
  | IDLE => False
  end.

(** The car has nothing to do: it is idle, it has no stop, and the floor
    dictionary holds empty sets only. *)
Definition at_rest (e : Elevator) : Prop :=
  _direction e = IDLE /\ _up_stops e = ∅ /\ _down_stops e = ∅
  /\ forall f l, _active_requests e !! f = Some l -> l = [].

(** The car of configuration [cfg] stands at floor [f] with the request
    [r] as its only work: it travels in the direction of [r], both floors
    of [r] are filed with [r] alone, the stops of that direction are
    [stops], there is no other stop, the load is [load], and the other
    entries of the floor dictionary are empty sets. *)
Definition serving (cfg : Z * Z * Z * Z) (r : Request) (stops : gset Z)
    (load : Z) (f : Z) (e : Elevator) : Prop :=
  config e = cfg
  /\ _current_floor e = f
  /\ _direction e = direction r
  /\ stops_for (direction r) e = stops
  /\ stops_for (opposite (direction r)) e = ∅
  /\ _current_load e = load
  /\ _active_requests e !! pickup_floor r = Some [r]
  /\ _active_requests e !! destination_floor r = Some [r]
  /\ forall f' l, f' <> pickup_floor r -> f' <> destination_floor r ->
       _active_requests e !! f' = Some l -> l = [].

(** The second half of [Elevator.step], after the first arrival check:
    the move, the observer call, the second arrival check and the update
    of the direction. *)
Definition move_and_arrive (set_iter : list Request -> list Request)
    (e : Elevator) : Elevator :=
  let e := _move e in
  let e := notify (fun s => on_floor_reached s (_current_floor e)) e in
  let e := arrive set_iter e in
  _update_direction e.

(** The car of configuration [cfg] keeps away from the pickup floor of
    [r]: it has no stop of the direction opposite to [r], the pickup floor
    is a stop, and the car, when it travels in the direction of [r], is
    not further back than one floor behind [c], and when it travels the
    other way, not further back than [c]. *)
Definition circling (cfg : Z * Z * Z * Z) (r : Request) (c : Z)
    (e : Elevator) : Prop :=
  config e = cfg
  /\ cfg.1.1.2 <= _current_floor e <= cfg.1.2
  /\ stops_for (opposite (direction r)) e = ∅
  /\ pickup_floor r ∈ stops_for (direction r) e
  /\ ((_direction e = direction r
       /\ ~ beyond (direction r) (_current_floor e)
              (toward (opposite (direction r)) c))
      \/ (_direction e = opposite (direction r)
          /\ ~ beyond (direction r) (_current_floor e) c)).

(** An observer call other than [on_floor_reached]. *)
Definition quiet_event (ev : Event) : Prop :=
  match ev with
  | on_floor_reached _ _ => False
  | _ => True
  end.

(** An [on_floor_reached] call reports the floor of its snapshot, a floor
    of the car of configuration [cfg], and a load between zero and the
    capacity. *)
Definition sound_event (cfg : Z * Z * Z * Z) (ev : Event) : Prop :=
  match ev with
  | on_floor_reached s f =>
      f = current_floor s /\ cfg.1.1.2 <= f <= cfg.1.2
      /\ 0 <= current_load s <= cfg.2
  | _ => True
  end.

(** The floors, the loads and the completions a sequence of observer
    calls reports. *)
Definition reported_floor (ev : Event) : option Z :=
  match ev with
  | on_floor_reached _ f => Some f
  | _ => None
  end.

Definition reported_load (ev : Event) : option Z :=
  match ev with
  | on_floor_reached s _ => Some (current_load s)
  | _ => None
  end.

Definition reported_completion (ev : Event) : option Request :=
  match ev with
  | on_request_completed _ r => Some r
  | _ => None
  end.

(** * Proofs *)

Lemma notify_fields ev e :
  config (notify ev e) = config e
  /\ _current_floor (notify ev e) = _current_floor e
  /\ _direction (notify ev e) = _direction e
  /\ _door_state (notify ev e) = _door_state e
  /\ _current_load (notify ev e) = _current_load e
  /\ _up_stops (notify ev e) = _up_stops e
  /\ _down_stops (notify ev e) = _down_stops e
  /\ _active_requests (notify ev e) = _active_requests e.
Proof. repeat split. Qed.

Section CarFrames.

Variable set_iter : list Request -> list Request.

Lemma process_requests_fields floor rs : forall e completed,
  let e' := (process_requests floor rs e completed).1 in
  config e' = config e
  /\ _current_floor e' = _current_floor e
  /\ _direction e' = _direction e
  /\ _door_state e' = _door_state e
  /\ _up_stops e' = _up_stops e
  /\ _down_stops e' = _down_stops e
  /\ _active_requests e' = _active_requests e.
Proof.
  induction rs as [|r rs IH]; intros e completed; simpl.
  - repeat split.
  - repeat case_bool_decide;
      match goal with
      | |- context [process_requests floor rs ?e1 ?c1] =>
          destruct (IH e1 c1) as (E1 & E2 & E3 & E4 & E5 & E6 & E7)
      end;
      simpl in *; rewrite E1, E2, E3, E4, E5, E6, E7; repeat split.
Qed.

Lemma remove_stop_fields floor e :
  config (remove_stop floor e) = config e
  /\ _current_floor (remove_stop floor e) = _current_floor e
  /\ _direction (remove_stop floor e) = _direction e
  /\ _door_state (remove_stop floor e) = _door_state e
  /\ _current_load (remove_stop floor e) = _current_load e
  /\ _active_requests (remove_stop floor e) = _active_requests e.
Proof. unfold remove_stop. repeat case_match; repeat split. Qed.

Lemma process_active_fields floor e :
  config (process_active set_iter floor e) = config e
  /\ _current_floor (process_active set_iter floor e) = _current_floor e
  /\ _direction (process_active set_iter floor e) = _direction e
  /\ _door_state (process_active set_iter floor e) = _door_state e
  /\ _up_stops (process_active set_iter floor e) = _up_stops e
  /\ _down_stops (process_active set_iter floor e) = _down_stops e.
Proof.
  unfold process_active.
  destruct (_active_requests e !! floor) as [l|]; [|repeat split].
  pose proof (process_requests_fields floor (set_iter l) e []) as Hp.
  destruct (process_requests floor (set_iter l) e []) as [e2 completed].
  simpl in Hp. destruct Hp as (E1 & E2 & E3 & E4 & E5 & E6 & _).
  repeat split; simpl; assumption.
Qed.

Lemma process_current_floor_fields e :
  let e' := _process_current_floor set_iter e in
  config e' = config e
  /\ _current_floor e' = _current_floor e
  /\ _direction e' = _direction e
  /\ _door_state e' = CLOSED.
Proof.
  unfold _process_current_floor; cbv zeta.
  set (e1 := notify on_door_opened (set_door_state e OPEN)).
  destruct (remove_stop_fields (_current_floor e) e1) as (A1 & A2 & A3 & _).
  destruct (process_active_fields (_current_floor e)
              (remove_stop (_current_floor e) e1)) as (B1 & B2 & B3 & _).
  repeat split; simpl; unfold config in *; simpl in *; congruence.
Qed.

Lemma arrive_fields e :
  config (arrive set_iter e) = config e
  /\ _current_floor (arrive set_iter e) = _current_floor e
  /\ _direction (arrive set_iter e) = _direction e
  /\ (_door_state e = CLOSED -> _door_state (arrive set_iter e) = CLOSED).
Proof.
  unfold arrive. destruct (_is_current_floor_a_stop e); [|repeat split; auto].
  destruct (process_current_floor_fields e) as (A1 & A2 & A3 & A4).
  repeat split; auto.
Qed.

Lemma move_fields e :
  config (_move e) = config e
  /\ _direction (_move e) = _direction e
  /\ _door_state (_move e) = _door_state e
  /\ _current_load (_move e) = _current_load e
  /\ _up_stops (_move e) = _up_stops e
  /\ _down_stops (_move e) = _down_stops e
  /\ _active_requests (_move e) = _active_requests e.
Proof. unfold _move. repeat case_match; repeat split; simpl; congruence. Qed.

Lemma update_direction_fields e :
  config (_update_direction e) = config e
  /\ _current_floor (_update_direction e) = _current_floor e
  /\ _door_state (_update_direction e) = _door_state e
  /\ _current_load (_update_direction e) = _current_load e
  /\ _up_stops (_update_direction e) = _up_stops e
  /\ _down_stops (_update_direction e) = _down_stops e
  /\ _active_requests (_update_direction e) = _active_requests e.
Proof.
  unfold _update_direction. repeat case_match; repeat split; simpl; congruence.
Qed.

Lemma add_request_fields e r :
  let e' := (add_request e r).2 in
  config e' = config e
  /\ _current_floor e' = _current_floor e
  /\ _door_state e' = _door_state e
  /\ _current_load e' = _current_load e.
Proof.
  unfold add_request. repeat case_match; repeat split; simpl; congruence.
Qed.

Lemma move_floor e :
  floor_in_range e ->
  floor_in_range (_move e)
  /\ Z.abs (_current_floor (_move e) - _current_floor e) <= 1.
Proof.
  unfold floor_in_range, _move.
  repeat case_match; repeat case_bool_decide; simpl; lia.
Qed.

End CarFrames.

Lemma config_eq e e' :
  config e' = config e ->
  _min_floor e' = _min_floor e /\ _max_floor e' = _max_floor e
  /\ _capacity e' = _capacity e.
Proof. unfold config. intros Hc. injection Hc. auto. Qed.

Lemma new_Elevator_Ok i mn mx cap st e0 :
  new_Elevator i mn mx cap st = Ok e0 ->
  (mn <= st <= mx /\ 1 <= cap)
  /\ e0 = mkElevator i mn mx cap st IDLE CLOSED 0 ∅ ∅ ∅ [].
Proof.
  unfold new_Elevator. intros H.
  repeat case_bool_decide; simpl in H; try discriminate.
  injection H as <-. split; [lia | reflexivity].
Qed.

Section CarRuns.

Variable set_iter : list Request -> list Request.

(** Induction over a run of public operations. *)
Lemma run_invariant (P : Elevator -> Prop) :
  (forall e r, constructed r -> P e -> P (add_request e r).2) ->
  (forall e, P e -> P (step set_iter e)) ->
  forall ops e, Forall constructed_op ops -> P e -> P (run set_iter e ops).
Proof.
  intros Hadd Hstep ops. induction ops as [|o ops IH]; intros e Hops He.
  - exact He.
  - inversion Hops as [|? ? Ho Hops']; subst.
    unfold run; simpl. apply IH; [assumption|].
    destruct o as [r|]; simpl; [apply Hadd | apply Hstep]; assumption.
Qed.

Lemma run_invariant_any (P : Elevator -> Prop) :
  (forall e r, P e -> P (add_request e r).2) ->
  (forall e, P e -> P (step set_iter e)) ->
  forall ops e, P e -> P (run set_iter e ops).
Proof.
  intros Hadd Hstep ops. induction ops as [|o ops IH]; intros e He.
  - exact He.
  - unfold run; simpl. apply IH.
    destruct o as [r|]; simpl; [apply Hadd | apply Hstep]; assumption.
Qed.

Lemma step_fields e :
  config (step set_iter e) = config e
  /\ (_door_state e = CLOSED -> _door_state (step set_iter e) = CLOSED).
Proof.
  unfold step. case_bool_decide; [split; auto|]. cbv zeta.
  set (e1 := arrive set_iter e).
  destruct (arrive_fields set_iter e) as (A1 & _ & _ & A4). fold e1 in A1, A4.
  set (e2 := if _has_pending_stops e1 then _ else e1).
  assert (H2 : config e2 = config e1
               /\ (_door_state e1 = CLOSED -> _door_state e2 = CLOSED)).
  { subst e2. destruct (_has_pending_stops e1); [|split; auto].
    set (e3 := notify _ (_move e1)).
    destruct (arrive_fields set_iter e3) as (B1 & _ & _ & B4).
    destruct (move_fields e1) as (C1 & _ & C3 & _).
    split; [rewrite B1; exact C1 | intros Hd; apply B4; simpl; congruence]. }
  destruct H2 as (H2 & H2').
  destruct (update_direction_fields e2) as (D1 & _ & D3 & _).
  split; [congruence | intros Hd; rewrite D3; auto].
Qed.

Lemma step_floor e :
  floor_in_range e ->
  floor_in_range (step set_iter e)
  /\ Z.abs (_current_floor (step set_iter e) - _current_floor e) <= 1.
Proof.
  intros He. unfold step. case_bool_decide; [split; [assumption | lia]|].
  cbv zeta. set (e1 := arrive set_iter e).
  destruct (arrive_fields set_iter e) as (A1 & A2 & _). fold e1 in A1, A2.
  apply config_eq in A1 as (A3 & A4 & _).
  assert (H1 : floor_in_range e1) by (unfold floor_in_range in *; lia).
  set (e2 := if _has_pending_stops e1 then _ else e1).
  assert (H2 : floor_in_range e2
               /\ Z.abs (_current_floor e2 - _current_floor e1) <= 1).
  { subst e2. destruct (_has_pending_stops e1); [|split; [assumption|lia]].
    set (e3 := notify _ (_move e1)).
    destruct (arrive_fields set_iter e3) as (B1 & B2 & _).
    apply config_eq in B1 as (B3 & B4 & _).
    destruct (move_floor e1 H1) as (M1 & M2).
    unfold floor_in_range in *. rewrite B2, B3, B4. simpl. lia. }
  destruct H2 as (H2 & H2').
  destruct (update_direction_fields e2) as (D1 & D2 & _).
  apply config_eq in D1 as (D3 & D4 & _).
  unfold floor_in_range in *. rewrite D2, D3, D4. lia.
Qed.

End CarRuns.

(** C1: [add_request] returns [True] exactly when both floors of the
    request lie in [[min_floor, max_floor]] and its passenger count is at
    most the capacity (the current load is not consulted); when it returns
    [False] the car is left as it was: stop sets, active requests,
    direction, load, floor, doors and observer calls. *)
Theorem add_request_accepts_iff_compatible (e : Elevator) (r : Request) :
  ((add_request e r).1 = true <->
     _min_floor e <= pickup_floor r <= _max_floor e
     /\ _min_floor e <= destination_floor r <= _max_floor e
     /\ passengers r <= _capacity e)
  /\ ((add_request e r).1 = false -> (add_request e r).2 = e).
Proof.
  unfold add_request, can_accept_request.
  repeat case_bool_decide; simpl; (split; [split|]);
    try discriminate; try tauto; try lia; reflexivity.
Qed.

Lemma move_clamped e :
  floor_in_range e ->
  _current_floor (_move e)
  = match _direction e with
    | UP => Z.min (_max_floor e) (_current_floor e + 1)
    | DOWN => Z.max (_min_floor e) (_current_floor e - 1)
    | IDLE => _current_floor e
    end.
Proof.
  unfold floor_in_range, _move. intros Hf.
  destruct (_direction e); [| |reflexivity]; case_bool_decide; simpl; lia.
Qed.

Lemma step_moves set_iter e :
  _current_floor (step set_iter e)
  = if negb (bool_decide (_direction e = IDLE))
       && _has_pending_stops (arrive set_iter e)
    then _current_floor (_move e)
    else _current_floor e.
Proof.
  unfold step. case_bool_decide as Hd; [reflexivity|]. cbv zeta. simpl.
  destruct (arrive_fields set_iter e) as (A1 & A2 & A3 & _).
  apply config_eq in A1 as (A4 & A5 & _).
  set (e1 := arrive set_iter e) in *.
  destruct (_has_pending_stops e1).
  - destruct (update_direction_fields
                (arrive set_iter
                   (notify (fun s => on_floor_reached s
                                       (_current_floor (_move e1)))
                      (_move e1)))) as (_ & U2 & _).
    rewrite U2.
    destruct (arrive_fields set_iter
                (notify (fun s => on_floor_reached s
                                    (_current_floor (_move e1)))
                   (_move e1))) as (_ & B2 & _).
    rewrite B2. simpl. unfold _move. rewrite A2, A3, A4, A5.
    destruct (_direction e); [| |congruence]; by case_bool_decide.
  - destruct (update_direction_fields e1) as (_ & U2 & _). by rewrite U2.
Qed.

(** C8: construction succeeds only with [min_floor <= start_floor <=
    max_floor], and in every car reached from it by [add_request] and
    [step] calls the current floor lies in [[min_floor, max_floor]].
    There [_move] goes exactly one floor in the direction of the car,
    clamped at [max_floor] going up and at [min_floor] going down; one
    more [step] makes that move when the car is not idle and stops remain
    after the arrival at the current floor, and leaves the floor as it is
    otherwise; so a step changes the floor by at most one and keeps it in
    range. *)
Theorem current_floor_stays_in_range (set_iter : list Request -> list Request)
    (i mn mx cap st : Z) (e0 : Elevator) (ops : list Op) :
  new_Elevator i mn mx cap st = Ok e0 ->
  let e := run set_iter e0 ops in
  mn <= st <= mx
  /\ mn <= _current_floor e <= mx
  /\ _current_floor (_move e)
     = match _direction e with
       | UP => Z.min mx (_current_floor e + 1)
       | DOWN => Z.max mn (_current_floor e - 1)
       | IDLE => _current_floor e
       end
  /\ _current_floor (step set_iter e)
     = (if negb (bool_decide (_direction e = IDLE))
           && _has_pending_stops (arrive set_iter e)
        then _current_floor (_move e)
        else _current_floor e)
  /\ Z.abs (_current_floor (step set_iter e) - _current_floor e) <= 1
  /\ mn <= _current_floor (step set_iter e) <= mx.
Proof.
  intros Hnew e. apply new_Elevator_Ok in Hnew as ((Hst & _) & ->).
  split; [exact Hst|].
  set (e0 := mkElevator _ _ _ _ _ _ _ _ _ _ _ _) in *.
  assert (Hinv : config e = config e0 /\ floor_in_range e).
  { apply run_invariant_any with (P := fun e =>
      config e = config e0 /\ floor_in_range e).
    - intros e' r (Hc & Hf).
      destruct (add_request_fields e' r) as (A1 & A2 & _).
      pose proof (config_eq _ _ A1) as (A3 & A4 & _).
      split; [congruence|]. unfold floor_in_range in *. lia.
    - intros e' (Hc & Hf). destruct (step_fields set_iter e') as (S1 & _).
      split; [congruence|]. apply step_floor; assumption.
    - split; [reflexivity|]. unfold floor_in_range; simpl; lia. }
  destruct Hinv as (Hc & Hf).
  destruct (step_floor set_iter _ Hf) as (Hf' & Habs).
  destruct (step_fields set_iter e) as (S1 & _).
  apply config_eq in S1 as (S2 & S3 & _).
  apply config_eq in Hc as (C2 & C3 & _). simpl in C2, C3.
  split; [unfold floor_in_range in *; lia|].
  split; [rewrite (move_clamped e Hf), C2, C3; reflexivity|].
  split; [apply step_moves|].
  unfold floor_in_range in *. lia.
Qed.

Lemma current_floor_stays_in_range_witness :
  new_Elevator 0 0 10 8 0
    = Ok (mkElevator 0 0 10 8 0 IDLE CLOSED 0 ∅ ∅ ∅ [])
  /\ (let e := run (fun l => l) (mkElevator 0 0 10 8 0 IDLE CLOSED 0 ∅ ∅ ∅ [])
                [op_add_request (mkRequest 3 7 1 0 1); op_step; op_step] in
      0 <= 0 <= 10
      /\ 0 <= _current_floor e <= 10
      /\ _current_floor (_move e)
         = match _direction e with
           | UP => Z.min 10 (_current_floor e + 1)
           | DOWN => Z.max 0 (_current_floor e - 1)
           | IDLE => _current_floor e
           end
      /\ _current_floor (step (fun l => l) e)
         = (if negb (bool_decide (_direction e = IDLE))
               && _has_pending_stops (arrive (fun l => l) e)
            then _current_floor (_move e)
            else _current_floor e)
      /\ Z.abs (_current_floor (step (fun l => l) e) - _current_floor e) <= 1
      /\ 0 <= _current_floor (step (fun l => l) e) <= 10).
Proof.
  split; [reflexivity|].
  apply (current_floor_stays_in_range (fun l => l) 0 0 10 8 0). reflexivity.
Defined.

Lemma process_requests_notified floor rs : forall e completed,
  exists mid,
    notified (process_requests floor rs e completed).1 = notified e ++ mid
    /\ Forall (fun ev => exists s r, ev = on_request_completed s r
                                     /\ door_state s = _door_state e) mid.
Proof.
  induction rs as [|r rs IH]; intros e completed; simpl.
  - exists []. split; [by rewrite app_nil_r | constructor].
  - repeat case_bool_decide;
      match goal with
      | |- context [process_requests floor rs ?e1 ?c1] =>
          destruct (IH e1 c1) as (mid & E1 & E2)
      end; simpl in *.
    + eexists. rewrite E1, <- app_assoc. split; [reflexivity|].
      constructor; [eauto | exact E2].
    + exists mid. auto.
    + exists mid. auto.
    + exists mid. auto.
Qed.

Lemma process_current_floor_notified set_iter e :
  exists s1 mid s2,
    notified (_process_current_floor set_iter e)
      = notified e ++ on_door_opened s1 :: mid ++ [on_door_closed s2]
    /\ door_state s1 = OPEN /\ door_state s2 = CLOSED
    /\ Forall (fun ev => exists s r, ev = on_request_completed s r
                                     /\ door_state s = OPEN) mid.
Proof.
  unfold _process_current_floor; cbv zeta.
  set (e1 := notify on_door_opened (set_door_state e OPEN)).
  set (e2 := remove_stop (_current_floor e) e1).
  assert (H2 : notified e2
               = notified e
                 ++ [on_door_opened (get_state (set_door_state e OPEN))]
               /\ _door_state e2 = OPEN).
  { subst e2 e1. unfold remove_stop. repeat case_match; split; reflexivity. }
  destruct H2 as (H2 & H2d).
  assert (H3 : exists mid,
    notified (process_active set_iter (_current_floor e) e2) = notified e2 ++ mid
    /\ Forall (fun ev => exists s r, ev = on_request_completed s r
                                     /\ door_state s = OPEN) mid).
  { unfold process_active.
    destruct (_active_requests e2 !! _current_floor e) as [l|].
    - destruct (process_requests_notified (_current_floor e) (set_iter l) e2 [])
        as (mid & E1 & E2).
      destruct (process_requests _ _ e2 []) as [e3 completed]; simpl in *.
      exists mid. rewrite H2d in E2. auto.
    - exists []. split; [by rewrite app_nil_r | constructor]. }
  destruct H3 as (mid & H3 & H3').
  eexists _, mid, _. simpl. rewrite H3, H2, <- !app_assoc. simpl.
  split; [reflexivity|]. split; [reflexivity|]. split; [reflexivity|].
  exact H3'.
Qed.

(** C10: a car is constructed with closed doors, and after every
    [add_request] and every completed [step] the doors are closed again.
    Arrival processing opens them (first observer call, doors seen open),
    completes requests while they are open, and closes them (last observer
    call, doors seen closed) before it returns. *)
Theorem doors_closed_between_operations
    (set_iter : list Request -> list Request)
    (i mn mx cap st : Z) (e0 : Elevator) (ops : list Op) :
  new_Elevator i mn mx cap st = Ok e0 ->
  _door_state (run set_iter e0 ops) = CLOSED
  /\ forall e, exists s1 mid s2,
       notified (_process_current_floor set_iter e)
         = notified e ++ on_door_opened s1 :: mid ++ [on_door_closed s2]
       /\ door_state s1 = OPEN /\ door_state s2 = CLOSED
       /\ Forall (fun ev => exists s r, ev = on_request_completed s r
                                        /\ door_state s = OPEN) mid.
Proof.
  intros Hnew. apply new_Elevator_Ok in Hnew as (_ & ->).
  split; [|apply process_current_floor_notified].
  apply run_invariant_any with (P := fun e => _door_state e = CLOSED).
  - intros e r Hd. destruct (add_request_fields e r) as (_ & _ & A3 & _).
    congruence.
  - intros e Hd. apply step_fields; assumption.
  - reflexivity.
Qed.

Lemma doors_closed_between_operations_witness :
  new_Elevator 0 0 10 8 0
    = Ok (mkElevator 0 0 10 8 0 IDLE CLOSED 0 ∅ ∅ ∅ [])
  /\ _door_state
       (run (fun l => l) (mkElevator 0 0 10 8 0 IDLE CLOSED 0 ∅ ∅ ∅ [])
          [op_add_request (mkRequest 0 2 1 0 1); op_step; op_step; op_step])
     = CLOSED.
Proof.
  split; [reflexivity|].
  apply (doors_closed_between_operations (fun l => l) 0 0 10 8 0). reflexivity.
Defined.

(** *** Sets of requests and the floor dictionary *)

Lemma set_add_elem r l r' :
  r' ∈ set_add r l -> r' ∈ l \/ r' = r.
Proof.
  unfold set_add. destruct (existsb _ l); [auto|].
  rewrite elem_of_app, list_elem_of_singleton. auto.
Qed.

Lemma set_add_old r l r' : r' ∈ l -> r' ∈ set_add r l.
Proof.
  unfold set_add. destruct (existsb _ l); [auto|].
  rewrite elem_of_app. auto.
Qed.

Lemma set_add_new r l :
  r ∈ set_add r l \/ exists r', r' ∈ l /\ id r' = id r.
Proof.
  unfold set_add. destruct (existsb (Request_eqb r) l) eqn:He.
  - right. apply existsb_exists in He as (r' & Hin & Heq).
    exists r'. split; [by apply list_elem_of_In|].
    unfold Request_eqb in Heq. by apply bool_decide_eq_true in Heq.
  - left. rewrite elem_of_app, list_elem_of_singleton. auto.
Qed.

Lemma set_discard_elem r l r' :
  r' ∈ set_discard r l <-> r' ∈ l /\ id r <> id r'.
Proof.
  unfold set_discard. rewrite list_elem_of_filter. unfold Request_eqb.
  rewrite bool_decide_eq_false. tauto.
Qed.

Lemma track_lookup f r d f' :
  track f r d !! f'
  = if decide (f = f') then Some (set_add r (default [] (d !! f)))
    else d !! f'.
Proof.
  unfold track. destruct (d !! f) as [l|] eqn:Hl; simpl;
    rewrite lookup_insert; case_decide; reflexivity.
Qed.

Lemma clean_up_lookup f completed : forall d f',
  match d !! f' with
  | None => clean_up f completed d !! f' = None
  | Some l =>
      exists l', clean_up f completed d !! f' = Some l'
        /\ forall r, r ∈ l' <->
             r ∈ l /\ forall c, c ∈ completed ->
                        f' = f \/ f' = pickup_floor c -> id c <> id r
  end.
Proof.
  induction completed as [|c completed IH]; intros d f'; simpl.
  - destruct (d !! f') as [l|]; [|reflexivity].
    exists l. split; [reflexivity|]. intros r. split; [|tauto].
    intros Hr. split; [assumption|]. intros c Hc.
    by apply not_elem_of_nil in Hc.
  - specialize (IH (alter (set_discard c) (pickup_floor c)
                      (alter (set_discard c) f d)) f').
    rewrite !lookup_alter in IH.
    destruct (d !! f') as [l|] eqn:Hl.
    + repeat case_decide; subst; rewrite ?Hl in IH; simpl in IH;
        destruct IH as (l' & E1 & E2); exists l'; (split; [exact E1|]);
        intros r; rewrite E2, ?set_discard_elem; setoid_rewrite elem_of_cons;
        split.
      all: intros (Hin & Hc).
      all: try (split; [tauto|]; intros c0 [->|Hc0] Hf;
                [first [tauto | exfalso; destruct Hf; congruence]
                | by apply Hc]).
      all: repeat split; try assumption; try tauto;
           try (apply (Hc c); auto);
           intros c0 Hc0 Hf; apply Hc; auto.
    + repeat case_decide; subst; rewrite ?Hl in IH; simpl in IH; exact IH.
Qed.

Lemma process_requests_completed floor rs : forall e completed,
  (process_requests floor rs e completed).2
  = completed ++ filter (fun r => destination_floor r = floor) rs.
Proof.
  induction rs as [|r rs IH]; intros e completed; simpl.
  - by rewrite app_nil_r.
  - rewrite filter_cons. repeat case_bool_decide; rewrite IH;
      repeat case_decide; try contradiction; try reflexivity.
    by rewrite <- app_assoc.
Qed.

(** Boarding and alighting keep the load between 0 and the capacity. *)
Lemma process_requests_load floor rs : forall e completed,
  Forall constructed rs ->
  load_in_range e ->
  load_in_range (process_requests floor rs e completed).1.
Proof.
  induction rs as [|r rs IH]; intros e completed Hrs He; simpl; [exact He|].
  inversion Hrs as [|? ? Hr Hrs']; subst.
  assert (Hp : 1 <= passengers r).
  { unfold constructed, Request_post_init in Hr.
    repeat case_bool_decide; try discriminate. lia. }
  unfold load_in_range in *.
  repeat case_bool_decide; apply IH; try assumption; simpl; lia.
Qed.

(** *** Properties kept by every part of [step] *)

Section StepParts.

Variable set_iter : list Request -> list Request.

Lemma step_preserves (P : Elevator -> Prop) :
  (forall e, P e -> P (arrive set_iter e)) ->
  (forall e, P e -> P (_move e)) ->
  (forall ev e, P e -> P (notify ev e)) ->
  (forall e, P e -> P (_update_direction e)) ->
  forall e, P e -> P (step set_iter e).
Proof.
  intros Harr Hmove Hnot Hupd e He. unfold step.
  case_bool_decide; [exact He|]. cbv zeta.
  apply Hupd. destruct (_has_pending_stops _); auto.
Qed.

Lemma arrive_preserves (P : Elevator -> Prop) :
  (forall e d, P e -> P (set_door_state e d)) ->
  (forall ev e, P e -> P (notify ev e)) ->
  (forall f e, P e -> P (remove_stop f e)) ->
  (forall f e, P e -> P (process_active set_iter f e)) ->
  forall e, P e -> P (arrive set_iter e).
Proof.
  intros Hdoor Hnot Hrem Hact e He. unfold arrive.
  destruct (_is_current_floor_a_stop e); [|exact He].
  unfold _process_current_floor; cbv zeta. auto 10.
Qed.

End StepParts.

Lemma add_request_rejected e r :
  can_accept_request e r = false -> (add_request e r).2 = e.
Proof. unfold add_request. intros ->. reflexivity. Qed.

Lemma add_request_accepted e r :
  can_accept_request e r = true ->
  let e' := (add_request e r).2 in
  _active_requests e'
    = track (destination_floor r) r
        (track (pickup_floor r) r (_active_requests e))
  /\ stops_for (direction r) e'
     = {[destination_floor r]} ∪ ({[pickup_floor r]}
         ∪ stops_for (direction r) e)
  /\ stops_for (opposite (direction r)) e'
     = stops_for (opposite (direction r)) e
  /\ _direction e' <> IDLE.
Proof.
  unfold add_request. intros ->. simpl.
  unfold direction. repeat case_bool_decide; simpl in *;
    repeat split; congruence.
Qed.

Section LoadProofs.

Variable set_iter : list Request -> list Request.
Hypothesis set_iter_perm : forall l, set_iter l ≡ₚ l.

Lemma process_active_lookup floor e f' l' :
  _active_requests (process_active set_iter floor e) !! f' = Some l' ->
  exists l,
    _active_requests e !! f' = Some l
    /\ forall r, r ∈ l' <->
         r ∈ l /\ forall l0 c, _active_requests e !! floor = Some l0 ->
                    c ∈ l0 -> destination_floor c = floor ->
                    f' = floor \/ f' = pickup_floor c -> id c <> id r.
Proof.
  unfold process_active.
  destruct (_active_requests e !! floor) as [l0|] eqn:Hl0.
  - pose proof (process_requests_fields floor (set_iter l0) e []) as Hf.
    pose proof (process_requests_completed floor (set_iter l0) e []) as Hc.
    destruct (process_requests floor (set_iter l0) e []) as [e2 completed].
    simpl in Hf, Hc. destruct Hf as (_ & _ & _ & _ & _ & _ & Ha).
    simpl. rewrite Ha.
    pose proof (clean_up_lookup floor completed (_active_requests e) f') as Hk.
    assert (Hcompl : forall c, c ∈ completed <->
                       c ∈ l0 /\ destination_floor c = floor).
    { intros c. rewrite Hc, list_elem_of_filter, (set_iter_perm l0). tauto. }
    intros Hlook.
    assert (Hlook' : clean_up floor completed (_active_requests e) !! f'
                     = Some l').
    { destruct (clean_up floor completed (_active_requests e) !! floor)
        as [[|x xs]|] eqn:Hcf; try exact Hlook.
      rewrite lookup_delete in Hlook.
      case_decide; [discriminate | exact Hlook]. }
    destruct (_active_requests e !! f') as [l|] eqn:Hl; [|congruence].
    destruct Hk as (l'' & Hk1 & Hk2). rewrite Hk1 in Hlook'.
    injection Hlook' as ->. exists l. split; [reflexivity|].
    intros r. rewrite Hk2. split.
    + intros (Hin & Hall). split; [exact Hin|].
      intros l1 c [= <-] Hcl Hd Hff. apply Hall; [|exact Hff].
      apply Hcompl. auto.
    + intros (Hin & Hall). split; [exact Hin|].
      intros c Hcc Hff. apply Hcompl in Hcc as (Hcl & Hd). eauto.
  - intros Hlook. exists l'. split; [exact Hlook|].
    intros r. split; [|tauto]. intros Hr. split; [exact Hr|]. intros ? ? [=].
Qed.

Lemma process_active_load floor e :
  all_constructed e -> load_in_range e ->
  load_in_range (process_active set_iter floor e).
Proof.
  intros Hcons He. unfold process_active.
  destruct (_active_requests e !! floor) as [l0|] eqn:Hl0; [|exact He].
  pose proof (process_requests_load floor (set_iter l0) e []) as Hload.
  pose proof (process_requests_fields floor (set_iter l0) e []) as Hf.
  destruct (process_requests floor (set_iter l0) e []) as [e2 completed].
  simpl in *. destruct Hf as (Hc & _).
  apply config_eq in Hc as (_ & _ & Hcap).
  unfold load_in_range in *. simpl. apply Hload; [|exact He].
  apply Forall_forall. intros r Hr. rewrite (set_iter_perm l0) in Hr.
  eapply Hcons; eauto.
Qed.

Lemma process_active_constructed floor e :
  all_constructed e -> all_constructed (process_active set_iter floor e).
Proof.
  intros Hcons f' l' r Hl' Hr.
  apply process_active_lookup in Hl' as (l & Hl & Hiff).
  apply Hiff in Hr as (Hr & _). eapply Hcons; eauto.
Qed.

Lemma track_constructed f r d :
  constructed r ->
  (forall f' l r', d !! f' = Some l -> r' ∈ l -> constructed r') ->
  forall f' l r', track f r d !! f' = Some l -> r' ∈ l -> constructed r'.
Proof.
  intros Hr Hd f' l r'. rewrite track_lookup. case_decide.
  - intros [= <-] Hin. apply set_add_elem in Hin as [Hin| ->]; [|exact Hr].
    destruct (d !! f) as [l0|] eqn:Hl0; simpl in Hin.
    + eapply Hd; eauto.
    + by apply not_elem_of_nil in Hin.
  - apply Hd.
Qed.

Lemma add_request_load e r :
  constructed r ->
  load_in_range e /\ all_constructed e ->
  load_in_range (add_request e r).2 /\ all_constructed (add_request e r).2.
Proof.
  intros Hr (Hload & Hcons).
  destruct (can_accept_request e r) eqn:Hacc.
  - destruct (add_request_fields e r) as (Hc & _ & _ & Hl).
    apply config_eq in Hc as (_ & _ & Hcap).
    destruct (add_request_accepted e r Hacc) as (Ha & _).
    split; [unfold load_in_range in *; simpl in *; lia|].
    unfold all_constructed. simpl in Ha. rewrite Ha.
    apply track_constructed; [exact Hr|].
    apply track_constructed; [exact Hr|]. exact Hcons.
  - rewrite add_request_rejected by exact Hacc. auto.
Qed.

Lemma step_load e :
  load_in_range e /\ all_constructed e ->
  load_in_range (step set_iter e) /\ all_constructed (step set_iter e).
Proof.
  revert e.
  apply (step_preserves set_iter
           (fun e => load_in_range e /\ all_constructed e)).
  - apply (arrive_preserves set_iter
             (fun e => load_in_range e /\ all_constructed e)).
    + intros e0 d H. exact H.
    + intros ev e0 H. exact H.
    + intros f e0 (H1 & H2).
      destruct (remove_stop_fields f e0) as (Hc & _ & _ & _ & Hl & Ha).
      apply config_eq in Hc as (_ & _ & Hcap).
      unfold load_in_range, all_constructed in *. rewrite Hl, Hcap, Ha. auto.
    + intros f e0 (H1 & H2).
      split; [by apply process_active_load
             | by apply process_active_constructed].
  - intros e0 (H1 & H2).
    destruct (move_fields e0) as (Hc & _ & _ & Hl & _ & _ & Ha).
    apply config_eq in Hc as (_ & _ & Hcap).
    unfold load_in_range, all_constructed in *. rewrite Hl, Hcap, Ha. auto.
  - intros ev e0 H. exact H.
  - intros e0 (H1 & H2).
    destruct (update_direction_fields e0) as (Hc & _ & _ & Hl & _ & _ & Ha).
    apply config_eq in Hc as (_ & _ & Hcap).
    unfold load_in_range, all_constructed in *. rewrite Hl, Hcap, Ha. auto.
Qed.

(** C7: in every car reached from construction by [add_request] and
    [step] calls the load satisfies [0 <= load <= capacity]: the car starts
    empty with capacity at least 1, a request boards only when
    [load + passengers <= capacity], and leaving passengers are subtracted
    with a floor at 0. *)
Theorem load_stays_within_capacity (i mn mx cap st : Z) (e0 : Elevator)
    (ops : list Op) :
  new_Elevator i mn mx cap st = Ok e0 ->
  Forall constructed_op ops ->
  0 <= _current_load (run set_iter e0 ops) <= _capacity (run set_iter e0 ops)
  /\ _capacity (run set_iter e0 ops) = cap.
Proof.
  intros Hnew Hops. apply new_Elevator_Ok in Hnew as ((_ & Hcap) & ->).
  set (e0 := mkElevator _ _ _ _ _ _ _ _ _ _ _ _).
  assert (Hinv : config (run set_iter e0 ops) = config e0
                 /\ load_in_range (run set_iter e0 ops)
                 /\ all_constructed (run set_iter e0 ops)).
  { apply run_invariant with (P := fun e =>
      config e = config e0 /\ load_in_range e /\ all_constructed e).
    - intros e r Hr (Hc & Hl). split; [|by apply add_request_load].
      destruct (add_request_fields e r) as (A1 & _). congruence.
    - intros e (Hc & Hl). split; [|by apply step_load].
      destruct (step_fields set_iter e) as (S1 & _). congruence.
    - exact Hops.
    - split; [reflexivity|]. split.
      + unfold load_in_range; simpl; lia.
      + intros f l r Hl. simpl in Hl. by rewrite lookup_empty in Hl. }
  destruct Hinv as (Hc & Hl & _).
  apply config_eq in Hc as (_ & _ & Hc). simpl in Hc.
  split; [exact Hl | exact Hc].
Qed.

End LoadProofs.

Lemma load_stays_within_capacity_witness :
  (forall l : list Request, (fun l => l) l ≡ₚ l)
  /\ new_Elevator 0 0 10 5 0
     = Ok (mkElevator 0 0 10 5 0 IDLE CLOSED 0 ∅ ∅ ∅ [])
  /\ Forall constructed_op
       [op_add_request (mkRequest 0 5 1 0 4);
        op_add_request (mkRequest 2 4 2 0 3); op_step; op_step; op_step]
  /\ (let e := run (fun l => l) (mkElevator 0 0 10 5 0 IDLE CLOSED 0 ∅ ∅ ∅ [])
                [op_add_request (mkRequest 0 5 1 0 4);
                 op_add_request (mkRequest 2 4 2 0 3);
                 op_step; op_step; op_step] in
      0 <= _current_load e <= _capacity e /\ _capacity e = 5).
Proof.
  assert (Hp : forall l : list Request, (fun l => l) l ≡ₚ l)
    by (intros l; reflexivity).
  assert (Hops : Forall constructed_op
            [op_add_request (mkRequest 0 5 1 0 4);
             op_add_request (mkRequest 2 4 2 0 3); op_step; op_step; op_step])
    by (repeat constructor).
  split; [exact Hp|]. split; [reflexivity|]. split; [exact Hops|].
  apply (load_stays_within_capacity (fun l => l) Hp 0 0 10 5 0);
    [reflexivity | exact Hops].
Defined.

(** *** Direction after a step *)

Section DirectionProofs.

Variable set_iter : list Request -> list Request.

Lemma stops_for_eq d e e' :
  _up_stops e' = _up_stops e -> _down_stops e' = _down_stops e ->
  stops_for d e' = stops_for d e.
Proof. intros Hu Hd. destruct d; simpl; assumption. Qed.

(** After arrival processing the current floor is no longer a stop of the
    direction of travel. *)
Lemma arrive_not_a_stop e :
  _direction e <> IDLE ->
  _current_floor (arrive set_iter e)
    ∉ stops_for (_direction e) (arrive set_iter e).
Proof.
  intros Hd. unfold arrive, _is_current_floor_a_stop.
  destruct (_direction e) eqn:Hdir; try contradiction;
    case_bool_decide as Hin; simpl; try exact Hin.
  all: unfold _process_current_floor; cbv zeta; simpl.
  all: match goal with
       | |- context [process_active set_iter ?f ?x] =>
           destruct (process_active_fields set_iter f x)
             as (_ & Hfl & _ & _ & Hu & Hdn)
       end.
  all: rewrite Hfl; first [rewrite Hu | rewrite Hdn].
  all: unfold remove_stop; simpl; rewrite Hdir; simpl.
  all: rewrite bool_decide_eq_true_2 by exact Hin; simpl.
  all: set_solver.
Qed.

Lemma update_direction_spec e :
  _direction e <> IDLE ->
  _current_floor e ∉ stops_for (_direction e) e ->
  _direction (_update_direction e)
  = recomputed_direction (_direction e) (_current_floor e)
      (stops_for (_direction e) e) (stops_for (opposite (_direction e)) e).
Proof.
  intros Hd Hnot. unfold _update_direction, recomputed_direction, truthy.
  destruct (_direction e) eqn:Hdir; try contradiction; simpl in *.
  - destruct (filter _ (elements (_up_stops e))) as [|f fs] eqn:Hf.
    + assert (Hno : forall f, f ∈ _up_stops e -> f < _current_floor e).
      { intros f Hin.
        destruct (decide (f > _current_floor e)) as [Hgt|Hle].
        - assert (Hin' : f ∈ filter (fun f => f > _current_floor e)
                              (elements (_up_stops e)))
            by (apply list_elem_of_filter; split; [exact Hgt | set_solver]).
          rewrite Hf in Hin'. by apply not_elem_of_nil in Hin'.
        - destruct (decide (f = _current_floor e)) as [->|];
            [contradiction|lia]. }
      rewrite (bool_decide_eq_false_2
                 (set_Exists (strictly_ahead UP (_current_floor e))
                    (_up_stops e))).
      2:{ intros (f & Hin & Hgt). apply Hno in Hin. simpl in Hgt. lia. }
      repeat case_bool_decide; simpl; try rewrite Hdir; try reflexivity.
      * exfalso. apply H1.
        destruct (set_choose_L (_up_stops e)) as (f & Hin); [assumption|].
        exists f. split; [exact Hin | simpl; by apply Hno].
      * exfalso. destruct H1 as (f & Hin & _). set_solver.
    + rewrite bool_decide_eq_true_2; [exact Hdir|].
      assert (Hin : f ∈ filter (fun f => f > _current_floor e)
                          (elements (_up_stops e)))
        by (rewrite Hf; left).
      apply list_elem_of_filter in Hin as (Hgt & Hin).
      exists f. split; [set_solver | exact Hgt].
  - destruct (filter _ (elements (_down_stops e))) as [|f fs] eqn:Hf.
    + assert (Hno : forall f, f ∈ _down_stops e -> f > _current_floor e).
      { intros f Hin.
        destruct (decide (f < _current_floor e)) as [Hgt|Hle].
        - assert (Hin' : f ∈ filter (fun f => f < _current_floor e)
                              (elements (_down_stops e)))
            by (apply list_elem_of_filter; split; [exact Hgt | set_solver]).
          rewrite Hf in Hin'. by apply not_elem_of_nil in Hin'.
        - destruct (decide (f = _current_floor e)) as [->|];
            [contradiction|lia]. }
      rewrite (bool_decide_eq_false_2
                 (set_Exists (strictly_ahead DOWN (_current_floor e))
                    (_down_stops e))).
      2:{ intros (f & Hin & Hgt). apply Hno in Hin. simpl in Hgt. lia. }
      repeat case_bool_decide; simpl; try rewrite Hdir; try reflexivity.
      * exfalso. apply H1.
        destruct (set_choose_L (_down_stops e)) as (f & Hin); [assumption|].
        exists f. split; [exact Hin | simpl; by apply Hno].
      * exfalso. destruct H1 as (f & Hin & _). set_solver.
    + rewrite bool_decide_eq_true_2; [exact Hdir|].
      assert (Hin : f ∈ filter (fun f => f < _current_floor e)
                          (elements (_down_stops e)))
        by (rewrite Hf; left).
      apply list_elem_of_filter in Hin as (Hgt & Hin).
      exists f. split; [set_solver | exact Hgt].
Qed.

(** C3: a step of a car that is not idle ends by recomputing the
    direction from the floor and the stop sets it has reached: the
    direction is kept if its own stop set has a floor strictly ahead;
    otherwise it is reversed if the other set is non-empty; otherwise it is
    reversed if its own set has floors behind the car; otherwise the car
    becomes idle. *)
Theorem step_recomputes_direction (e : Elevator) :
  _direction e <> IDLE ->
  _direction (step set_iter e)
  = recomputed_direction (_direction e) (_current_floor (step set_iter e))
      (stops_for (_direction e) (step set_iter e))
      (stops_for (opposite (_direction e)) (step set_iter e)).
Proof.
  intros Hd. unfold step. rewrite bool_decide_eq_false_2 by exact Hd.
  cbv zeta. set (e1 := arrive set_iter e).
  destruct (arrive_fields set_iter e) as (_ & _ & A3 & _). fold e1 in A3.
  pose proof (arrive_not_a_stop e Hd) as A5. fold e1 in A5.
  set (e2 := if _has_pending_stops e1 then _ else e1).
  assert (H2 : _direction e2 = _direction e
               /\ _current_floor e2 ∉ stops_for (_direction e) e2).
  { subst e2. destruct (_has_pending_stops e1); [|auto].
    set (e3 := notify _ (_move e1)).
    assert (H3 : _direction e3 = _direction e).
    { subst e3. destruct (move_fields e1) as (_ & M & _). simpl. congruence. }
    destruct (arrive_fields set_iter e3) as (_ & _ & B3 & _).
    split; [congruence|]. rewrite <- H3. apply arrive_not_a_stop. congruence. }
  destruct H2 as (H2 & H2').
  destruct (update_direction_fields e2) as (_ & D2 & _ & _ & D5 & D6 & _).
  rewrite D2, !(stops_for_eq _ _ _ D5 D6), <- H2.
  apply update_direction_spec; rewrite H2; assumption.
Qed.

End DirectionProofs.

Lemma step_recomputes_direction_witness :
  let e := (add_request (mkElevator 0 0 10 8 0 IDLE CLOSED 0 ∅ ∅ ∅ [])
              (mkRequest 0 2 1 0 1)).2 in
  _direction e <> IDLE
  /\ _direction (step (fun l => l) e)
     = recomputed_direction (_direction e)
         (_current_floor (step (fun l => l) e))
         (stops_for (_direction e) (step (fun l => l) e))
         (stops_for (opposite (_direction e)) (step (fun l => l) e)).
Proof.
  assert (H : _direction (add_request
                 (mkElevator 0 0 10 8 0 IDLE CLOSED 0 ∅ ∅ ∅ [])
                 (mkRequest 0 2 1 0 1)).2 <> IDLE) by (simpl; discriminate).
  split; [exact H|].
  apply (step_recomputes_direction (fun l => l) _ H).
Defined.

(** *** The floor dictionary and the stop sets *)

Lemma run_invariant_submitted set_iter (P : Elevator -> Prop) ops :
  (forall e r, r ∈ submitted ops -> P e -> P (add_request e r).2) ->
  (forall e, P e -> P (step set_iter e)) ->
  forall e, P e -> P (run set_iter e ops).
Proof.
  intros Hadd Hstep.
  assert (Hgen : forall ops',
                   (forall r, r ∈ submitted ops' -> r ∈ submitted ops) ->
                   forall e, P e -> P (run set_iter e ops')).
  { induction ops' as [|o ops' IH]; intros Hsub e He; [exact He|].
    unfold run; simpl. apply IH.
    - intros r Hr. apply Hsub. unfold submitted. simpl.
      destruct o; [right|]; exact Hr.
    - destruct o as [r|]; simpl; [|by apply Hstep].
      apply Hadd; [|exact He]. apply Hsub. unfold submitted. simpl. left. }
  apply Hgen. auto.
Qed.

Lemma tracked_elem p d r a f l r0 :
  track d r (track p r a) !! f = Some l -> r0 ∈ l ->
  (r0 = r /\ (f = p \/ f = d)) \/ (exists l0, a !! f = Some l0 /\ r0 ∈ l0).
Proof.
  intros Hl Hin. rewrite track_lookup in Hl.
  destruct (decide (d = f)) as [->|Hne].
  - injection Hl as <-. apply set_add_elem in Hin as [Hin | ->]; [|left; auto].
    rewrite track_lookup in Hin.
    destruct (decide (p = f)) as [->|Hne']; simpl in Hin.
    + apply set_add_elem in Hin as [Hin | ->]; [|left; auto].
      destruct (a !! f) eqn:E; simpl in Hin;
        [right; eauto | by apply not_elem_of_nil in Hin].
    + destruct (a !! f) eqn:E; simpl in Hin;
        [right; eauto | by apply not_elem_of_nil in Hin].
  - rewrite track_lookup in Hl. destruct (decide (p = f)) as [->|Hne'].
    + injection Hl as <-.
      apply set_add_elem in Hin as [Hin | ->]; [|left; auto].
      destruct (a !! f) eqn:E; simpl in Hin;
        [right; eauto | by apply not_elem_of_nil in Hin].
    + right; eauto.
Qed.

Lemma tracked_old p d r a f l0 r0 :
  a !! f = Some l0 -> r0 ∈ l0 ->
  exists l, track d r (track p r a) !! f = Some l /\ r0 ∈ l.
Proof.
  intros Hl Hin. rewrite !track_lookup.
  repeat case_decide; subst; rewrite ?Hl; simpl; eexists; split;
    try reflexivity; rewrite ?Hl; simpl; auto using set_add_old.
Qed.

Lemma tracked_new p d r a :
  (forall f l0 r', a !! f = Some l0 -> r' ∈ l0 -> id r' = id r -> r' = r) ->
  exists l, track d r (track p r a) !! d = Some l /\ r ∈ l.
Proof.
  intros Huniq. rewrite !track_lookup.
  rewrite decide_True by reflexivity. eexists. split; [reflexivity|].
  destruct (set_add_new r (default [] (if decide (p = d)
              then Some (set_add r (default [] (a !! p))) else a !! d)))
    as [Hin | (r' & Hin & Hid)]; [exact Hin|].
  apply set_add_old. case_decide; simpl in *.
  - destruct (set_add_new r (default [] (a !! p)))
      as [H1 | (r2 & H1 & H2)]; [exact H1|].
    apply set_add_old.
    destruct (a !! p) as [l0|] eqn:Hl0; simpl in *;
      [|by apply not_elem_of_nil in H1].
    assert (r2 = r) as -> by eauto. exact H1.
  - destruct (a !! d) as [l0|] eqn:Hl0; simpl in *;
      [|by apply not_elem_of_nil in Hin].
    assert (r' = r) as -> by eauto. exact Hin.
Qed.

Lemma direction_cases r r' :
  direction r' = direction r \/ direction r' = opposite (direction r).
Proof. unfold direction. repeat case_bool_decide; simpl; auto. Qed.

Lemma add_request_well_tracked hist e r :
  unique_ids hist -> r ∈ hist ->
  well_tracked hist e -> well_tracked hist (add_request e r).2.
Proof.
  intros Huniq Hr Hinv.
  destruct (can_accept_request e r) eqn:Hacc;
    [|by rewrite add_request_rejected].
  destruct (add_request_accepted e r Hacc) as (Ha & Hs & Hs' & _).
  set (e' := (add_request e r).2) in *. simpl in Ha.
  assert (Hmono : forall r0 x, x ∈ stops_for (direction r0) e ->
                    x ∈ stops_for (direction r0) e').
  { intros r0 x Hx. destruct (direction_cases r r0) as [E | E];
      rewrite E in Hx |- *.
    - rewrite Hs, !elem_of_union. auto.
    - by rewrite Hs'. }
  intros f l r0 Hl Hin. rewrite Ha in Hl.
  destruct (tracked_elem _ _ _ _ _ _ _ Hl Hin)
    as [(-> & Hf) | (l0 & Hl0 & Hin0)].
  - split; [exact Hr|]. split; [exact Hf|]. split.
    + rewrite Ha. apply tracked_new.
      intros f0 l0 r' Hl0 Hin0 Hid.
      apply Huniq; [|exact Hr|exact Hid]. by apply (Hinv f0 l0 r').
    + rewrite Hs, elem_of_union, elem_of_singleton. auto.
  - destruct (Hinv f l0 r0 Hl0 Hin0) as (H1 & H2 & (ld & H3 & H3') & H4).
    split; [exact H1|]. split; [exact H2|]. split.
    + rewrite Ha. eapply tracked_old; eauto.
    + by apply Hmono.
Qed.

Lemma well_tracked_eq hist e e' :
  _active_requests e' = _active_requests e ->
  _up_stops e' = _up_stops e -> _down_stops e' = _down_stops e ->
  well_tracked hist e -> well_tracked hist e'.
Proof.
  intros Ha Hu Hd Hinv f l r. rewrite Ha, (stops_for_eq _ _ _ Hu Hd).
  apply Hinv.
Qed.

Lemma remove_stop_keeps f e d x :
  x ∈ stops_for d e -> x <> f -> x ∈ stops_for d (remove_stop f e).
Proof.
  intros Hx Hne. unfold remove_stop.
  repeat case_match; destruct d; simpl in *; try exact Hx;
    apply elem_of_difference; (split; [exact Hx|]);
    rewrite elem_of_singleton; exact Hne.
Qed.

Section TrackingProofs.

Variable set_iter : list Request -> list Request.
Hypothesis set_iter_perm : forall l, set_iter l ≡ₚ l.

Lemma process_active_keeps floor e f' l r :
  _active_requests e !! f' = Some l -> r ∈ l ->
  (forall l0 c, _active_requests e !! floor = Some l0 -> c ∈ l0 ->
     destination_floor c = floor -> f' = floor \/ f' = pickup_floor c ->
     id c <> id r) ->
  exists l', _active_requests (process_active set_iter floor e) !! f' = Some l'
             /\ r ∈ l'.
Proof.
  intros Hl Hin Hcond. unfold process_active.
  destruct (_active_requests e !! floor) as [l0|] eqn:Hl0; [|eauto].
  pose proof (process_requests_fields floor (set_iter l0) e []) as Hf.
  pose proof (process_requests_completed floor (set_iter l0) e []) as Hc.
  destruct (process_requests floor (set_iter l0) e []) as [e2 completed].
  simpl in Hf, Hc. destruct Hf as (_ & _ & _ & _ & _ & _ & Ha).
  simpl. rewrite Ha.
  pose proof (clean_up_lookup floor completed (_active_requests e) f') as Hk.
  rewrite Hl in Hk. destruct Hk as (l' & Hk1 & Hk2).
  assert (Hr : r ∈ l').
  { apply Hk2. split; [exact Hin|]. intros c Hcc Hff.
    rewrite Hc, list_elem_of_filter, (set_iter_perm l0) in Hcc.
    destruct Hcc as (Hd & Hcl). eauto. }
  exists l'. split; [|exact Hr].
  destruct (clean_up floor completed (_active_requests e) !! floor)
    as [[|y ys]|] eqn:Hcf; try exact Hk1.
  rewrite lookup_delete. case_decide; [|exact Hk1].
  subst f'. rewrite Hk1 in Hcf. injection Hcf as ->.
  by apply not_elem_of_nil in Hr.
Qed.

Lemma process_current_floor_well_tracked hist e :
  unique_ids hist ->
  well_tracked hist e -> well_tracked hist (_process_current_floor set_iter e).
Proof.
  intros Huniq Hinv. unfold _process_current_floor; cbv zeta.
  set (floor := _current_floor e).
  set (e1 := notify on_door_opened (set_door_state e OPEN)).
  set (e2 := remove_stop floor e1).
  set (e3 := process_active set_iter floor e2).
  apply (well_tracked_eq hist e3); try reflexivity.
  destruct (remove_stop_fields floor e1) as (_ & _ & _ & _ & _ & Ha2).
  fold e2 in Ha2. simpl in Ha2.
  destruct (process_active_fields set_iter floor e2)
    as (_ & _ & _ & _ & Hu3 & Hd3). fold e3 in Hu3, Hd3.
  intros f l' r0 Hl' Hin.
  apply process_active_lookup in Hl' as (l & Hl & Hiff); [|exact set_iter_perm].
  apply Hiff in Hin as (Hin & Hcond). rewrite Ha2 in Hl, Hcond.
  destruct (Hinv f l r0 Hl Hin) as (H1 & H2 & (ld & H3 & H3') & H4).
  assert (Hne : destination_floor r0 <> floor).
  { intros Heq. rewrite Heq in H3.
    apply (Hcond ld r0 H3 H3' Heq); [|reflexivity].
    destruct H2 as [H2|H2]; [right; exact H2 | left; congruence]. }
  split; [exact H1|]. split; [exact H2|]. split.
  - apply process_active_keeps with (l := ld); rewrite ?Ha2; try assumption.
    intros l0 c Hl0 Hc Hdc _ Hid.
    destruct (Hinv floor l0 c Hl0 Hc) as (Hch & _).
    assert (c = r0) by (apply Huniq; assumption). subst c. contradiction.
  - rewrite (stops_for_eq _ _ _ Hu3 Hd3). apply remove_stop_keeps; assumption.
Qed.

Lemma step_well_tracked hist e :
  unique_ids hist ->
  well_tracked hist e -> well_tracked hist (step set_iter e).
Proof.
  intros Huniq. revert e. apply (step_preserves set_iter (well_tracked hist)).
  - intros e He. unfold arrive. destruct (_is_current_floor_a_stop e);
      [by apply process_current_floor_well_tracked | exact He].
  - intros e He. destruct (move_fields e) as (_ & _ & _ & _ & Hu & Hd & Ha).
    by apply (well_tracked_eq hist e).
  - intros ev e He. exact He.
  - intros e He.
    destruct (update_direction_fields e) as (_ & _ & _ & _ & Hu & Hd & Ha).
    by apply (well_tracked_eq hist e).
Qed.

(** C4: in a car reached from construction by [add_request] and [step]
    calls, the submitted requests being identified by their ids, every
    request still filed in the floor dictionary has its pickup or its
    destination floor in the stop set of its direction of travel. *)
Theorem active_request_keeps_a_pending_stop (i mn mx cap st : Z)
    (e0 : Elevator) (ops : list Op) (f : Z) (l : list Request) (r : Request) :
  new_Elevator i mn mx cap st = Ok e0 ->
  unique_ids (submitted ops) ->
  _active_requests (run set_iter e0 ops) !! f = Some l ->
  r ∈ l ->
  pickup_floor r ∈ stops_for (direction r) (run set_iter e0 ops)
  \/ destination_floor r ∈ stops_for (direction r) (run set_iter e0 ops).
Proof.
  intros Hnew Huniq Hl Hin. apply new_Elevator_Ok in Hnew as (_ & ->).
  right. revert f l r Hl Hin.
  assert (Hinv : well_tracked (submitted ops)
                   (run set_iter (mkElevator i mn mx cap st IDLE CLOSED 0 ∅ ∅ ∅ [])
                      ops)).
  { apply run_invariant_submitted
      with (P := well_tracked (submitted ops)).
    - intros e r Hr He. by apply add_request_well_tracked.
    - intros e He. by apply step_well_tracked.
    - intros f l r Hl. simpl in Hl. by rewrite lookup_empty in Hl. }
  intros f l r Hl Hin. by destruct (Hinv f l r Hl Hin) as (_ & _ & _ & H4).
Qed.

End TrackingProofs.

Lemma active_request_keeps_a_pending_stop_witness :
  let ops := [op_add_request (mkRequest 0 5 1 0 4);
              op_add_request (mkRequest 2 4 2 0 3); op_step; op_step] in
  let e := run (fun l => l) (mkElevator 0 0 10 5 0 IDLE CLOSED 0 ∅ ∅ ∅ [])
             ops in
  (forall l : list Request, (fun l => l) l ≡ₚ l)
  /\ new_Elevator 0 0 10 5 0
     = Ok (mkElevator 0 0 10 5 0 IDLE CLOSED 0 ∅ ∅ ∅ [])
  /\ unique_ids (submitted ops)
  /\ _active_requests e !! 2 = Some [mkRequest 2 4 2 0 3]
  /\ mkRequest 2 4 2 0 3 ∈ [mkRequest 2 4 2 0 3]
  /\ (pickup_floor (mkRequest 2 4 2 0 3)
        ∈ stops_for (direction (mkRequest 2 4 2 0 3)) e
      \/ destination_floor (mkRequest 2 4 2 0 3)
           ∈ stops_for (direction (mkRequest 2 4 2 0 3)) e).
Proof.
  intros ops e.
  assert (Hp : forall l : list Request, (fun l => l) l ≡ₚ l)
    by (intros l; reflexivity).
  assert (Hu : unique_ids (submitted ops)).
  { intros r1 r2 H1 H2 Hid. apply list_elem_of_In in H1, H2. simpl in H1, H2.
    destruct H1 as [<-|[<-|[]]], H2 as [<-|[<-|[]]];
      try reflexivity; discriminate. }
  assert (Hl : _active_requests e !! 2 = Some [mkRequest 2 4 2 0 3])
    by (vm_compute; reflexivity).
  assert (Hin : mkRequest 2 4 2 0 3 ∈ [mkRequest 2 4 2 0 3]) by left.
  split; [exact Hp|]. split; [reflexivity|]. split; [exact Hu|].
  split; [exact Hl|]. split; [exact Hin|].
  apply (active_request_keeps_a_pending_stop (fun l => l) Hp 0 0 10 5 0
           _ ops 2 _ _ eq_refl Hu Hl Hin).
Defined.

(** *** Requests that do not fit at their pickup floor *)

Lemma process_requests_none_fit floor rs : forall e completed,
  (forall c, c ∈ rs -> destination_floor c <> floor
                       /\ _current_load e + passengers c > _capacity e) ->
  process_requests floor rs e completed = (e, completed).
Proof.
  induction rs as [|c rs IH]; intros e completed Hall; simpl; [reflexivity|].
  destruct (Hall c) as (Hd & Hfit); [left|].
  rewrite bool_decide_eq_false_2 by exact Hd.
  assert (Hrs : forall c', c' ∈ rs -> destination_floor c' <> floor
                  /\ _current_load e + passengers c' > _capacity e)
    by (intros c' Hc'; apply Hall; by right).
  case_bool_decide; [|by apply IH].
  rewrite bool_decide_eq_false_2 by lia. by apply IH.
Qed.

(** C2: the run on which the code loses an overflowing pickup.  Capacity
    5, a request for four
    passengers from floor 0 to 5 and one for three from floor 2 to 4.  The
    car reaches floor 2 carrying four; the second request does not fit.
    Floor 2 leaves the stop set all the same, the car goes on to 3 and 4
    with the same four passengers, and at floor 4 the second request is
    completed: its three passengers never boarded, and three are
    subtracted from the load. *)
Lemma overflowing_pickup_never_boards :
  let rA := mkRequest 0 5 1 0 4 in
  let rB := mkRequest 2 4 2 0 3 in
  let e0 := mkElevator 0 0 10 5 0 IDLE CLOSED 0 ∅ ∅ ∅ [] in
  let e1 := run (fun l => l) e0
              [op_add_request rA; op_add_request rB; op_step] in
  let e2 := step (fun l => l) e1 in
  let e3 := step (fun l => l) e2 in
  let e4 := step (fun l => l) e3 in
  new_Elevator 0 0 10 5 0 = Ok e0
  /\ constructed rA /\ constructed rB
  /\ (add_request (add_request e0 rA).2 rB).1 = true
  /\ _current_floor e1 = 1 /\ _current_load e1 = 4
  /\ _current_load e1 + passengers rB > _capacity e1
  /\ _current_floor e2 = pickup_floor rB /\ _current_load e2 = 4
  /\ _active_requests e2 !! pickup_floor rB = Some [rB]
  /\ (pickup_floor rB ∉ _up_stops e2) /\ (pickup_floor rB ∉ _down_stops e2)
  /\ _current_floor e3 = 3 /\ _current_load e3 = 4
  /\ _current_floor e4 = destination_floor rB /\ _current_load e4 = 1
  /\ _active_requests e4 !! pickup_floor rB = Some []
  /\ _active_requests e4 !! destination_floor rB = None
  /\ exists s, last (notified e4) = Some (on_door_closed s)
       /\ on_request_completed
            (mkElevatorState 0 4 UP OPEN 1 5 {[5]} ∅) rB ∈ notified e4.
Proof.
  cbv zeta. repeat split; try (vm_compute; reflexivity);
    try (vm_compute; intros [=]).
  - eexists. split; [vm_compute; reflexivity|].
    refine (bool_decide_eq_true_1 _ _). vm_compute. reflexivity.
Qed.

Section OverflowProofs.

Variable set_iter : list Request -> list Request.
Hypothesis set_iter_perm : forall l, set_iter l ≡ₚ l.

(** The mechanism behind that run: when arrival processing meets a
    request at its pickup floor, the request stays filed under that floor,
    while the floor leaves the stop set of the direction of travel; and
    when none of the requests filed under the floor leaves the car or fits
    into it, the load and the floor dictionary are left as they were. *)
Lemma overflowing_pickup_stays_on_record (e : Elevator)
    (l : list Request) (r : Request) :
  _direction e <> IDLE ->
  _is_current_floor_a_stop e = true ->
  _active_requests e !! _current_floor e = Some l ->
  r ∈ l ->
  pickup_floor r = _current_floor e ->
  destination_floor r <> _current_floor e ->
  (forall c, c ∈ l -> id c = id r -> c = r) ->
  let e' := _process_current_floor set_iter e in
  (exists l', _active_requests e' !! _current_floor e = Some l' /\ r ∈ l')
  /\ (_current_floor e ∉ stops_for (_direction e) e')
  /\ ((forall c, c ∈ l ->
         destination_floor c <> _current_floor e
         /\ _current_load e + passengers c > _capacity e) ->
      _current_load e' = _current_load e
      /\ _active_requests e' = _active_requests e).
Proof.
  intros Hd Hstop Hl Hin Hp Hdest Hid e'.
  set (floor := _current_floor e) in *.
  set (e2 := remove_stop floor (notify on_door_opened (set_door_state e OPEN))).
  assert (Ha2 : _active_requests e2 = _active_requests e).
  { destruct (remove_stop_fields floor
                (notify on_door_opened (set_door_state e OPEN)))
      as (_ & _ & _ & _ & _ & Ha). exact Ha. }
  assert (Hl2 : _current_load e2 = _current_load e
                /\ _capacity e2 = _capacity e).
  { destruct (remove_stop_fields floor
                (notify on_door_opened (set_door_state e OPEN)))
      as (Hc & _ & _ & _ & Hload & _).
    apply config_eq in Hc as (_ & _ & Hc). auto. }
  assert (He' : _active_requests e'
                = _active_requests (process_active set_iter floor e2)
                /\ _current_load e'
                   = _current_load (process_active set_iter floor e2))
    by (split; reflexivity).
  destruct He' as (Ha' & Hl'). split; [|split].
  - rewrite Ha'. apply process_active_keeps with (l := l);
      rewrite ?Ha2; try assumption.
    intros l0 c Hl0 Hc Hdc _ Hcid.
    rewrite Hl in Hl0. injection Hl0 as <-.
    assert (c = r) by (apply Hid; assumption). subst c. contradiction.
  - pose proof (arrive_not_a_stop set_iter e Hd) as Hns.
    unfold arrive in Hns. rewrite Hstop in Hns.
    destruct (process_current_floor_fields set_iter e) as (_ & Hf & _).
    fold e' in Hns, Hf. rewrite Hf in Hns. exact Hns.
  - intros Hall. rewrite Ha', Hl'. unfold process_active.
    rewrite Ha2, Hl.
    rewrite process_requests_none_fit.
    2:{ intros c Hc. rewrite (set_iter_perm l) in Hc.
        destruct Hl2 as (-> & ->). by apply Hall. }
    simpl. rewrite Ha2, Hl.
    destruct l as [|x xs]; [by apply not_elem_of_nil in Hin|].
    simpl. split; [apply Hl2 | reflexivity].
Qed.

End OverflowProofs.

Lemma overflowing_pickup_stays_on_record_witness :
  let rB := mkRequest 2 4 2 0 3 in
  let e := _move (run (fun l => l)
                    (mkElevator 0 0 10 5 0 IDLE CLOSED 0 ∅ ∅ ∅ [])
                    [op_add_request (mkRequest 0 5 1 0 4);
                     op_add_request rB; op_step]) in
  let e' := _process_current_floor (fun l => l) e in
  (forall l : list Request, (fun l => l) l ≡ₚ l)
  /\ _direction e <> IDLE
  /\ _is_current_floor_a_stop e = true
  /\ _active_requests e !! _current_floor e = Some [rB]
  /\ rB ∈ [rB]
  /\ pickup_floor rB = _current_floor e
  /\ destination_floor rB <> _current_floor e
  /\ (forall c, c ∈ [rB] -> id c = id rB -> c = rB)
  /\ (exists l', _active_requests e' !! _current_floor e = Some l' /\ rB ∈ l')
  /\ (_current_floor e ∉ stops_for (_direction e) e').
Proof.
  intros rB e e'.
  assert (Hp : forall l : list Request, (fun l => l) l ≡ₚ l)
    by (intros l; reflexivity).
  assert (H1 : _direction e <> IDLE) by (vm_compute; discriminate).
  assert (H2 : _is_current_floor_a_stop e = true) by (vm_compute; reflexivity).
  assert (H3 : _active_requests e !! _current_floor e = Some [rB])
    by (vm_compute; reflexivity).
  assert (H4 : rB ∈ [rB]) by left.
  assert (H5 : pickup_floor rB = _current_floor e) by (vm_compute; reflexivity).
  assert (H6 : destination_floor rB <> _current_floor e)
    by (vm_compute; discriminate).
  assert (H7 : forall c, c ∈ [rB] -> id c = id rB -> c = rB).
  { intros c Hc _. apply list_elem_of_In in Hc. simpl in Hc.
    destruct Hc as [<-|[]]. reflexivity. }
  pose proof (overflowing_pickup_stays_on_record (fun l => l) Hp e [rB] rB
                H1 H2 H3 H4 H5 H6 H7) as (R1 & R2 & _).
  repeat (split; [assumption|]). exact R2.
Defined.

(** *** Construction errors *)

(** The call [with_elevators(3, 8, [])]: the list of start floors has
    length 0, not 3, yet no error is raised; [build] then starts every car
    at [min_floor]. *)
Lemma empty_start_floor_list_is_accepted :
  Builder.length_of (Some []) <> 3
  /\ Builder.with_elevators Builder.new_Builder 3 8 (Some [])
     = Ok (Builder.mkBuilder 0 10 3 8 (Some []))
  /\ Builder.build_elevators (Builder.mkBuilder 0 10 3 8 (Some [])) 3 0
     = Ok [mkElevator 0 0 10 8 0 IDLE CLOSED 0 ∅ ∅ ∅ [];
           mkElevator 1 0 10 8 0 IDLE CLOSED 0 ∅ ∅ ∅ [];
           mkElevator 2 0 10 8 0 IDLE CLOSED 0 ∅ ∅ ∅ []].
Proof. repeat split. simpl. discriminate. Qed.

Lemma new_Elevator_Raise i mn mx cap st :
  new_Elevator i mn mx cap st = Raise
  <-> mn > mx \/ cap < 1 \/ ~ (mn <= st <= mx).
Proof.
  unfold new_Elevator. repeat case_bool_decide; simpl;
    (split; [intros; try discriminate; lia | intros; try reflexivity; lia]).
Qed.

Lemma new_Request_Raise p d uuid ts n :
  new_Request p d uuid ts n = Raise <-> p = d \/ n < 1.
Proof.
  unfold new_Request, Request_post_init; simpl.
  repeat case_bool_decide;
    (split; [intros; try discriminate; lia | intros; try reflexivity; lia]).
Qed.

Lemma new_Request_Ok p d uuid ts n r :
  new_Request p d uuid ts n = Ok r -> r = mkRequest p d uuid ts n.
Proof.
  unfold new_Request, Request_post_init; simpl.
  intros H. repeat case_bool_decide; try discriminate. by injection H as <-.
Qed.

Lemma with_floors_Raise b mn mx :
  Builder.with_floors b mn mx = Raise <-> mn > mx.
Proof.
  unfold Builder.with_floors.
  case_bool_decide; (split; intros; try discriminate; try reflexivity; lia).
Qed.

Lemma with_elevators_Raise b count cap sf :
  Builder.with_elevators b count cap sf = Raise
  <-> count < 1 \/ cap < 1
      \/ exists l, sf = Some l /\ l <> [] /\ Z.of_nat (length l) <> count.
Proof.
  unfold Builder.with_elevators. split.
  - repeat case_bool_decide; try (intros; lia);
      destruct sf as [[|x l]|]; simpl; try discriminate.
    intros _. right. right. exists (x :: l).
    split; [reflexivity|]. split; [discriminate|]. simpl in *. lia.
  - intros [H|[H|(l & -> & Hne & Hlen)]].
    + by rewrite bool_decide_eq_true_2.
    + repeat case_bool_decide; try reflexivity; lia.
    + repeat case_bool_decide; try reflexivity;
        destruct l as [|x l]; try contradiction; simpl in *;
        try reflexivity; lia.
Qed.

Lemma with_elevators_Ok b count cap sf b' :
  Builder.with_elevators b count cap sf = Ok b' ->
  Builder._num_elevators b' = count /\ Builder._capacity b' = cap
  /\ Builder._start_floors b' = sf.
Proof.
  unfold Builder.with_elevators. intros H.
  repeat case_bool_decide; try discriminate;
    destruct (Builder.truthy sf); simpl in H; try discriminate;
    by injection H as <-.
Qed.

(** C9, as the code has it: the constructors raise exactly in the listed
    cases, where the fleet's start-floor list is rejected only when it is
    non-empty and its length differs from the car count (an empty or absent
    list is accepted), and [with_elevators] also rejects a car count below
    one; an accepted object holds the values it was given. *)
Theorem construction_raises_exactly_on_invalid_input :
  (forall i mn mx cap st,
     new_Elevator i mn mx cap st = Raise
     <-> mn > mx \/ cap < 1 \/ ~ (mn <= st <= mx))
  /\ (forall i mn mx cap st e,
        new_Elevator i mn mx cap st = Ok e ->
        e = mkElevator i mn mx cap st IDLE CLOSED 0 ∅ ∅ ∅ [])
  /\ (forall p d uuid ts n,
        new_Request p d uuid ts n = Raise <-> p = d \/ n < 1)
  /\ (forall p d uuid ts n r,
        new_Request p d uuid ts n = Ok r -> r = mkRequest p d uuid ts n)
  /\ (forall b mn mx, Builder.with_floors b mn mx = Raise <-> mn > mx)
  /\ (forall b count cap sf,
        Builder.with_elevators b count cap sf = Raise
        <-> count < 1 \/ cap < 1
            \/ exists l, sf = Some l /\ l <> []
                         /\ Z.of_nat (length l) <> count)
  /\ (forall b count cap sf b',
        Builder.with_elevators b count cap sf = Ok b' ->
        Builder._num_elevators b' = count /\ Builder._capacity b' = cap
        /\ Builder._start_floors b' = sf).
Proof.
  split; [exact new_Elevator_Raise|].
  split.
  { intros i mn mx cap st e H. by apply new_Elevator_Ok in H as (_ & ->). }
  split; [exact new_Request_Raise|].
  split; [exact new_Request_Ok|].
  split; [exact with_floors_Raise|].
  split; [exact with_elevators_Raise | exact with_elevators_Ok].
Qed.

(** *** Round robin *)

Lemma in_compatible request elevators e :
  e ∈ elevators ->
  e ∈ _get_compatible_elevators request elevators
  <-> can_accept_request e request = true.
Proof.
  intros He. unfold _get_compatible_elevators. rewrite list_elem_of_filter.
  tauto.
Qed.

Lemma fcfs_loop_spec request elevators k : forall i,
  let n := Z.of_nat (length elevators) in
  0 <= i < n ->
  let res := FCFS.loop k n elevators
               (_get_compatible_elevators request elevators)
               (FCFS.mk i) in
  match res.1 with
  | Some e =>
      exists j : nat,
        (j < k)%nat
        /\ elevators !! Z.to_nat ((i + Z.of_nat j) `mod` n) = Some e
        /\ can_accept_request e request = true
        /\ (forall (j' : nat) e', (j' < j)%nat ->
              elevators !! Z.to_nat ((i + Z.of_nat j') `mod` n) = Some e' ->
              can_accept_request e' request = false)
        /\ FCFS._next_index res.2 = (i + Z.of_nat j + 1) `mod` n
  | None =>
      (forall (j' : nat) e', (j' < k)%nat ->
         elevators !! Z.to_nat ((i + Z.of_nat j') `mod` n) = Some e' ->
         can_accept_request e' request = false)
      /\ FCFS._next_index res.2 = (i + Z.of_nat k) `mod` n
  end.
Proof.
  induction k as [|k IH]; intros i n Hi; simpl.
  - split; [intros; lia|]. rewrite Z.add_0_r, Z.mod_small; [reflexivity|lia].
  - fold n. rewrite (Z.mod_small i n) by lia.
    destruct (elevators !! Z.to_nat i) as [e|] eqn:He.
    2:{ apply lookup_ge_None in He. lia. }
    assert (Hin : e ∈ elevators) by (apply list_elem_of_lookup; eauto).
    case_bool_decide as Hc.
    + apply in_compatible in Hc; [|exact Hin]. simpl. exists 0%nat.
      rewrite Z.add_0_r, Z.mod_small by lia.
      repeat split; [lia | exact He | exact Hc | intros; lia].
    + assert (Hc' : can_accept_request e request = false).
      { destruct (can_accept_request e request) eqn:E; [|reflexivity].
        exfalso. apply Hc. by apply in_compatible. }
      assert (Hi' : 0 <= (i + 1) `mod` n < n) by (apply Z.mod_pos_bound; lia).
      specialize (IH ((i + 1) `mod` n) Hi'). fold n in IH. simpl in IH.
      assert (Hpos : forall j : nat,
                ((i + 1) `mod` n + Z.of_nat j) `mod` n
                = (i + Z.of_nat (S j)) `mod` n).
      { intros j. rewrite Zplus_mod_idemp_l.
        apply (f_equal (fun x => x `mod` n)). lia. }
      destruct (FCFS.loop k n elevators _ _) as [[e1|] s1]; simpl in *.
      * destruct IH as (j & Hj & Hl & Ha & Hbefore & Hidx).
        exists (S j). rewrite Hpos in Hl.
        split; [lia|]. split; [exact Hl|]. split; [exact Ha|]. split.
        -- intros [|j'] e' Hj' Hl'.
           ++ rewrite Z.add_0_r, Z.mod_small in Hl' by lia. congruence.
           ++ apply (Hbefore j'); [lia|]. by rewrite Hpos.
        -- rewrite Hidx, <- Z.add_assoc, Zplus_mod_idemp_l.
           apply (f_equal (fun x => x `mod` n)). lia.
      * destruct IH as (Hbefore & Hidx). split.
        -- intros [|j'] e' Hj' Hl'.
           ++ rewrite Z.add_0_r, Z.mod_small in Hl' by lia. congruence.
           ++ apply (Hbefore j'); [lia|]. by rewrite Hpos.
        -- rewrite Hidx. apply Hpos.
Qed.

Lemma FCFS_select_first request elevators i e i' :
  0 <= i < Z.of_nat (length elevators) ->
  elevators !! Z.to_nat i = Some e ->
  can_accept_request e request = true ->
  i' = (i + 1) `mod` Z.of_nat (length elevators) ->
  FCFS.select_elevator (FCFS.mk i) request elevators
  = (Some e, FCFS.mk i').
Proof.
  intros Hi He Hc ->. unfold FCFS.select_elevator.
  assert (Hin : e ∈ _get_compatible_elevators request elevators).
  { apply in_compatible; [|exact Hc]. apply list_elem_of_lookup; eauto. }
  destruct (_get_compatible_elevators request elevators) as [|c cs] eqn:Hcomp;
    [by apply not_elem_of_nil in Hin|].
  destruct (length elevators) as [|k] eqn:Hlen; [lia|].
  simpl FCFS.loop. rewrite <- Hlen at 1.
  rewrite (Z.mod_small i) by lia.
  rewrite He. rewrite bool_decide_eq_true_2 by exact Hin.
  rewrite <- Hlen. reflexivity.
Qed.

(** C6: one call of the round-robin strategy, its index being a position
    of the fleet, advances the index by [k] positions around the fleet with
    [1 <= k <= n], and returns the first compatible car met from the old
    index on, which stands [k - 1] positions after it; it returns no car
    only when no car is compatible, and the index then stands where a full
    rotation leaves it.  A fresh strategy serving six requests over three
    cars that accept them all selects cars 0, 1, 2, 0, 1, 2. *)
Theorem fcfs_round_robin (self : FCFS.t) (request : Request)
    (elevators : list Elevator) :
  let n := Z.of_nat (length elevators) in
  let res := FCFS.select_elevator self request elevators in
  0 <= FCFS._next_index self < n ->
  (exists k : nat,
     (1 <= k <= length elevators)%nat
     /\ FCFS._next_index res.2
        = (FCFS._next_index self + Z.of_nat k) `mod` n
     /\ 0 <= FCFS._next_index res.2 < n
     /\ match res.1 with
        | Some e =>
            elevators
              !! Z.to_nat ((FCFS._next_index self + Z.of_nat k - 1) `mod` n)
            = Some e
            /\ can_accept_request e request = true
            /\ forall (j : nat) e', (j < k - 1)%nat ->
                 elevators
                   !! Z.to_nat ((FCFS._next_index self + Z.of_nat j) `mod` n)
                 = Some e' ->
                 can_accept_request e' request = false
        | None =>
            k = length elevators
            /\ forall e', e' ∈ elevators ->
                 can_accept_request e' request = false
        end)
  /\ (forall e0 e1 e2 r1 r2 r3 r4 r5 r6,
        (forall e r, e ∈ [e0; e1; e2] -> r ∈ [r1; r2; r3; r4; r5; r6] ->
           can_accept_request e r = true) ->
        FCFS_dispatch_all FCFS.init [r1; r2; r3; r4; r5; r6]
          [e0; e1; e2]
        = [Some e0; Some e1; Some e2; Some e0; Some e1; Some e2]).
Proof.
  intros n res Hi. split.
  - destruct self as [i]. simpl in Hi. subst res.
    unfold FCFS.select_elevator.
    destruct (_get_compatible_elevators request elevators) as [|c cs] eqn:Hcomp.
    + exists (length elevators). simpl. fold n.
      split; [lia|]. split.
      { transitivity ((i + 1 * n) `mod` n);
          [by rewrite Z_mod_plus_full, Z.mod_small by lia
          | f_equal; subst n; lia]. }
      split; [exact Hi|]. split; [reflexivity|].
      intros e' He'. destruct (can_accept_request e' request) eqn:E;
        [|reflexivity].
      apply (in_compatible request elevators e' He') in E.
      rewrite Hcomp in E. by apply not_elem_of_nil in E.
    + pose proof (fcfs_loop_spec request elevators (length elevators) i Hi)
        as Hspec. simpl in Hspec. fold n in Hspec. rewrite Hcomp in Hspec.
      fold n.
      destruct (FCFS.loop (length elevators) n elevators (c :: cs)
                  (FCFS.mk i))
        as [[e|] s]; simpl in *.
      * destruct Hspec as (j & Hj & Hl & Ha & Hbefore & Hidx).
        exists (S j). split; [lia|]. split.
        { rewrite Hidx. apply (f_equal (fun x => x `mod` n)). lia. }
        split; [rewrite Hidx; apply Z.mod_pos_bound; lia|].
        split; [|split; [exact Ha|]].
        -- replace (i + Z.of_nat (S j) - 1) with (i + Z.of_nat j) by lia.
           exact Hl.
        -- intros j' e' Hj' Hl'. apply (Hbefore j'); [lia | exact Hl'].
      * exfalso. destruct Hspec as (Hnone & _).
        assert (Hc : c ∈ _get_compatible_elevators request elevators)
          by (rewrite Hcomp; left).
        unfold _get_compatible_elevators in Hc.
        apply list_elem_of_filter in Hc as (Hacc & Hc).
        apply list_elem_of_lookup in Hc as (m & Hm).
        pose proof (lookup_lt_Some _ _ _ Hm) as Hlt.
        assert (Hj : (Z.to_nat ((Z.of_nat m - i) `mod` n)
                      < length elevators)%nat).
        { pose proof (Z.mod_pos_bound (Z.of_nat m - i) n). lia. }
        specialize (Hnone _ c Hj).
        rewrite Z2Nat.id in Hnone
          by (pose proof (Z.mod_pos_bound (Z.of_nat m - i) n); lia).
        rewrite Zplus_mod_idemp_r in Hnone.
        replace (i + (Z.of_nat m - i)) with (Z.of_nat m) in Hnone by lia.
        rewrite Z.mod_small, Nat2Z.id in Hnone by lia.
        specialize (Hnone Hm). congruence.
  - intros e0 e1 e2 r1 r2 r3 r4 r5 r6 Hall.
    unfold FCFS_dispatch_all, FCFS.init.
    assert (Hacc : forall e r, e ∈ [e0; e1; e2] ->
              r ∈ [r1; r2; r3; r4; r5; r6] ->
              can_accept_request e r = true) by exact Hall.
    rewrite (FCFS_select_first r1 [e0; e1; e2] 0 e0 1);
      [|simpl; lia|reflexivity|apply Hacc; set_solver|reflexivity].
    rewrite (FCFS_select_first r2 [e0; e1; e2] 1 e1 2);
      [|simpl; lia|reflexivity|apply Hacc; set_solver|reflexivity].
    rewrite (FCFS_select_first r3 [e0; e1; e2] 2 e2 0);
      [|simpl; lia|reflexivity|apply Hacc; set_solver|reflexivity].
    rewrite (FCFS_select_first r4 [e0; e1; e2] 0 e0 1);
      [|simpl; lia|reflexivity|apply Hacc; set_solver|reflexivity].
    rewrite (FCFS_select_first r5 [e0; e1; e2] 1 e1 2);
      [|simpl; lia|reflexivity|apply Hacc; set_solver|reflexivity].
    rewrite (FCFS_select_first r6 [e0; e1; e2] 2 e2 0);
      [|simpl; lia|reflexivity|apply Hacc; set_solver|reflexivity].
    reflexivity.
Qed.

Lemma fcfs_round_robin_witness :
  let car := fun i => mkElevator i 0 10 100 0 IDLE CLOSED 0 ∅ ∅ ∅ [] in
  let req := fun uuid => mkRequest 0 5 uuid 0 1 in
  0 <= FCFS._next_index FCFS.init
    < Z.of_nat (length [car 0; car 1; car 2])
  /\ FCFS_dispatch_all FCFS.init
       [req 1%N; req 2%N; req 3%N; req 4%N; req 5%N; req 6%N]
       [car 0; car 1; car 2]
     = [Some (car 0); Some (car 1); Some (car 2);
        Some (car 0); Some (car 1); Some (car 2)].
Proof.
  intros car req.
  assert (H : 0 <= FCFS._next_index FCFS.init
              < Z.of_nat (length [car 0; car 1; car 2])) by (simpl; lia).
  split; [exact H|].
  destruct (fcfs_round_robin FCFS.init (req 1%N)
              [car 0; car 1; car 2] H)
    as (_ & Hex).
  apply Hex. intros e r He Hr.
  apply list_elem_of_In in He, Hr. simpl in He, Hr.
  destruct He as [<-|[<-|[<-|[]]]];
    destruct Hr as [<-|[<-|[<-|[<-|[<-|[<-|[]]]]]]]; reflexivity.
Defined.

(** *** The order on floats *)

Ltac float_order :=
  unfold PyFloat.ltb, SFltb, SFcompare;
  repeat match goal with
         | x : PyFloat.float |- _ => destruct x
         | x : spec_float |- _ => destruct x
         | s : bool |- _ => destruct s
         end;
  simpl; try congruence; try discriminate;
  repeat match goal with
         | |- context [Z.compare ?a ?b] => destruct (Z.compare_spec a b)
         | |- context [Pos.compare_cont Eq ?a ?b] =>
             change (Pos.compare_cont Eq a b) with (Pos.compare a b);
             destruct (Pos.compare_spec a b)
         end;
  simpl; try congruence; try discriminate; try lia.

Lemma ltb_irrefl (a : PyFloat.float) : PyFloat.ltb a a = false.
Proof. float_order. Qed.

Lemma ltb_trans (a b c : PyFloat.float) :
  PyFloat.ltb a b = true -> PyFloat.ltb b c = true -> PyFloat.ltb a c = true.
Proof. float_order. Qed.

(** [a < b] and [b <= c] give [a < c], for a number [c]. *)
Lemma ltb_le_trans (a b c : PyFloat.float) :
  PyFloat.ltb c PyFloat.inf = true ->
  PyFloat.ltb a b = true -> PyFloat.ltb c b = false -> PyFloat.ltb a c = true.
Proof. unfold PyFloat.inf. float_order. Qed.

(** The costs are doubles, and the strategy compares the rounded values:
    [3 * 0.5 + 1 * 0.3] is the double 1.8, while [0 * 0.5 + 6 * 0.3] is the
    double just below it. *)
Example rounded_costs_are_compared :
  (let* d3 := PyFloat.of_int 3 in
   let* d0 := PyFloat.of_int 0 in
   let* n1 := PyFloat.of_int 1 in
   let* n6 := PyFloat.of_int 6 in
   Ok (PyFloat.ltb
         (PyFloat.add (PyFloat.mul d0 PyFloat.f0_5) (PyFloat.mul n6 PyFloat.f0_3))
         (PyFloat.add (PyFloat.mul d3 PyFloat.f0_5) (PyFloat.mul n1 PyFloat.f0_3))))
  = Ok true.
Proof. vm_compute. reflexivity. Qed.

(** *** The LOOK cost *)

Lemma update_direction_idle e :
  _direction e <> IDLE ->
  idle_means_no_stops (_update_direction e).
Proof.
  intros Hd. unfold idle_means_no_stops, _update_direction, truthy.
  destruct (_direction e) eqn:Hdir; try contradiction;
    repeat case_match; simpl; try congruence;
    repeat case_bool_decide; try discriminate; intros _;
    split; assumption.
Qed.

Lemma step_idle set_iter e :
  idle_means_no_stops e -> idle_means_no_stops (step set_iter e).
Proof.
  intros He. unfold step. case_bool_decide as Hd; [exact He|]. cbv zeta.
  apply update_direction_idle.
  destruct (arrive_fields set_iter e) as (_ & _ & A3 & _).
  destruct (_has_pending_stops (arrive set_iter e)); [|congruence].
  set (e3 := notify _ (_move (arrive set_iter e))).
  destruct (arrive_fields set_iter e3) as (_ & _ & B3 & _).
  destruct (move_fields (arrive set_iter e)) as (_ & M & _).
  rewrite B3. simpl. congruence.
Qed.

Lemma reachable_idle set_iter e :
  reachable set_iter e -> idle_means_no_stops e.
Proof.
  intros (i & mn & mx & cap & st & e0 & ops & Hnew & _ & ->).
  apply new_Elevator_Ok in Hnew as (_ & ->).
  apply run_invariant_any with (P := idle_means_no_stops).
  - intros e r He. destruct (can_accept_request e r) eqn:Hacc.
    + destruct (add_request_accepted e r Hacc) as (_ & _ & _ & Hd).
      intros Hidle. contradiction.
    + by rewrite add_request_rejected.
  - intros e He. by apply step_idle.
  - intros _. split; reflexivity.
Qed.

Lemma calculate_score_look_cost s pickup rd :
  (st_direction s = IDLE -> is_idle s = true) ->
  Look._calculate_score s pickup rd = look_cost s pickup rd.
Proof.
  intros Hidle. unfold Look._calculate_score, look_cost, distance_to.
  destruct (PyFloat.of_int (Z.abs (current_floor s - pickup))) as [d|];
    simpl; [|reflexivity].
  destruct (is_idle s) eqn:Hi; [reflexivity|].
  assert (Hd : st_direction s <> IDLE)
    by (intros H; apply Hidle in H; congruence).
  destruct (PyFloat.of_int (total_pending_stops s)) as [n|]; simpl;
    [|reflexivity].
  unfold look_factor, moving_toward.
  destruct (st_direction s); try contradiction;
    destruct rd; repeat case_bool_decide; try discriminate; try congruence;
    reflexivity.
Qed.

Lemma get_state_idle e :
  idle_means_no_stops e ->
  st_direction (get_state e) = IDLE -> is_idle (get_state e) = true.
Proof.
  intros He Hd. simpl in Hd. destruct (He Hd) as (Hu & Hdn).
  unfold is_idle. simpl. rewrite Hd, Hu, Hdn. reflexivity.
Qed.

Section LookLoop.

Variables (pickup : Z) (rd : Direction).
Variable cost : Elevator -> result PyFloat.float.
Hypothesis cost_eq :
  forall e, cost e = Look._calculate_score (get_state e) pickup rd.

(** The loop keeps the first minimum of the cars it has gone through. *)
Lemma look_loop_first_minimum : forall rest processed best best_score,
  (forall e, e ∈ processed ++ rest ->
     exists s, cost e = Ok s /\ PyFloat.ltb s PyFloat.inf = true) ->
  match best with
  | None => processed = [] /\ best_score = PyFloat.inf
  | Some e => exists i, first_minimum cost processed i e best_score
  end ->
  processed ++ rest <> [] ->
  exists i e s,
    Look.loop rest pickup rd best best_score = Ok (Some e)
    /\ first_minimum cost (processed ++ rest) i e s.
Proof.
  induction rest as [|x rest IH];
    intros processed best best_score Hfin Hinv Hne.
  - rewrite app_nil_r in *. simpl. destruct best as [e|].
    + destruct Hinv as (i & Hi). eauto.
    + destruct Hinv as (-> & _). contradiction.
  - simpl. destruct (Hfin x) as (s & Hs & Hsfin);
      [rewrite elem_of_app; right; left|].
    rewrite <- (cost_eq x), Hs. simpl.
    assert (Hfin' : forall e, e ∈ (processed ++ [x]) ++ rest ->
              exists s, cost e = Ok s /\ PyFloat.ltb s PyFloat.inf = true)
      by (intros e He; apply Hfin; by rewrite <- app_assoc in He).
    assert (Hne' : (processed ++ [x]) ++ rest <> [])
      by (destruct processed; discriminate).
    replace (processed ++ x :: rest) with ((processed ++ [x]) ++ rest)
      by (by rewrite <- app_assoc).
    destruct (PyFloat.ltb s best_score) eqn:Hlt.
    + apply IH; [exact Hfin' | | exact Hne'].
      exists (length processed). split; [|split; [exact Hs|split]].
      * rewrite lookup_app_r by lia. by rewrite Nat.sub_diag.
      * intros j e' s' Hl' Hs'.
        destruct (decide (j < length processed)%nat) as [Hj|Hj].
        -- rewrite lookup_app_l in Hl' by exact Hj.
           destruct best as [eb|].
           ++ destruct Hinv as (ib & _ & _ & Hmin & _).
              destruct (PyFloat.ltb s' s) eqn:E; [|reflexivity].
              rewrite <- (Hmin j e' s' Hl' Hs'). symmetry.
              eapply ltb_trans; eauto.
           ++ destruct Hinv as (-> & _). simpl in Hj. lia.
        -- rewrite lookup_app_r in Hl' by lia.
           destruct (j - length processed)%nat as [|k] eqn:Hk;
             simpl in Hl'; [|by rewrite lookup_nil in Hl'].
           injection Hl' as <-. rewrite Hs in Hs'. injection Hs' as <-.
           apply ltb_irrefl.
      * intros j e' s' Hj Hl' Hs'.
        rewrite lookup_app_l in Hl' by exact Hj.
        destruct best as [eb|].
        -- destruct Hinv as (ib & _ & _ & Hmin & _).
           apply ltb_le_trans with (b := best_score); [|exact Hlt|eauto].
           destruct (Hfin e') as (s0 & Hs0 & Hs0fin).
           { rewrite elem_of_app. left. apply list_elem_of_lookup. eauto. }
           congruence.
        -- destruct Hinv as (-> & _). simpl in Hj. lia.
    + apply IH; [exact Hfin' | | exact Hne'].
      destruct best as [eb|].
      * destruct Hinv as (ib & Hl & Hc & Hmin & Hbefore).
        pose proof (lookup_lt_Some _ _ _ Hl) as Hib.
        exists ib. split; [by rewrite lookup_app_l|].
        split; [exact Hc|]. split.
        -- intros j e' s' Hl' Hs'.
           destruct (decide (j < length processed)%nat) as [Hj|Hj].
           ++ rewrite lookup_app_l in Hl' by exact Hj. eauto.
           ++ rewrite lookup_app_r in Hl' by lia.
              destruct (j - length processed)%nat as [|k] eqn:Hk;
                simpl in Hl'; [|by rewrite lookup_nil in Hl'].
              injection Hl' as <-. rewrite Hs in Hs'. by injection Hs' as <-.
        -- intros j e' s' Hj Hl' Hs'.
           rewrite lookup_app_l in Hl' by lia. eauto.
      * destruct Hinv as (_ & ->). congruence.
Qed.

End LookLoop.

(** C5: the score the LOOK strategy computes for a car is the cost of the
    specification (the distance to the pickup floor; for an idle car plus
    0.5 per pending stop; for a moving car times 0.5, 1.5 or 2.0 as it moves
    toward the pickup in the request's direction, toward it in the other
    direction, or away from it, then plus 0.3 per pending stop, then times
    1.5 when the load is at least 0.8 of the capacity), in binary64
    arithmetic as the source computes it.  When the costs of the compatible
    cars are finite numbers, the strategy selects a compatible car of
    minimum cost, the first in fleet order among equals, and it selects no
    car when none is compatible.  With idle cars at floors 0, 5 and 10 and
    a request picked up at floor 6 it selects the car at floor 5. *)
Theorem look_strategy_selects_first_minimum_cost
    (set_iter : list Request -> list Request)
    (request : Request) (elevators : list Elevator) :
  let compatible := _get_compatible_elevators request elevators in
  let cost := fun e => Look._calculate_score (get_state e)
                         (pickup_floor request) (direction request) in
  Forall (reachable set_iter) elevators ->
  (forall e, e ∈ compatible ->
     exists s, cost e = Ok s /\ PyFloat.ltb s PyFloat.inf = true) ->
  (forall e, e ∈ elevators ->
     cost e = look_cost (get_state e) (pickup_floor request)
                (direction request))
  /\ match compatible with
     | [] => Look.select_elevator request elevators = Ok None
     | _ :: _ =>
         exists i e s,
           Look.select_elevator request elevators = Ok (Some e)
           /\ first_minimum cost compatible i e s
     end
  /\ (let car := fun i floor =>
                   mkElevator i 0 10 8 floor IDLE CLOSED 0 ∅ ∅ ∅ [] in
      Look.select_elevator (mkRequest 6 10 1 0 1)
        [car 0 0; car 1 5; car 2 10]
      = Ok (Some (car 1 5))).
Proof.
  intros compatible cost Hreach Hfin. split; [|split].
  - intros e He. apply calculate_score_look_cost. apply get_state_idle.
    apply (reachable_idle set_iter). rewrite Forall_forall in Hreach. auto.
  - unfold Look.select_elevator. fold compatible.
    destruct compatible as [|c cs] eqn:Hcomp; [reflexivity|].
    apply (look_loop_first_minimum (pickup_floor request) (direction request)
             cost (fun e => eq_refl) (c :: cs) [] None PyFloat.inf).
    + exact Hfin.
    + split; reflexivity.
    + discriminate.
  - vm_compute. reflexivity.
Qed.


Lemma look_strategy_selects_first_minimum_cost_witness :
  let car := fun i floor => mkElevator i 0 10 8 floor IDLE CLOSED 0 ∅ ∅ ∅ [] in
  let fleet := [car 0 0; car 1 5; car 2 10] in
  let request := mkRequest 6 10 1 0 1 in
  let cost := fun e => Look._calculate_score (get_state e)
                         (pickup_floor request) (direction request) in
  Forall (reachable (fun l => l)) fleet
  /\ (forall e, e ∈ _get_compatible_elevators request fleet ->
        exists s, cost e = Ok s /\ PyFloat.ltb s PyFloat.inf = true)
  /\ (forall e, e ∈ fleet ->
        cost e = look_cost (get_state e) (pickup_floor request)
                   (direction request))
  /\ match _get_compatible_elevators request fleet with
     | [] => Look.select_elevator request fleet = Ok None
     | _ :: _ =>
         exists i e s,
           Look.select_elevator request fleet = Ok (Some e)
           /\ first_minimum cost (_get_compatible_elevators request fleet)
                i e s
     end.
Proof.
  intros car fleet request cost.
  assert (Hreach : Forall (reachable (fun l => l)) fleet).
  { repeat constructor.
    - exists 0, 0, 10, 8, 0, (car 0 0), [].
      split; [reflexivity|]. split; [constructor | reflexivity].
    - exists 1, 0, 10, 8, 5, (car 1 5), [].
      split; [reflexivity|]. split; [constructor | reflexivity].
    - exists 2, 0, 10, 8, 10, (car 2 10), [].
      split; [reflexivity|]. split; [constructor | reflexivity]. }
  assert (Hfin : forall e, e ∈ _get_compatible_elevators request fleet ->
            exists s, cost e = Ok s /\ PyFloat.ltb s PyFloat.inf = true).
  { intros e He. apply list_elem_of_In in He.
    assert (Hc : _get_compatible_elevators request fleet = fleet)
      by (vm_compute; reflexivity).
    rewrite Hc in He. simpl in He.
    destruct He as [<-|[<-|[<-|[]]]];
      match goal with
      | |- exists s, cost ?e = _ /\ _ =>
          let v := eval vm_compute in (cost e) in
          match v with
          | Ok ?s => exists s; split; vm_compute; reflexivity
          end
      end. }
  split; [exact Hreach|]. split; [exact Hfin|].
  destruct (look_strategy_selects_first_minimum_cost (fun l => l) request
              fleet Hreach Hfin) as (H1 & H2 & _).
  split; [exact H1 | exact H2].
Defined.

(** * The rest of the code *)

(** *** Python's [min] and the distance-based strategies *)

Lemma min_from_first_least key : forall rest processed best ib,
  first_least key processed ib best ->
  exists i, first_least key (processed ++ rest) i (min_from key best rest).
Proof.
  induction rest as [|x rest IH]; intros processed best ib Hb; simpl.
  - rewrite app_nil_r. eauto.
  - replace (processed ++ x :: rest) with ((processed ++ [x]) ++ rest)
      by (by rewrite <- app_assoc).
    destruct Hb as (Hl & Hmin & Hbefore).
    pose proof (lookup_lt_Some _ _ _ Hl) as Hib.
    case_bool_decide as Hlt.
    + apply (IH _ _ (length processed)). split; [|split].
      * rewrite lookup_app_r by lia. by rewrite Nat.sub_diag.
      * intros j y Hy.
        destruct (decide (j < length processed)%nat) as [Hj|Hj].
        -- rewrite lookup_app_l in Hy by exact Hj.
           specialize (Hmin j y Hy). lia.
        -- rewrite lookup_app_r in Hy by lia.
           destruct (j - length processed)%nat; simpl in Hy;
             [|by rewrite lookup_nil in Hy].
           injection Hy as <-. lia.
      * intros j y Hj Hy. rewrite lookup_app_l in Hy by exact Hj.
        specialize (Hmin j y Hy). lia.
    + apply (IH _ _ ib). split; [by rewrite lookup_app_l|]. split.
      * intros j y Hy.
        destruct (decide (j < length processed)%nat) as [Hj|Hj].
        -- rewrite lookup_app_l in Hy by exact Hj. eauto.
        -- rewrite lookup_app_r in Hy by lia.
           destruct (j - length processed)%nat; simpl in Hy;
             [|by rewrite lookup_nil in Hy].
           injection Hy as <-. lia.
      * intros j y Hj Hy. rewrite lookup_app_l in Hy by lia. eauto.
Qed.

Lemma py_min_first_least key l :
  match py_min key l with
  | None => l = []
  | Some m => exists i, first_least key l i m
  end.
Proof.
  destruct l as [|x l]; simpl; [reflexivity|].
  apply (min_from_first_least key l [x] x 0%nat).
  split; [reflexivity|]. split.
  - intros [|j] y Hy; simpl in Hy; [injection Hy as <-; lia|].
    by rewrite lookup_nil in Hy.
  - intros j y Hj. lia.
Qed.

Lemma compatible_idempotent request elevators :
  _get_compatible_elevators request
    (_get_compatible_elevators request elevators)
  = _get_compatible_elevators request elevators.
Proof.
  unfold _get_compatible_elevators.
  induction elevators as [|e l IH]; [reflexivity|].
  rewrite filter_cons. case_decide as Hc; [|exact IH].
  rewrite filter_cons, decide_True by exact Hc. by rewrite IH.
Qed.

(** X1: the nearest-car strategy returns no car exactly when no car is
    compatible; otherwise it returns, among the compatible idle cars if
    there is one and among all compatible cars if not, a car of least
    distance to the pickup floor, the first such car in fleet order. *)
Theorem nearest_selects_first_nearest (request : Request)
    (elevators : list Elevator) :
  let compatible := _get_compatible_elevators request elevators in
  let idle := filter (fun e => is_idle (get_state e) = true) compatible in
  let pool := match idle with [] => compatible | _ :: _ => idle end in
  let distance := fun e => distance_to (get_state e) (pickup_floor request) in
  match Nearest.select_elevator request elevators with
  | None => compatible = []
  | Some e => exists i, first_least distance pool i e
  end.
Proof.
  intros compatible idle pool distance. unfold Nearest.select_elevator.
  fold compatible. destruct compatible as [|c cs] eqn:Hc; [reflexivity|].
  fold idle. subst pool. fold distance.
  destruct idle as [|x xs].
  - pose proof (py_min_first_least distance (c :: cs)) as H.
    destruct (py_min distance (c :: cs)); [exact H | discriminate].
  - pose proof (py_min_first_least distance (x :: xs)) as H.
    destruct (py_min distance (x :: xs)); [exact H | discriminate].
Qed.

(** X2: the zoned strategy returns no car exactly when no car is
    compatible.  When the zone of some compatible car contains the pickup
    floor it returns the first nearest of these cars; when none does, it
    returns what the nearest-car strategy returns for the fleet. *)
Theorem zoned_prefers_zone_then_nearest (self : Zoned.t) (request : Request)
    (elevators : list Elevator) :
  let compatible := _get_compatible_elevators request elevators in
  let in_zone :=
    filter (fun e => Zoned.zone_contains self (pickup_floor request) e = true)
      compatible in
  let distance := fun e => distance_to (get_state e) (pickup_floor request) in
  (Zoned.select_elevator self request elevators = None <-> compatible = [])
  /\ match in_zone with
     | [] =>
         Zoned.select_elevator self request elevators
         = Nearest.select_elevator request elevators
     | _ :: _ =>
         exists i e,
           Zoned.select_elevator self request elevators = Some e
           /\ first_least distance in_zone i e
     end.
Proof.
  intros compatible in_zone distance. unfold Zoned.select_elevator.
  fold compatible. fold in_zone. fold distance.
  assert (Hfall : Nearest.select_elevator request compatible
                  = Nearest.select_elevator request elevators).
  { unfold Nearest.select_elevator. subst compatible.
    by rewrite compatible_idempotent. }
  destruct compatible as [|c cs] eqn:Hc.
  - split; [tauto|]. subst in_zone. rewrite filter_nil.
    unfold Nearest.select_elevator. fold compatible. by rewrite Hc.
  - destruct in_zone as [|x xs] eqn:Hz.
    + split; [|exact Hfall].
      split; [|discriminate]. rewrite Hfall.
      unfold Nearest.select_elevator. fold compatible. rewrite Hc.
      destruct (filter (fun e => is_idle (get_state e) = true) (c :: cs))
        as [|y ys]; simpl; intros [=].
    + pose proof (py_min_first_least distance (x :: xs)) as H.
      destruct (py_min distance (x :: xs)) as [m|]; [|discriminate].
      split; [split; discriminate|]. destruct H as (i & H). eauto.
Qed.

(** *** What every strategy returns *)

Lemma py_min_elem key l m : py_min key l = Some m -> m ∈ l.
Proof.
  intros H. pose proof (py_min_first_least key l) as Hs. rewrite H in Hs.
  destruct Hs as (i & Hi & _). apply list_elem_of_lookup. eauto.
Qed.

Lemma look_loop_elem pickup rd : forall l best best_score e,
  Look.loop l pickup rd best best_score = Ok (Some e) ->
  e ∈ l \/ best = Some e.
Proof.
  induction l as [|x l IH]; intros best best_score e; simpl.
  - intros [= ->]. by right.
  - destruct (Look._calculate_score (get_state x) pickup rd) as [s|];
      simpl; [|discriminate].
    destruct (PyFloat.ltb s best_score); intros H; apply IH in H.
    + destruct H as [H | [= ->]]; left; [by right | by left].
    + destruct H as [H | H]; [left; by right | by right].
Qed.

Lemma fcfs_loop_elem rounds : forall n elevators compatible self e self',
  FCFS.loop rounds n elevators compatible self = (Some e, self') ->
  e ∈ compatible.
Proof.
  induction rounds as [|k IH]; intros n elevators compatible self e self';
    simpl; [discriminate|].
  destruct (elevators !! _) as [x|]; [|discriminate].
  case_bool_decide as Hx; [intros [= <- _]; exact Hx | apply IH].
Qed.

Lemma nearest_select_elem request elevators e :
  Nearest.select_elevator request elevators = Some e ->
  e ∈ _get_compatible_elevators request elevators.
Proof.
  unfold Nearest.select_elevator.
  destruct (_get_compatible_elevators request elevators) as [|c cs];
    [discriminate|].
  destruct (filter (fun e => is_idle (get_state e) = true) (c :: cs))
    as [|y ys] eqn:Hf; intros H; apply py_min_elem in H; [exact H|].
  rewrite <- Hf in H. by apply list_elem_of_filter in H as (_ & H).
Qed.

Lemma strategy_select_elem s request elevators e s' :
  strategy_select s request elevators = Ok (Some e, s') ->
  e ∈ _get_compatible_elevators request elevators.
Proof.
  destruct s as [| |st|z]; simpl.
  - unfold Look.select_elevator.
    destruct (_get_compatible_elevators request elevators) as [|c cs] eqn:Hc;
      [simpl; discriminate|].
    destruct (Look.loop (c :: cs) (pickup_floor request) (direction request)
                None PyFloat.inf) as [[x|]|] eqn:Hl;
      unfold bind; intros H; simplify_eq.
    apply look_loop_elem in Hl as [Hl | Hl]; [exact Hl | discriminate].
  - intros H. simplify_eq. by apply nearest_select_elem.
  - unfold FCFS.select_elevator.
    destruct (_get_compatible_elevators request elevators) as [|c cs] eqn:Hc;
      [discriminate|].
    destruct (FCFS.loop (length elevators) (Z.of_nat (length elevators))
                elevators (c :: cs) st) as [[x|] st'] eqn:Hl;
      intros H; simplify_eq.
    + eapply fcfs_loop_elem; eauto.
    + left.
  - unfold Zoned.select_elevator.
    destruct (_get_compatible_elevators request elevators) as [|c cs] eqn:Hc;
      [discriminate|].
    destruct (filter (fun e => Zoned.zone_contains z (pickup_floor request) e
                               = true) (c :: cs))
      as [|y ys] eqn:Hf; intros H; simplify_eq.
    + match goal with
      | H : Nearest.select_elevator _ _ = Some _ |- _ =>
          apply nearest_select_elem in H; rewrite <- Hc in H;
          by rewrite compatible_idempotent, Hc in H
      end.
    + pose proof (py_min_elem
                    (fun e => distance_to (get_state e) (pickup_floor request))
                    (y :: ys) _ eq_refl) as Hm.
      rewrite <- Hf in Hm. by apply list_elem_of_filter in Hm as (_ & Hm).
Qed.

(** X3: whichever strategy the controller holds, a car it selects is a
    car of the fleet that can accept the request, so that the call of
    [add_request] that follows succeeds. *)
Theorem selected_car_accepts_the_request (s : DispatchStrategy)
    (request : Request) (elevators : list Elevator) (e : Elevator)
    (s' : DispatchStrategy) :
  strategy_select s request elevators = Ok (Some e, s') ->
  e ∈ elevators
  /\ can_accept_request e request = true
  /\ (add_request e request).1 = true.
Proof.
  intros H. apply strategy_select_elem in H.
  unfold _get_compatible_elevators in H.
  apply list_elem_of_filter in H as (Hacc & Hin).
  split; [exact Hin|]. split; [exact Hacc|].
  unfold add_request. by rewrite Hacc.
Qed.

Lemma selected_car_accepts_the_request_witness :
  let car := fun i floor => mkElevator i 0 10 8 floor IDLE CLOSED 0 ∅ ∅ ∅ [] in
  let request := mkRequest 6 10 1 0 1 in
  strategy_select NearestStrategy request [car 0 0; car 1 5; car 2 10]
  = Ok (Some (car 1 5), NearestStrategy)
  /\ car 1 5 ∈ [car 0 0; car 1 5; car 2 10]
  /\ can_accept_request (car 1 5) request = true
  /\ (add_request (car 1 5) request).1 = true.
Proof.
  intros car request.
  assert (H : strategy_select NearestStrategy request
                [car 0 0; car 1 5; car 2 10]
              = Ok (Some (car 1 5), NearestStrategy))
    by (vm_compute; reflexivity).
  split; [exact H|].
  exact (selected_car_accepts_the_request _ _ _ _ _ H).
Defined.

(** *** Round robin over a fleet that accepts every request *)

Lemma fcfs_dispatch_all_in_turn elevators : forall requests k0,
  elevators <> [] ->
  (forall e r, e ∈ elevators -> r ∈ requests ->
     can_accept_request e r = true) ->
  FCFS_dispatch_all
    (FCFS.mk (Z.of_nat (k0 `mod` length elevators))) requests elevators
  = map (fun k => elevators !! (k `mod` length elevators)%nat)
      (seq k0 (length requests)).
Proof.
  induction requests as [|r requests IH]; intros k0 Hne Hacc; [reflexivity|].
  assert (Hn : (0 < length elevators)%nat)
    by (destruct elevators; [contradiction | simpl; lia]).
  assert (Hlt : (k0 `mod` length elevators < length elevators)%nat)
    by (apply Nat.mod_upper_bound; lia).
  destruct (lookup_lt_is_Some_2 elevators _ Hlt) as (e & He).
  simpl.
  rewrite (FCFS_select_first r elevators _ e
             (Z.of_nat (S k0 `mod` length elevators))).
  - rewrite IH; [by rewrite He | exact Hne |].
    intros e' r' He' Hr'. apply Hacc; [exact He' | by right].
  - lia.
  - by rewrite Nat2Z.id.
  - apply Hacc; [apply list_elem_of_lookup; eauto | left].
  - rewrite !Nat2Z.inj_mod, Zplus_mod_idemp_l. f_equal. lia.
Qed.

(** X4: over a non-empty fleet whose cars accept all the requests, a
    fresh round-robin strategy gives the request number [k] to the car at
    position [k mod n], [n] being the size of the fleet. *)
Theorem fcfs_serves_cars_in_turn (elevators : list Elevator)
    (requests : list Request) :
  elevators <> [] ->
  (forall e r, e ∈ elevators -> r ∈ requests ->
     can_accept_request e r = true) ->
  FCFS_dispatch_all FCFS.init requests elevators
  = map (fun k => elevators !! (k `mod` length elevators)%nat)
      (seq 0 (length requests)).
Proof.
  intros Hne Hacc.
  pose proof (fcfs_dispatch_all_in_turn elevators requests 0 Hne Hacc) as H.
  rewrite Nat.Div0.mod_0_l in H. exact H.
Qed.

Lemma fcfs_serves_cars_in_turn_witness :
  let car := fun i => mkElevator i 0 10 100 0 IDLE CLOSED 0 ∅ ∅ ∅ [] in
  let req := fun uuid => mkRequest 0 5 uuid 0 1 in
  [car 0; car 1] <> []
  /\ FCFS_dispatch_all FCFS.init [req 1%N; req 2%N; req 3%N] [car 0; car 1]
     = [Some (car 0); Some (car 1); Some (car 0)].
Proof.
  intros car req.
  assert (Hne : [car 0; car 1] <> []) by discriminate.
  split; [exact Hne|].
  apply (fcfs_serves_cars_in_turn [car 0; car 1]
           [req 1%N; req 2%N; req 3%N] Hne).
  intros e r He Hr. apply list_elem_of_In in He, Hr. simpl in He, Hr.
  destruct He as [<-|[<-|[]]]; destruct Hr as [<-|[<-|[<-|[]]]]; reflexivity.
Defined.

(** *** What [add_request] and [step] do to the stops and the records *)

Lemma set_add_has_id r l : exists r', r' ∈ set_add r l /\ id r' = id r.
Proof.
  destruct (set_add_new r l) as [H | (r' & H & Hid)].
  - exists r. auto.
  - exists r'. split; [by apply set_add_old | exact Hid].
Qed.

(** X5: an accepted request is scheduled: both its floors join the stop
    set of its direction and nothing else changes in the stop sets, the
    request is filed under both floors (an equal request, one with the same
    id, stands for it), an idle car turns toward the pickup floor (toward
    the destination when it stands at the pickup floor) and a moving car
    keeps its direction, floor, load and doors are as before, and the
    observers get one call, [on_request_accepted]. *)
Theorem accepted_request_is_scheduled (e : Elevator) (r : Request) :
  can_accept_request e r = true ->
  let e' := (add_request e r).2 in
  stops_for (direction r) e'
    = {[destination_floor r]} ∪ ({[pickup_floor r]}
        ∪ stops_for (direction r) e)
  /\ stops_for (opposite (direction r)) e'
     = stops_for (opposite (direction r)) e
  /\ (forall f, f = pickup_floor r \/ f = destination_floor r ->
        exists l r', _active_requests e' !! f = Some l /\ r' ∈ l
                     /\ id r' = id r)
  /\ _direction e'
     = (if bool_decide (_direction e = IDLE) then
          if bool_decide (pickup_floor r > _current_floor e) then UP
          else if bool_decide (pickup_floor r < _current_floor e) then DOWN
          else direction r
        else _direction e)
  /\ _direction e' <> IDLE
  /\ _current_floor e' = _current_floor e
  /\ _current_load e' = _current_load e
  /\ _door_state e' = _door_state e
  /\ exists s, notified e' = notified e ++ [on_request_accepted s r]
               /\ st_direction s = _direction e'.
Proof.
  intros Hacc e'.
  destruct (add_request_accepted e r Hacc) as (Ha & Hs & Hs' & Hd).
  destruct (add_request_fields e r) as (_ & Hf & Hdoor & Hl).
  fold e' in Ha, Hs, Hs', Hd, Hf, Hdoor, Hl.
  split; [exact Hs|]. split; [exact Hs'|]. split.
  { intros f Hf'. simpl in Ha. rewrite Ha, track_lookup.
    case_decide as Hd1.
    - destruct (set_add_has_id r (default [] (track (pickup_floor r) r
                  (_active_requests e) !! destination_floor r)))
        as (r' & Hin & Hid). eauto.
    - destruct Hf' as [-> | ->]; [|contradiction].
      rewrite track_lookup, decide_True by reflexivity.
      destruct (set_add_has_id r (default [] (_active_requests e
                  !! pickup_floor r))) as (r' & Hin & Hid). eauto. }
  split.
  { subst e'. unfold add_request. rewrite Hacc. simpl.
    unfold direction.
    repeat case_bool_decide; simpl in *; try congruence; lia. }
  split; [exact Hd|]. split; [exact Hf|]. split; [exact Hl|].
  split; [exact Hdoor|].
  subst e'. unfold add_request. rewrite Hacc. simpl.
  repeat case_bool_decide; simpl; eexists; split; reflexivity.
Qed.

Lemma accepted_request_is_scheduled_witness :
  let e := mkElevator 0 0 10 8 4 IDLE CLOSED 0 ∅ ∅ ∅ [] in
  let r := mkRequest 2 7 1 0 3 in
  can_accept_request e r = true
  /\ _direction (add_request e r).2 = DOWN
  /\ stops_for (direction r) (add_request e r).2
     = {[destination_floor r]} ∪ ({[pickup_floor r]}
         ∪ stops_for (direction r) e).
Proof.
  intros e r.
  assert (H : can_accept_request e r = true) by reflexivity.
  destruct (accepted_request_is_scheduled e r H)
    as (H1 & _ & _ & H4 & _).
  split; [exact H|]. split; [exact H4 | exact H1].
Defined.

Lemma shrinks_refl e : shrinks e e.
Proof. repeat split; try reflexivity. intros f l' Hl. eauto. Qed.

Lemma shrinks_trans e1 e2 e3 : shrinks e1 e2 -> shrinks e2 e3 -> shrinks e1 e3.
Proof.
  intros (U1 & D1 & A1) (U2 & D2 & A2). split; [set_solver|].
  split; [set_solver|]. intros f l3 Hl3.
  destruct (A2 f l3 Hl3) as (l2 & Hl2 & H32).
  destruct (A1 f l2 Hl2) as (l1 & Hl1 & H21). eauto.
Qed.

Lemma shrinks_eq e e' :
  _up_stops e' = _up_stops e -> _down_stops e' = _down_stops e ->
  _active_requests e' = _active_requests e -> shrinks e e'.
Proof.
  intros Hu Hd Ha. unfold shrinks. rewrite Hu, Hd, Ha.
  repeat split; try reflexivity. eauto.
Qed.

Section ShrinkProofs.

Variable set_iter : list Request -> list Request.
Hypothesis set_iter_perm : forall l, set_iter l ≡ₚ l.

Lemma process_current_floor_shrinks e :
  shrinks e (_process_current_floor set_iter e).
Proof.
  unfold _process_current_floor; cbv zeta.
  set (e1 := notify on_door_opened (set_door_state e OPEN)).
  set (e2 := remove_stop (_current_floor e) e1).
  set (e3 := process_active set_iter (_current_floor e) e2).
  apply (shrinks_trans e e2).
  - destruct (remove_stop_fields (_current_floor e) e1)
      as (_ & _ & _ & _ & _ & Ha). fold e2 in Ha.
    split; [|split].
    + subst e2. unfold remove_stop. repeat case_match; simpl; set_solver.
    + subst e2. unfold remove_stop. repeat case_match; simpl; set_solver.
    + intros f l' Hl'. rewrite Ha in Hl'. simpl in Hl'. eauto.
  - apply (shrinks_trans e2 e3); [|by apply shrinks_eq].
    destruct (process_active_fields set_iter (_current_floor e) e2)
      as (_ & _ & _ & _ & Hu & Hd). fold e3 in Hu, Hd.
    split; [by rewrite Hu|]. split; [by rewrite Hd|].
    intros f l' Hl'.
    apply process_active_lookup in Hl' as (l & Hl & Hiff);
      [|exact set_iter_perm].
    exists l. split; [exact Hl|]. intros r Hr. by apply Hiff in Hr as (Hr & _).
Qed.

Lemma step_shrinks e : shrinks e (step set_iter e).
Proof.
  generalize (shrinks_refl e). generalize e at 2 4. intros e0. revert e0.
  apply (step_preserves set_iter (fun e' => shrinks e e')).
  - intros e' He'. apply (shrinks_trans e e' _ He'). unfold arrive.
    destruct (_is_current_floor_a_stop e');
      [apply process_current_floor_shrinks | apply shrinks_refl].
  - intros e' He'. apply (shrinks_trans e e' _ He').
    destruct (move_fields e') as (_ & _ & _ & _ & Hu & Hd & Ha).
    by apply shrinks_eq.
  - intros ev e' He'. exact He'.
  - intros e' He'. apply (shrinks_trans e e' _ He').
    destruct (update_direction_fields e') as (_ & _ & _ & _ & Hu & Hd & Ha).
    by apply shrinks_eq.
Qed.

(** X6: a step never adds work: the stop sets after it are subsets of the
    stop sets before, every request filed afterwards was filed under the
    same floor before, and a car whose direction is [IDLE] is not changed
    at all. *)
Theorem step_never_adds_work (e : Elevator) :
  _up_stops (step set_iter e) ⊆ _up_stops e
  /\ _down_stops (step set_iter e) ⊆ _down_stops e
  /\ (forall f l' r,
        _active_requests (step set_iter e) !! f = Some l' -> r ∈ l' ->
        exists l, _active_requests e !! f = Some l /\ r ∈ l)
  /\ (_direction e = IDLE -> step set_iter e = e).
Proof.
  destruct (step_shrinks e) as (Hu & Hd & Ha).
  split; [exact Hu|]. split; [exact Hd|]. split.
  - intros f l' r Hl' Hr. destruct (Ha f l' Hl') as (l & Hl & Hsub). eauto.
  - intros Hidle. unfold step. by rewrite bool_decide_eq_true_2.
Qed.

End ShrinkProofs.

Lemma step_never_adds_work_witness :
  let e := (add_request (mkElevator 0 0 10 8 0 IDLE CLOSED 0 ∅ ∅ ∅ [])
              (mkRequest 0 2 1 0 1)).2 in
  (forall l : list Request, (fun l => l) l ≡ₚ l)
  /\ _up_stops (step (fun l => l) e) ⊆ _up_stops e.
Proof.
  intros e.
  assert (Hp : forall l : list Request, (fun l => l) l ≡ₚ l)
    by (intros l; reflexivity).
  split; [exact Hp|].
  destruct (step_never_adds_work (fun l => l) Hp e) as (H & _). exact H.
Defined.

(** *** Invariants of reachable cars *)

Lemma can_accept_bounds e r :
  can_accept_request e r = true ->
  _min_floor e <= pickup_floor r <= _max_floor e
  /\ _min_floor e <= destination_floor r <= _max_floor e
  /\ passengers r <= _capacity e.
Proof.
  unfold can_accept_request.
  repeat case_bool_decide; simpl; try discriminate. lia.
Qed.

(** X7: for a car reached from construction by [add_request] and [step]
    calls, the direction is [IDLE] exactly when the snapshot reports the
    car idle; such a car has no stop left, and a step leaves it as it
    is. *)
Theorem idle_direction_means_no_work
    (set_iter : list Request -> list Request) (e : Elevator) :
  reachable set_iter e ->
  (_direction e = IDLE <-> is_idle (get_state e) = true)
  /\ (_direction e = IDLE ->
      _up_stops e = ∅ /\ _down_stops e = ∅ /\ step set_iter e = e).
Proof.
  intros Hr. pose proof (reachable_idle set_iter e Hr) as Hidle. split.
  - split; [by apply get_state_idle|].
    unfold is_idle. simpl. intros H.
    apply andb_prop in H as (H & _). apply andb_prop in H as (H & _).
    by apply bool_decide_eq_true in H.
  - intros Hd. destruct (Hidle Hd) as (Hu & Hdn).
    split; [exact Hu|]. split; [exact Hdn|].
    unfold step. by rewrite bool_decide_eq_true_2.
Qed.

Lemma idle_direction_means_no_work_witness :
  let e := mkElevator 0 0 10 8 0 IDLE CLOSED 0 ∅ ∅ ∅ [] in
  reachable (fun l => l) e
  /\ (_direction e = IDLE <-> is_idle (get_state e) = true).
Proof.
  intros e.
  assert (H : reachable (fun l => l) e).
  { exists 0, 0, 10, 8, 0, e, [].
    split; [reflexivity|]. split; [constructor | reflexivity]. }
  split; [exact H|].
  destruct (idle_direction_means_no_work (fun l => l) e H) as (H1 & _).
  exact H1.
Defined.

Section RangeProofs.

Variable set_iter : list Request -> list Request.
Hypothesis set_iter_perm : forall l, set_iter l ≡ₚ l.

Lemma add_request_stops_in_range e r :
  stops_in_range e -> stops_in_range (add_request e r).2.
Proof.
  intros (Hs & Hk).
  destruct (can_accept_request e r) eqn:Hacc;
    [|by rewrite add_request_rejected].
  destruct (add_request_accepted e r Hacc) as (Ha & Hst & Hst' & _).
  destruct (add_request_fields e r) as (Hc & _).
  apply config_eq in Hc as (Hmn & Hmx & _).
  destruct (can_accept_bounds e r Hacc) as (Hp & Hd & _).
  simpl in Ha. unfold stops_in_range. rewrite Hmn, Hmx. split.
  - intros f Hf.
    assert (Hcase : f ∈ stops_for (direction r) (add_request e r).2
                    \/ f ∈ stops_for (opposite (direction r))
                           (add_request e r).2).
    { unfold direction in *. case_bool_decide; simpl in *; set_solver. }
    destruct Hcase as [Hf' | Hf'].
    + rewrite Hst in Hf'.
      apply elem_of_union in Hf' as [Hf' | Hf'];
        [apply elem_of_singleton in Hf'; lia|].
      apply elem_of_union in Hf' as [Hf' | Hf'];
        [apply elem_of_singleton in Hf'; lia|].
      apply Hs. unfold direction in *. case_bool_decide; simpl in *; set_solver.
    + rewrite Hst' in Hf'. apply Hs.
      unfold direction in *. case_bool_decide; simpl in *; set_solver.
  - intros f l. rewrite Ha, !track_lookup.
    repeat case_decide; subst; try lia. apply Hk.
Qed.

Lemma step_stops_in_range e :
  stops_in_range e -> stops_in_range (step set_iter e).
Proof.
  intros (Hs & Hk). destruct (step_shrinks set_iter set_iter_perm e)
    as (Hu & Hd & Ha).
  destruct (step_fields set_iter e) as (Hc & _).
  apply config_eq in Hc as (Hmn & Hmx & _).
  unfold stops_in_range. rewrite Hmn, Hmx. split.
  - intros f Hf. apply Hs. set_solver.
  - intros f l' Hl'. destruct (Ha f l' Hl') as (l & Hl & _). eauto.
Qed.

(** X8: in a car reached from construction by [add_request] and [step]
    calls, every stop and every key of the floor dictionary is a floor
    between [min_floor] and [max_floor]. *)
Theorem stops_stay_within_the_floors (e : Elevator) :
  reachable set_iter e ->
  (forall f, f ∈ _up_stops e \/ f ∈ _down_stops e ->
     _min_floor e <= f <= _max_floor e)
  /\ (forall f l, _active_requests e !! f = Some l ->
        _min_floor e <= f <= _max_floor e).
Proof.
  intros (i & mn & mx & cap & st & e0 & ops & Hnew & _ & ->).
  apply new_Elevator_Ok in Hnew as (_ & ->).
  assert (H : stops_in_range
                (run set_iter (mkElevator i mn mx cap st IDLE CLOSED 0 ∅ ∅ ∅ [])
                   ops)).
  { apply run_invariant_any with (P := stops_in_range).
    - intros e r. apply add_request_stops_in_range.
    - apply step_stops_in_range.
    - split; simpl; [set_solver|]. intros f l Hl.
      by rewrite lookup_empty in Hl. }
  destruct H as (Hs & Hk). split; [|exact Hk].
  intros f Hf. apply Hs. set_solver.
Qed.

Lemma process_requests_completed_notified floor rs : forall e completed r,
  r ∈ rs -> destination_floor r = floor ->
  exists s,
    on_request_completed s r ∈ notified (process_requests floor rs e completed).1.
Proof.
  induction rs as [|x rs IH]; intros e completed r Hr Hd;
    [by apply not_elem_of_nil in Hr|].
  apply elem_of_cons in Hr as [-> | Hr]; [|simpl; repeat case_bool_decide; eauto].
  simpl. rewrite bool_decide_eq_true_2 by exact Hd.
  match goal with
  | |- context [process_requests floor rs ?e1 ?c1] =>
      destruct (process_requests_notified floor rs e1 c1) as (mid & -> & _)
  end.
  eexists. simpl. rewrite elem_of_app, elem_of_app, list_elem_of_singleton.
  left. right. reflexivity.
Qed.

(** X9: arrival processing completes every request destined for the
    floor: the observers are told so, and afterwards no request with this
    destination is filed under the floor, and a completed request is filed
    under its pickup floor no more. *)
Theorem arrival_completes_the_deliveries (e : Elevator) (l : list Request) :
  _active_requests e !! _current_floor e = Some l ->
  let e' := _process_current_floor set_iter e in
  (forall r, r ∈ l -> destination_floor r = _current_floor e ->
     (exists s, on_request_completed s r ∈ notified e')
     /\ forall l', _active_requests e' !! pickup_floor r = Some l' -> r ∉ l')
  /\ (forall l' r, _active_requests e' !! _current_floor e = Some l' ->
        r ∈ l' -> destination_floor r <> _current_floor e).
Proof.
  intros Hl e'. set (floor := _current_floor e) in *.
  set (e2 := remove_stop floor (notify on_door_opened (set_door_state e OPEN))).
  assert (Ha2 : _active_requests e2 = _active_requests e).
  { destruct (remove_stop_fields floor
                (notify on_door_opened (set_door_state e OPEN)))
      as (_ & _ & _ & _ & _ & Ha). exact Ha. }
  assert (He' : _active_requests e'
                = _active_requests (process_active set_iter floor e2))
    by reflexivity.
  split.
  - intros r Hr Hd. split.
    + assert (Hn : exists s, on_request_completed s r
                     ∈ notified (process_active set_iter floor e2)).
      { unfold process_active. rewrite Ha2, Hl.
        destruct (process_requests_completed_notified floor (set_iter l)
                    e2 [] r) as (s & Hs);
          [by rewrite (set_iter_perm l) | exact Hd |].
        destruct (process_requests floor (set_iter l) e2 []); simpl in *.
        eauto. }
      destruct Hn as (s & Hs). exists s. subst e'.
      unfold _process_current_floor; cbv zeta. fold floor. fold e2. simpl.
      rewrite elem_of_app. by left.
    + intros l' Hl' Hin. rewrite He' in Hl'.
      apply process_active_lookup in Hl' as (l0 & Hl0 & Hiff);
        [|exact set_iter_perm].
      apply Hiff in Hin as (_ & Hcond). rewrite Ha2 in Hcond.
      by apply (Hcond l r Hl Hr Hd); [right|].
  - intros l' r Hl' Hin Hd. rewrite He' in Hl'.
    apply process_active_lookup in Hl' as (l0 & Hl0 & Hiff);
      [|exact set_iter_perm].
    apply Hiff in Hin as (Hin & Hcond). rewrite Ha2 in Hl0, Hcond.
    rewrite Hl in Hl0. injection Hl0 as <-.
    by apply (Hcond l r Hl Hin Hd); [left|].
Qed.

End RangeProofs.

Lemma stops_stay_within_the_floors_witness :
  let e := run (fun l => l) (mkElevator 0 0 10 8 0 IDLE CLOSED 0 ∅ ∅ ∅ [])
             [op_add_request (mkRequest 3 7 1 0 1); op_step] in
  (forall l : list Request, (fun l => l) l ≡ₚ l)
  /\ reachable (fun l => l) e
  /\ (forall f, f ∈ _up_stops e \/ f ∈ _down_stops e ->
        _min_floor e <= f <= _max_floor e).
Proof.
  intros e.
  assert (Hp : forall l : list Request, (fun l => l) l ≡ₚ l)
    by (intros l; reflexivity).
  assert (H : reachable (fun l => l) e).
  { exists 0, 0, 10, 8, 0, (mkElevator 0 0 10 8 0 IDLE CLOSED 0 ∅ ∅ ∅ []),
      [op_add_request (mkRequest 3 7 1 0 1); op_step].
    split; [reflexivity|]. split; [repeat constructor | reflexivity]. }
  split; [exact Hp|]. split; [exact H|].
  destruct (stops_stay_within_the_floors (fun l => l) Hp e H) as (H1 & _).
  exact H1.
Defined.

Lemma arrival_completes_the_deliveries_witness :
  let r := mkRequest 0 2 1 0 1 in
  let e := steps (fun l => l) 2
             (add_request (mkElevator 0 0 10 8 0 IDLE CLOSED 0 ∅ ∅ ∅ []) r).2 in
  let e1 := set_up_stops e {[2]} in
  (forall l : list Request, (fun l => l) l ≡ₚ l)
  /\ _active_requests (set_active_requests e1 {[2 := [r]]}) !! 2 = Some [r]
  /\ forall l' r', _active_requests
                     (_process_current_floor (fun l => l)
                        (set_active_requests e1 {[2 := [r]]})) !! 2 = Some l' ->
       r' ∈ l' -> destination_floor r' <> 2.
Proof.
  intros r e e1.
  assert (Hp : forall l : list Request, (fun l => l) l ≡ₚ l)
    by (intros l; reflexivity).
  assert (Hl : _active_requests (set_active_requests e1 {[2 := [r]]})
               !! _current_floor (set_active_requests e1 {[2 := [r]]})
               = Some [r]) by (vm_compute; reflexivity).
  split; [exact Hp|]. split; [vm_compute; reflexivity|].
  destruct (arrival_completes_the_deliveries (fun l => l) Hp _ _ Hl)
    as (_ & H2).
  exact H2.
Defined.

(** *** The controller *)

Lemma reachable_add_request set_iter e r :
  reachable set_iter e -> constructed r ->
  reachable set_iter (add_request e r).2.
Proof.
  intros (i & mn & mx & cap & st & e0 & ops & Hnew & Hops & ->) Hr.
  exists i, mn, mx, cap, st, e0, (ops ++ [op_add_request r]).
  split; [exact Hnew|]. split.
  - apply Forall_app. split; [exact Hops|]. by constructor.
  - unfold run. by rewrite fold_left_app.
Qed.

Lemma reachable_step set_iter e :
  reachable set_iter e -> reachable set_iter (step set_iter e).
Proof.
  intros (i & mn & mx & cap & st & e0 & ops & Hnew & Hops & ->).
  exists i, mn, mx, cap, st, e0, (ops ++ [op_step]).
  split; [exact Hnew|]. split.
  - apply Forall_app. split; [exact Hops|]. by constructor.
  - unfold run. by rewrite fold_left_app.
Qed.

Lemma replace_first_Forall (P : Elevator -> Prop) old new l :
  Forall P l -> P new -> Forall P (replace_first old new l).
Proof.
  intros Hl Hn. induction Hl as [|x l Hx Hl IH]; simpl; [constructor|].
  case_bool_decide; constructor; auto.
Qed.

Lemma replace_first_map {B} (f : Elevator -> B) old new l :
  f new = f old -> map f (replace_first old new l) = map f l.
Proof.
  intros Hf. induction l as [|x l IH]; simpl; [reflexivity|].
  case_bool_decide; simpl; congruence.
Qed.

Lemma replace_first_insert old new l :
  old ∈ l ->
  exists i : nat, l !! i = Some old /\ replace_first old new l = <[i := new]> l.
Proof.
  induction l as [|x l IH]; intros Hin; [by apply not_elem_of_nil in Hin|].
  simpl. case_bool_decide as Hx.
  - subst x. by exists 0%nat.
  - apply elem_of_cons in Hin as [-> | Hin]; [done|].
    destruct (IH Hin) as (i & Hi & ->). by exists (S i).
Qed.

Lemma replace_first_same old l : replace_first old old l = l.
Proof.
  induction l as [|x l IH]; simpl; [reflexivity|].
  case_bool_decide; congruence.
Qed.

Lemma can_accept_config e e' r :
  config e' = config e -> can_accept_request e' r = can_accept_request e r.
Proof.
  intros H. apply config_eq in H as (Hmn & Hmx & Hcap).
  unfold can_accept_request. by rewrite Hmn, Hmx, Hcap.
Qed.

Lemma strategy_select_no_car s r cars :
  (forall e, e ∈ cars -> can_accept_request e r = false) ->
  strategy_select s r cars = Ok (None, s).
Proof.
  intros H.
  assert (Hc : _get_compatible_elevators r cars = []).
  { destruct (_get_compatible_elevators r cars) as [|x l] eqn:E;
      [reflexivity|].
    assert (Hx : x ∈ _get_compatible_elevators r cars)
      by (rewrite E; left).
    unfold _get_compatible_elevators in Hx.
    apply list_elem_of_filter in Hx as (Hx & Hin).
    rewrite (H x Hin) in Hx. done. }
  destruct s as [| |st|z]; simpl.
  - unfold Look.select_elevator. by rewrite Hc.
  - unfold Nearest.select_elevator. by rewrite Hc.
  - unfold FCFS.select_elevator. by rewrite Hc.
  - unfold Zoned.select_elevator. by rewrite Hc.
Qed.

Lemma py_min_cons key x l : exists m, py_min key (x :: l) = Some m.
Proof. simpl. eauto. Qed.

Lemma nearest_select_some r cars x l :
  _get_compatible_elevators r cars = x :: l ->
  exists e, Nearest.select_elevator r cars = Some e.
Proof.
  intros Hc. unfold Nearest.select_elevator. rewrite Hc.
  destruct (filter (fun e => is_idle (get_state e) = true) (x :: l));
    apply py_min_cons.
Qed.

Lemma strategy_select_finds s r cars e :
  s <> LookStrategy ->
  e ∈ cars -> can_accept_request e r = true ->
  exists e' s', strategy_select s r cars = Ok (Some e', s').
Proof.
  intros Hs Hin Hacc.
  assert (Hc : exists x l, _get_compatible_elevators r cars = x :: l).
  { apply (in_compatible r cars e Hin) in Hacc.
    destruct (_get_compatible_elevators r cars) as [|x l];
      [by apply not_elem_of_nil in Hacc | eauto]. }
  destruct Hc as (x & l & Hc).
  destruct s as [| |st|z]; simpl; [done| | |].
  - destruct (nearest_select_some r cars x l Hc) as (e' & ->). eauto.
  - unfold FCFS.select_elevator. rewrite Hc.
    destruct (FCFS.loop _ _ _ _ _) as [[y|] st']; eauto.
  - unfold Zoned.select_elevator. rewrite Hc.
    destruct (filter _ (x :: l)) as [|y ys] eqn:Hf.
    + assert (Hcc : _get_compatible_elevators r (x :: l) = x :: l)
        by (rewrite <- Hc; apply compatible_idempotent).
      destruct (nearest_select_some r (x :: l) x l Hcc) as (e' & ->). eauto.
    + destruct (py_min_cons
                  (fun e => distance_to (get_state e) (pickup_floor r)) y ys)
        as (m & ->). eauto.
Qed.

Lemma dispatch_request_spec (c : Controller.t) (r : Request)
    (b : bool) (c' : Controller.t) :
  Controller._dispatch_request c r = Ok (b, c') ->
  (if b then
     exists (i : nat) e,
       Controller._elevators c !! i = Some e
       /\ can_accept_request e r = true
       /\ Controller._elevators c'
          = <[i := (add_request e r).2]> (Controller._elevators c)
       /\ Controller._pending_requests c' = Controller._pending_requests c
   else
     Controller._elevators c' = Controller._elevators c
     /\ Controller._pending_requests c'
        = Controller._pending_requests c ++ [r])
  /\ (unservable c r -> b = false)
  /\ (Controller._dispatch_strategy c <> LookStrategy ->
      b = false -> unservable c r).
Proof.
  unfold Controller._dispatch_request.
  destruct (strategy_select (Controller._dispatch_strategy c) r
              (Controller._elevators c)) as [[[e|] s']|] eqn:Hsel;
    simpl; [| |discriminate].
  - pose proof (strategy_select_elem _ _ _ _ _ Hsel) as Hc.
    assert (Hin : e ∈ Controller._elevators c).
    { unfold _get_compatible_elevators in Hc.
      by apply list_elem_of_filter in Hc as (_ & Hc). }
    pose proof Hc as Hacc. apply (in_compatible r _ e Hin) in Hacc.
    unfold call_add_request.
    assert (Hb : (add_request e r).1 = true).
    { unfold add_request. by rewrite Hacc. }
    destruct (add_request e r) as [acc e1] eqn:Hadd. simpl in Hb. subst acc.
    intros H. simplify_eq. split; [|split].
    + destruct (replace_first_insert e e1 _ Hin) as (i & Hi & Hrep).
      exists i, e. rewrite Hadd. simpl. done.
    + intros Hu. rewrite (Hu e Hin) in Hacc. done.
    + done.
  - intros H. simplify_eq. simpl. split; [done|]. split; [done|].
    intros Hs _ e Hin.
    destruct (can_accept_request e r) eqn:Hacc; [|reflexivity].
    destruct (strategy_select_finds _ r _ e Hs Hin Hacc) as (e' & s1 & Hsel').
    congruence.
Qed.

(** X10: a dispatch that returns hands the request to one car of the
    fleet, a car that can accept it, and leaves the queue as it is, or
    leaves every car as it is and puts the request at the end of the
    queue.  The request is queued when no car of the fleet can accept it,
    and with a strategy other than LOOK only then. *)
Theorem dispatch_assigns_or_queues (c : Controller.t) (r : Request)
    (b : bool) (c' : Controller.t) :
  Controller._dispatch_request c r = Ok (b, c') ->
  (if b then
     exists (i : nat) e,
       Controller._elevators c !! i = Some e
       /\ can_accept_request e r = true
       /\ Controller._elevators c'
          = <[i := (add_request e r).2]> (Controller._elevators c)
       /\ Controller._pending_requests c' = Controller._pending_requests c
   else
     Controller._elevators c' = Controller._elevators c
     /\ Controller._pending_requests c'
        = Controller._pending_requests c ++ [r])
  /\ (unservable c r -> b = false)
  /\ (Controller._dispatch_strategy c <> LookStrategy ->
      b = false -> unservable c r).
Proof. exact (dispatch_request_spec c r b c'). Qed.

Lemma dispatch_assigns_or_queues_witness :
  let e0 := mkElevator 0 0 10 8 0 IDLE CLOSED 0 ∅ ∅ ∅ [] in
  let e1 := mkElevator 1 0 10 8 5 IDLE CLOSED 0 ∅ ∅ ∅ [] in
  let r := mkRequest 4 7 1 0 2 in
  let c := Controller.mk [e0; e1] NearestStrategy [] in
  exists c',
    Controller._dispatch_request c r = Ok (true, c')
    /\ exists (i : nat) e,
         Controller._elevators c !! i = Some e
         /\ can_accept_request e r = true
         /\ Controller._elevators c'
            = <[i := (add_request e r).2]> (Controller._elevators c)
         /\ Controller._pending_requests c' = Controller._pending_requests c.
Proof.
  intros e0 e1 r c.
  assert (H : Controller._dispatch_request c r
              = Ok (true, Controller.mk [e0; (add_request e1 r).2]
                            NearestStrategy [])).
  { unfold Controller._dispatch_request, c. simpl.
    unfold Nearest.select_elevator, _get_compatible_elevators.
    vm_compute. reflexivity. }
  eexists. split; [exact H|].
  destruct (dispatch_assigns_or_queues c r true _ H) as (H1 & _).
  exact H1.
Defined.

Section ControllerRuns.

Variable set_iter : list Request -> list Request.
Hypothesis set_iter_perm : forall l, set_iter l ≡ₚ l.

Lemma call_add_request_spec e r cars :
  Forall (reachable set_iter) cars -> constructed r -> e ∈ cars ->
  map config (call_add_request e r cars).2 = map config cars
  /\ Forall (reachable set_iter) (call_add_request e r cars).2.
Proof.
  intros Hcars Hr Hin. unfold call_add_request.
  destruct (add_request e r) as [acc e1] eqn:Hadd. simpl.
  assert (He1 : e1 = (add_request e r).2) by (by rewrite Hadd).
  split.
  - apply replace_first_map. subst e1.
    by destruct (add_request_fields e r) as (Hc & _).
  - apply replace_first_Forall; [exact Hcars|]. subst e1.
    apply reachable_add_request; [|exact Hr].
    rewrite Forall_forall in Hcars. by apply Hcars.
Qed.

Lemma strategy_select_in s r cars e s' :
  strategy_select s r cars = Ok (Some e, s') -> e ∈ cars.
Proof.
  intros H. apply strategy_select_elem in H.
  unfold _get_compatible_elevators in H.
  by apply list_elem_of_filter in H as (_ & H).
Qed.

Lemma dispatch_request_keeps c r b c' :
  Forall (reachable set_iter) (Controller._elevators c) ->
  Forall constructed (Controller._pending_requests c) ->
  constructed r ->
  Controller._dispatch_request c r = Ok (b, c') ->
  map config (Controller._elevators c') = map config (Controller._elevators c)
  /\ Forall (reachable set_iter) (Controller._elevators c')
  /\ Forall constructed (Controller._pending_requests c').
Proof.
  intros Hcars Hpend Hr. unfold Controller._dispatch_request.
  destruct (strategy_select (Controller._dispatch_strategy c) r
              (Controller._elevators c)) as [[[e|] s']|] eqn:Hsel;
    simpl; [| |discriminate].
  - apply strategy_select_in in Hsel.
    destruct (call_add_request_spec e r _ Hcars Hr Hsel) as (Hc & Hreach).
    destruct (call_add_request e r (Controller._elevators c)) as [acc cars'].
    simpl in *. destruct acc; intros H; simplify_eq; simpl;
      (split; [exact Hc|]; split; [exact Hreach|]); [exact Hpend|].
    apply Forall_app. split; [exact Hpend|]. by constructor.
  - intros H. simplify_eq. simpl. split; [done|]. split; [done|].
    apply Forall_app. split; [exact Hpend|]. by constructor.
Qed.

Lemma drain_spec queue : forall retry cars s,
  Forall constructed queue ->
  Forall (reachable set_iter) cars ->
  exists q kept cars' s',
    Controller.drain queue retry cars s = (q, retry ++ kept, cars', s')
    /\ map config cars' = map config cars
    /\ Forall (reachable set_iter) cars'
    /\ kept ++ q `sublist_of` queue.
Proof.
  induction queue as [|r queue IH]; intros retry cars s Hq Hcars.
  - exists [], [], cars, s. simpl. by rewrite app_nil_r.
  - apply Forall_cons in Hq as (Hr & Hq). simpl.
    destruct (strategy_select s r cars) as [[[e|] s1]|] eqn:Hsel.
    + apply strategy_select_in in Hsel.
      destruct (call_add_request_spec e r _ Hcars Hr Hsel) as (Hc & Hreach).
      destruct (call_add_request e r cars) as [acc cars1]. simpl in *.
      destruct acc.
      * destruct (IH retry cars1 s1 Hq Hreach)
          as (q & kept & cars' & s' & -> & Hc' & Hreach' & Hsub).
        exists q, kept, cars', s'. split; [reflexivity|].
        split; [congruence|]. split; [exact Hreach'|].
        by apply sublist_cons.
      * destruct (IH (retry ++ [r]) cars1 s1 Hq Hreach)
          as (q & kept & cars' & s' & -> & Hc' & Hreach' & Hsub).
        exists q, (r :: kept), cars', s'. rewrite <- app_assoc. simpl.
        split; [reflexivity|]. split; [congruence|]. split; [exact Hreach'|].
        by apply sublist_skip.
    + destruct (IH (retry ++ [r]) cars s1 Hq Hcars)
        as (q & kept & cars' & s' & -> & Hc' & Hreach' & Hsub).
      exists q, (r :: kept), cars', s'. rewrite <- app_assoc. simpl.
      split; [reflexivity|]. split; [congruence|]. split; [exact Hreach'|].
      by apply sublist_skip.
    + exists queue, [], cars, s. rewrite app_nil_r. simpl.
      split; [reflexivity|]. split; [reflexivity|]. split; [exact Hcars|].
      by apply sublist_cons.
Qed.

Lemma process_pending_keeps c :
  Forall (reachable set_iter) (Controller._elevators c) ->
  Forall constructed (Controller._pending_requests c) ->
  let c' := Controller._process_pending_requests c in
  map config (Controller._elevators c') = map config (Controller._elevators c)
  /\ Forall (reachable set_iter) (Controller._elevators c')
  /\ (exists q kept,
        Controller._pending_requests c' = q ++ kept
        /\ kept ++ q `sublist_of` Controller._pending_requests c).
Proof.
  intros Hcars Hpend. unfold Controller._process_pending_requests.
  destruct (drain_spec (Controller._pending_requests c) []
              (Controller._elevators c) (Controller._dispatch_strategy c)
              Hpend Hcars)
    as (q & kept & cars' & s' & -> & Hc & Hreach & Hsub).
  simpl. split; [exact Hc|]. split; [exact Hreach|].
  exists q, kept. done.
Qed.

End ControllerRuns.

Lemma same_config_unservable r : forall cars cars',
  map config cars' = map config cars ->
  (forall e, e ∈ cars -> can_accept_request e r = false) ->
  forall e', e' ∈ cars' -> can_accept_request e' r = false.
Proof.
  induction cars as [|x cars IH]; intros [|x' cars'] Hmap Hall e' Hin;
    simpl in Hmap; try discriminate.
  - by apply not_elem_of_nil in Hin.
  - assert (Hx : config x' = config x) by congruence.
    assert (Hmap' : map config cars' = map config cars) by congruence.
    clear Hmap. rename Hmap' into Hmap.
    apply elem_of_cons in Hin as [-> | Hin].
    + rewrite (can_accept_config x x' r Hx). apply Hall. left.
    + apply (IH cars' Hmap); [|exact Hin].
      intros e He. apply Hall. by right.
Qed.

Lemma strategy_select_kind s r cars x s' :
  strategy_select s r cars = Ok (x, s') ->
  s <> LookStrategy -> s' <> LookStrategy.
Proof.
  destruct s as [| |st|z]; simpl; [done| | |].
  - intros H. by simplify_eq.
  - destruct (FCFS.select_elevator st r cars). intros H. by simplify_eq.
  - intros H. by simplify_eq.
Qed.

Lemma drain_unservable queue : forall retry cars s,
  (forall r e, r ∈ queue -> e ∈ cars -> can_accept_request e r = false) ->
  Controller.drain queue retry cars s = ([], retry ++ queue, cars, s).
Proof.
  induction queue as [|r queue IH]; intros retry cars s H; simpl;
    [by rewrite app_nil_r|].
  rewrite strategy_select_no_car by (intros e He; apply H; [left | exact He]).
  rewrite IH by (intros r' e Hr' He; apply H; [by right | exact He]).
  by rewrite <- app_assoc.
Qed.

Lemma process_pending_unservable c :
  pending_unservable c -> Controller._process_pending_requests c = c.
Proof.
  intros H. unfold Controller._process_pending_requests.
  rewrite drain_unservable by exact H. by destruct c.
Qed.

Section ControllerTheorems.

Variable set_iter : list Request -> list Request.
Hypothesis set_iter_perm : forall l, set_iter l ≡ₚ l.

Lemma reachable_safe e :
  reachable set_iter e ->
  floor_in_range e /\ _door_state e = CLOSED
  /\ load_in_range e /\ all_constructed e.
Proof.
  intros (i & mn & mx & cap & st & e0 & ops & Hnew & Hops & ->).
  apply new_Elevator_Ok in Hnew as ((Hst & Hcap) & ->).
  apply run_invariant
    with (P := fun e => floor_in_range e /\ _door_state e = CLOSED
                        /\ load_in_range e /\ all_constructed e);
    [| |exact Hops|].
  - intros e r Hr (Hf & Hd & Hl).
    destruct (add_request_fields e r) as (Hc & Hfl & Hdo & _).
    apply config_eq in Hc as (Hmn & Hmx & _).
    split; [unfold floor_in_range; rewrite Hmn, Hmx, Hfl; exact Hf|].
    split; [by rewrite Hdo|]. by apply add_request_load.
  - intros e (Hf & Hd & Hl).
    split; [by apply step_floor|].
    split; [by apply step_fields|]. by apply step_load.
  - unfold floor_in_range, load_in_range, all_constructed. simpl.
    split; [lia|]. split; [reflexivity|]. split; [lia|].
    intros f l r Hl. by rewrite lookup_empty in Hl.
Qed.

Lemma map_step_spec cars :
  Forall (reachable set_iter) cars ->
  map config (map (step set_iter) cars) = map config cars
  /\ Forall (reachable set_iter) (map (step set_iter) cars).
Proof.
  induction 1 as [|x cars Hx Hcars (IH1 & IH2)]; simpl; [by split|].
  destruct (step_fields set_iter x) as (Hc & _). split; [congruence|].
  constructor; [by apply reachable_step | exact IH2].
Qed.

Lemma controller_op_keeps c o :
  Forall (reachable set_iter) (Controller._elevators c) ->
  Forall constructed (Controller._pending_requests c) ->
  let c' := controller_op set_iter c o in
  map config (Controller._elevators c') = map config (Controller._elevators c)
  /\ Forall (reachable set_iter) (Controller._elevators c')
  /\ Forall constructed (Controller._pending_requests c').
Proof.
  intros Hcars Hpend. destruct o as [from to n uuid now| |s]; simpl.
  - unfold Controller.request_elevator.
    destruct (new_Request from to uuid now n) as [r|] eqn:Hr; simpl; [|done].
    assert (Hc : constructed r).
    { unfold constructed. pose proof Hr as Hr'.
      apply new_Request_Ok in Hr' as ->. exact Hr. }
    destruct (Controller._dispatch_request c r) as [[b c1]|] eqn:Hd;
      simpl; [|done].
    exact (dispatch_request_keeps set_iter c r b c1 Hcars Hpend Hc Hd).
  - unfold Controller.step.
    destruct (process_pending_keeps set_iter c Hcars Hpend)
      as (Hc & Hreach & q & kept & Hq & Hsub).
    destruct (map_step_spec _ Hreach) as (Hc' & Hreach'). simpl.
    split; [congruence|]. split; [exact Hreach'|].
    assert (Hk : Forall constructed (kept ++ q)).
    { apply Forall_forall. intros r Hr.
      rewrite Forall_forall in Hpend. apply Hpend.
      by eapply elem_of_sublist. }
    apply Forall_app in Hk as (Hk1 & Hk2).
    rewrite Hq. apply Forall_app. done.
  - done.
Qed.

Lemma controller_run_keeps (c : Controller.t)
    (ops : list ControllerOp) :
  Forall (reachable set_iter) (Controller._elevators c) ->
  Forall constructed (Controller._pending_requests c) ->
  let c' := controller_run set_iter c ops in
  map config (Controller._elevators c') = map config (Controller._elevators c)
  /\ Forall (reachable set_iter) (Controller._elevators c')
  /\ Forall constructed (Controller._pending_requests c')
  /\ Forall (fun e => _min_floor e <= _current_floor e <= _max_floor e
                      /\ 0 <= _current_load e <= _capacity e
                      /\ _door_state e = CLOSED)
       (Controller._elevators c').
Proof.
  assert (H : forall ops c,
    Forall (reachable set_iter) (Controller._elevators c) ->
    Forall constructed (Controller._pending_requests c) ->
    map config (Controller._elevators (controller_run set_iter c ops))
      = map config (Controller._elevators c)
    /\ Forall (reachable set_iter)
         (Controller._elevators (controller_run set_iter c ops))
    /\ Forall constructed
         (Controller._pending_requests (controller_run set_iter c ops))).
  { clear c ops. induction ops as [|o ops IH]; intros c Hcars Hpend; [done|].
    destruct (controller_op_keeps c o Hcars Hpend) as (Hc & Hreach & Hp).
    destruct (IH _ Hreach Hp) as (Hc' & Hreach' & Hp').
    unfold controller_run in *. simpl. split; [congruence|]. done. }
  intros Hcars Hpend c'. destruct (H ops c Hcars Hpend) as (Hc & Hreach & Hp).
  split; [exact Hc|]. split; [exact Hreach|]. split; [exact Hp|].
  eapply Forall_impl; [exact Hreach|]. intros e He.
  destruct (reachable_safe e He) as (Hf & Hd & Hl & _). done.
Qed.

(** X11: whatever calls a controller serves, its fleet keeps its cars:
    their number, ids, floor ranges and capacities stay as they are, and
    every car remains one that was built by the constructor and driven by
    [add_request] and [step] only, so that it stands at a floor of its
    range, with closed doors and a load between zero and its capacity. *)
Theorem controller_keeps_its_cars_safe (c : Controller.t)
    (ops : list ControllerOp) :
  Forall (reachable set_iter) (Controller._elevators c) ->
  Forall constructed (Controller._pending_requests c) ->
  let c' := controller_run set_iter c ops in
  map config (Controller._elevators c') = map config (Controller._elevators c)
  /\ Forall (reachable set_iter) (Controller._elevators c')
  /\ Forall constructed (Controller._pending_requests c')
  /\ Forall (fun e => _min_floor e <= _current_floor e <= _max_floor e
                      /\ 0 <= _current_load e <= _capacity e
                      /\ _door_state e = CLOSED)
       (Controller._elevators c').
Proof. exact (controller_run_keeps c ops). Qed.

Lemma step_unservable c :
  pending_unservable c ->
  Controller.step set_iter c
  = Controller.mk (map (step set_iter) (Controller._elevators c))
      (Controller._dispatch_strategy c) (Controller._pending_requests c)
  /\ pending_unservable (Controller.step set_iter c).
Proof.
  intros H. unfold Controller.step.
  rewrite process_pending_unservable by exact H. split; [reflexivity|].
  intros r e' Hr He'. simpl in *. apply list_elem_of_In, in_map_iff in He'
    as (e & <- & He). apply list_elem_of_In in He.
  destruct (step_fields set_iter e) as (Hc & _).
  rewrite (can_accept_config _ _ r Hc). by apply H.
Qed.

(** X12: compatibility depends on the floors and the capacity of a car
    only, so a queue of requests that no car of the fleet can accept is
    never served: [_process_pending_requests] changes nothing, and after
    any number of controller steps the queue is what it was. *)
Theorem unservable_queue_is_never_served (c : Controller.t) :
  pending_unservable c ->
  Controller._process_pending_requests c = c
  /\ forall n : nat,
       let c' := controller_run set_iter c (replicate n c_step) in
       Controller._pending_requests c' = Controller._pending_requests c
       /\ Controller._dispatch_strategy c' = Controller._dispatch_strategy c
       /\ pending_unservable c'.
Proof.
  intros H. split; [by apply process_pending_unservable|].
  intros n. revert c H. induction n as [|n IH]; intros c H;
    [cbv zeta; unfold controller_run; simpl; auto|].
  destruct (step_unservable c H) as (Hs & Hu).
  destruct (IH _ Hu) as (Hp & Hst & Hu').
  cbv zeta in *. unfold controller_run in *. simpl.
  split; [by rewrite Hp, Hs|]. split; [by rewrite Hst, Hs | exact Hu'].
Qed.

(** X13: with the nearest-car, round-robin and zoned strategies a request
    is queued only when no car can accept it, so the queue only grows:
    started with a queue no car can serve, and never given the LOOK
    strategy, the controller keeps every queued request queued, in
    order, whatever calls it serves. *)
Theorem queue_only_grows_without_look (c : Controller.t)
    (ops : list ControllerOp) :
  pending_unservable c ->
  Controller._dispatch_strategy c <> LookStrategy ->
  Forall keeps_off_look ops ->
  let c' := controller_run set_iter c ops in
  Controller._pending_requests c `prefix_of` Controller._pending_requests c'
  /\ pending_unservable c'
  /\ Controller._dispatch_strategy c' <> LookStrategy.
Proof.
  intros Hu Hs Hops. revert c Hu Hs.
  induction Hops as [|o ops Ho Hops IH]; intros c Hu Hs; [done|].
  assert (Hstep : Controller._pending_requests c
                    `prefix_of` Controller._pending_requests
                                  (controller_op set_iter c o)
                  /\ pending_unservable (controller_op set_iter c o)
                  /\ Controller._dispatch_strategy (controller_op set_iter c o)
                     <> LookStrategy).
  { destruct o as [from to n uuid now| |s]; simpl.
    - unfold Controller.request_elevator.
      destruct (new_Request from to uuid now n) as [r|]; simpl; [|done].
      destruct (Controller._dispatch_request c r) as [[b c1]|] eqn:Hd;
        simpl; [|done].
      pose proof (dispatch_request_spec c r b c1 Hd) as (Hcase & _ & Hq).
      assert (Hkind : Controller._dispatch_strategy c1 <> LookStrategy).
      { revert Hd. unfold Controller._dispatch_request.
        destruct (strategy_select _ r _) as [[x s1]|] eqn:Hsel;
          simpl; [|discriminate].
        pose proof (strategy_select_kind _ _ _ _ _ Hsel Hs) as Hk.
        destruct x as [e|]; [destruct (call_add_request _ _ _) as [[] ?]|];
          intros H; by simplify_eq. }
      destruct b.
      + destruct Hcase as (i & e & Hi & Hacc & Hcars & Hpend).
        split; [by rewrite Hpend|]. split; [|exact Hkind].
        intros r' e' Hr' He'. rewrite Hpend in Hr'. rewrite Hcars in He'.
        apply (same_config_unservable r' (Controller._elevators c)
                 (<[i := (add_request e r).2]> (Controller._elevators c)));
          [|by intros e0 He0; apply Hu|exact He'].
        clear -Hi. revert i Hi.
        induction (Controller._elevators c) as [|x l IHl]; intros [|i] Hi;
          simpl in *; try done.
        * injection Hi as ->.
          by destruct (add_request_fields e r) as (-> & _).
        * by rewrite IHl.
      + destruct Hcase as (Hcars & Hpend).
        split; [rewrite Hpend; by apply prefix_app_r|].
        split; [|exact Hkind].
        intros r' e' Hr' He'. rewrite Hpend in Hr'. rewrite Hcars in He'.
        apply elem_of_app in Hr' as [Hr' | Hr']; [by apply Hu|].
        apply list_elem_of_singleton in Hr' as ->.
        by apply (Hq Hs eq_refl).
    - destruct (step_unservable c Hu) as (Heq & Hu').
      rewrite Heq in Hu'. unfold Controller.step.
      rewrite !(process_pending_unservable c Hu).
      split; [reflexivity|]. split; [exact Hu' | exact Hs].
    - split; [reflexivity|]. split; [exact Hu | exact Ho]. }
  destruct Hstep as (Hp & Hu' & Hs').
  destruct (IH _ Hu' Hs') as (Hp' & Hu2 & Hs2).
  unfold controller_run in *. simpl. split; [by etrans|]. done.
Qed.

Lemma sum_ones_length {A} (l : list A) :
  Controller.sum (map (fun _ => 1) l) = Z.of_nat (length l).
Proof. induction l as [|x l IH]; simpl; [reflexivity|]. rewrite IH. lia. Qed.

(** X14: the status report of a controller whose cars were built by the
    constructor and driven by [add_request] and [step] only is
    consistent: the number of cars is the length of the fleet, the number
    of idle cars is the number of cars whose direction is [IDLE], at most
    the number of cars, and the total load lies between zero and the total
    capacity. *)
Theorem system_status_is_consistent (c : Controller.t) :
  Forall (reachable set_iter) (Controller._elevators c) ->
  let st := Controller.get_system_status c in
  Controller.pending_requests st
    = Z.of_nat (length (Controller._pending_requests c))
  /\ Controller.total_elevators st
     = Z.of_nat (length (Controller._elevators c))
  /\ length (Controller.elevators st) = length (Controller._elevators c)
  /\ Controller.idle_elevators st
     = Z.of_nat (length (filter (fun e => _direction e = IDLE)
                           (Controller._elevators c)))
  /\ 0 <= Controller.idle_elevators st <= Controller.total_elevators st
  /\ 0 <= Controller.total_load st <= Controller.total_capacity st.
Proof.
  intros Hcars st. subst st. unfold Controller.get_system_status. simpl.
  split; [reflexivity|]. split; [reflexivity|].
  split; [by rewrite !length_map|].
  assert (Hidle : Controller.sum
            (map (fun _ => 1)
               (filter (fun s => is_idle s = true)
                  (map get_state (Controller._elevators c))))
          = Z.of_nat (length (filter (fun e => _direction e = IDLE)
                                (Controller._elevators c)))).
  { rewrite sum_ones_length. f_equal.
    induction Hcars as [|e cars He Hcars IH]; [reflexivity|].
    simpl. rewrite !filter_cons.
    pose proof (reachable_idle set_iter e He) as Hi.
    destruct (decide (_direction e = IDLE)) as [Hd | Hd].
    - rewrite decide_True by (by apply get_state_idle; [apply Hi|]).
      simpl. by rewrite IH.
    - rewrite decide_False; [exact IH|].
      unfold is_idle. simpl. rewrite bool_decide_eq_false_2 by exact Hd.
      done. }
  split; [exact Hidle|]. split.
  - rewrite Hidle. split; [lia|].
    apply inj_le, length_filter.
  - clear Hidle.
    induction Hcars as [|e cars He Hcars IH]; simpl; [lia|].
    destruct (reachable_safe e He) as (_ & _ & Hl & _).
    unfold load_in_range in Hl. simpl in IH. lia.
Qed.

End ControllerTheorems.

Lemma new_car_reachable set_iter i mn mx cap st e0 :
  new_Elevator i mn mx cap st = Ok e0 -> reachable set_iter e0.
Proof.
  intros H. exists i, mn, mx, cap, st, e0, [].
  split; [exact H|]. split; [constructor | reflexivity].
Qed.

Lemma controller_keeps_its_cars_safe_witness :
  let e0 := mkElevator 0 0 10 8 0 IDLE CLOSED 0 ∅ ∅ ∅ [] in
  let e1 := mkElevator 1 0 10 8 5 IDLE CLOSED 0 ∅ ∅ ∅ [] in
  let c := Controller.mk [e0; e1] NearestStrategy [] in
  let ops := [c_request_elevator 4 7 1 0 0; c_step; c_step] in
  (forall l : list Request, (fun l => l) l ≡ₚ l)
  /\ Forall (reachable (fun l => l)) (Controller._elevators c)
  /\ Forall constructed (Controller._pending_requests c)
  /\ Forall (fun e => _min_floor e <= _current_floor e <= _max_floor e
                      /\ 0 <= _current_load e <= _capacity e
                      /\ _door_state e = CLOSED)
       (Controller._elevators (controller_run (fun l => l) c ops)).
Proof.
  intros e0 e1 c ops.
  assert (Hp : forall l : list Request, (fun l => l) l ≡ₚ l)
    by (intros l; reflexivity).
  assert (Hc : Forall (reachable (fun l => l)) (Controller._elevators c)).
  { repeat constructor.
    - by apply (new_car_reachable _ 0 0 10 8 0).
    - by apply (new_car_reachable _ 1 0 10 8 5). }
  assert (Hq : Forall constructed (Controller._pending_requests c))
    by constructor.
  split; [exact Hp|]. split; [exact Hc|]. split; [exact Hq|].
  destruct (controller_keeps_its_cars_safe (fun l => l) Hp c ops Hc Hq)
    as (_ & _ & _ & H).
  exact H.
Defined.

Lemma unservable_queue_is_never_served_witness :
  let e0 := mkElevator 0 0 10 8 0 IDLE CLOSED 0 ∅ ∅ ∅ [] in
  let c := Controller.mk [e0] LookStrategy [mkRequest 4 70 1 0 1] in
  pending_unservable c
  /\ Controller._process_pending_requests c = c.
Proof.
  intros e0 c.
  assert (H : pending_unservable c).
  { intros r e Hr He. simpl in Hr, He.
    apply list_elem_of_singleton in Hr. apply list_elem_of_singleton in He.
    subst r e. reflexivity. }
  split; [exact H|].
  destruct (unservable_queue_is_never_served (fun l => l) c H) as (H1 & _).
  exact H1.
Defined.

Lemma queue_only_grows_without_look_witness :
  let e0 := mkElevator 0 0 10 8 0 IDLE CLOSED 0 ∅ ∅ ∅ [] in
  let c := Controller.mk [e0] (FCFSStrategy FCFS.init)
             [mkRequest 4 70 1 0 1] in
  let ops := [c_request_elevator 2 99 1 1 0; c_step;
              c_set_dispatch_strategy NearestStrategy;
              c_request_elevator 2 5 1 2 0; c_step] in
  pending_unservable c
  /\ Controller._dispatch_strategy c <> LookStrategy
  /\ Forall keeps_off_look ops
  /\ Controller._pending_requests c
       `prefix_of` Controller._pending_requests
                     (controller_run (fun l => l) c ops).
Proof.
  intros e0 c ops.
  assert (H : pending_unservable c).
  { intros r e Hr He. simpl in Hr, He.
    apply list_elem_of_singleton in Hr. apply list_elem_of_singleton in He.
    subst r e. reflexivity. }
  assert (Hs : Controller._dispatch_strategy c <> LookStrategy)
    by discriminate.
  assert (Ho : Forall keeps_off_look ops)
    by (repeat constructor; discriminate).
  split; [exact H|]. split; [exact Hs|]. split; [exact Ho|].
  destruct (queue_only_grows_without_look (fun l => l) c ops H Hs Ho)
    as (H1 & _).
  exact H1.
Defined.

Lemma system_status_is_consistent_witness :
  let e0 := mkElevator 0 0 10 8 0 IDLE CLOSED 0 ∅ ∅ ∅ [] in
  let e1 := (add_request (mkElevator 1 0 10 8 5 IDLE CLOSED 0 ∅ ∅ ∅ [])
               (mkRequest 4 7 1 0 2)).2 in
  let c := Controller.mk [e0; e1] LookStrategy [] in
  let st := Controller.get_system_status c in
  (forall l : list Request, (fun l => l) l ≡ₚ l)
  /\ Forall (reachable (fun l => l)) (Controller._elevators c)
  /\ 0 <= Controller.idle_elevators st <= Controller.total_elevators st
  /\ 0 <= Controller.total_load st <= Controller.total_capacity st.
Proof.
  intros e0 e1 c st.
  assert (Hp : forall l : list Request, (fun l => l) l ≡ₚ l)
    by (intros l; reflexivity).
  assert (Hc : Forall (reachable (fun l => l)) (Controller._elevators c)).
  { repeat constructor.
    - by apply (new_car_reachable _ 0 0 10 8 0).
    - apply reachable_add_request.
      + by apply (new_car_reachable _ 1 0 10 8 5).
      + reflexivity. }
  split; [exact Hp|]. split; [exact Hc|].
  destruct (system_status_is_consistent (fun l => l) Hp c Hc)
    as (_ & _ & _ & _ & H1 & H2).
  split; [exact H1 | exact H2].
Defined.

(** *** The builder *)

Lemma configured_consistent b :
  configured b ->
  Builder._min_floor b <= Builder._max_floor b
  /\ 1 <= Builder._num_elevators b
  /\ 1 <= Builder._capacity b
  /\ (Builder.truthy (Builder._start_floors b) = true ->
      Builder.length_of (Builder._start_floors b) = Builder._num_elevators b).
Proof.
  induction 1 as [|b mn mx b' Hb IH H|b count cap sf b' Hb IH H].
  - unfold Builder.new_Builder. simpl.
    split; [lia|]. split; [lia|]. split; [lia | discriminate].
  - unfold Builder.with_floors in H. case_bool_decide; [discriminate|].
    injection H as <-. simpl. destruct IH as (_ & ? & ? & ?).
    split; [lia|]. split; [lia|]. split; [lia | done].
  - unfold Builder.with_elevators in H.
    repeat case_bool_decide; try discriminate.
    all: destruct (Builder.truthy sf) eqn:Ht; simpl in H; try discriminate.
    all: injection H as <-; simpl; destruct IH as (? & _).
    all: split; [lia|]; split; [lia|]; split; [lia|].
    all: rewrite Ht; try discriminate; intros _; assumption.
Qed.

Lemma start_floor_of_elem b (i : nat) :
  Builder.truthy (Builder._start_floors b) = true ->
  (Z.of_nat i < Builder.length_of (Builder._start_floors b)) ->
  default [] (Builder._start_floors b) !! i = Some (start_floor_of b i)
  /\ start_floor_of b i ∈ default [] (Builder._start_floors b).
Proof.
  unfold start_floor_of. destruct (Builder._start_floors b) as [l|];
    simpl; [|discriminate].
  intros _ Hi.
  destruct (l !! i) as [f|] eqn:Hl.
  - simpl. split; [reflexivity|]. apply list_elem_of_lookup. eauto.
  - apply lookup_ge_None in Hl. lia.
Qed.

Lemma start_floor_of_default b (i : nat) :
  Builder.truthy (Builder._start_floors b) = false ->
  start_floor_of b i = Builder._min_floor b
  /\ default [] (Builder._start_floors b) = [].
Proof.
  unfold start_floor_of. destruct (Builder._start_floors b) as [[|f l]|];
    simpl; try discriminate; done.
Qed.

Lemma build_elevators_spec b : forall (k i0 : nat),
  Builder._min_floor b <= Builder._max_floor b ->
  1 <= Builder._capacity b ->
  (Builder.truthy (Builder._start_floors b) = true ->
   Z.of_nat (i0 + k) <= Builder.length_of (Builder._start_floors b)) ->
  match Builder.build_elevators b k (Z.of_nat i0) with
  | Raise =>
      exists j : nat,
        (i0 <= j < i0 + k)%nat
        /\ ~ (Builder._min_floor b <= start_floor_of b j
              <= Builder._max_floor b)
  | Ok cars =>
      length cars = k
      /\ (forall j : nat, (i0 <= j < i0 + k)%nat ->
            Builder._min_floor b <= start_floor_of b j
            <= Builder._max_floor b)
      /\ forall j : nat, (j < k)%nat ->
           cars !! j
           = Some (mkElevator (Z.of_nat (i0 + j)) (Builder._min_floor b)
                     (Builder._max_floor b) (Builder._capacity b)
                     (start_floor_of b (i0 + j)) IDLE CLOSED 0 ∅ ∅ ∅ [])
  end.
Proof.
  induction k as [|k IH]; intros i0 Hmn Hcap Hlen; simpl.
  - split; [reflexivity|]. split; intros; lia.
  - rewrite Nat2Z.id.
    assert (Hstart :
      (if Builder.truthy (Builder._start_floors b)
       then match default [] (Builder._start_floors b) !! i0 with
            | Some f => Ok f
            | None => Raise
            end
       else Ok (Builder._min_floor b)) = Ok (start_floor_of b i0)).
    { destruct (Builder.truthy (Builder._start_floors b)) eqn:Ht.
      - destruct (start_floor_of_elem b i0 Ht) as (-> & _); [|reflexivity].
        specialize (Hlen eq_refl). lia.
      - by destruct (start_floor_of_default b i0 Ht) as (-> & _). }
    rewrite Hstart. simpl.
    destruct (new_Elevator (Z.of_nat i0) (Builder._min_floor b)
                (Builder._max_floor b) (Builder._capacity b)
                (start_floor_of b i0)) as [e|] eqn:Hnew; simpl.
    + apply new_Elevator_Ok in Hnew as ((Hst & _) & ->).
      specialize (IH (S i0) Hmn Hcap).
      replace (Z.of_nat i0 + 1) with (Z.of_nat (S i0)) by lia.
      destruct (Builder.build_elevators b k (Z.of_nat (S i0))) as [cars|];
        simpl.
      * destruct IH as (Hl & Hr & Hc);
          [intros Ht; specialize (Hlen Ht); lia|].
        split; [by rewrite <- Hl|]. split.
        -- intros j Hj. destruct (decide (j = i0)) as [-> | Hne];
             [exact Hst | apply Hr; lia].
        -- intros [|j] Hj; simpl.
           ++ by rewrite Nat.add_0_r.
           ++ rewrite Hc by lia.
              by replace (i0 + S j)%nat with (S i0 + j)%nat by lia.
      * destruct IH as (j & Hj & Hout);
          [intros Ht; specialize (Hlen Ht); lia|].
        exists j. split; [lia | exact Hout].
    + apply new_Elevator_Raise in Hnew. exists i0. split; [lia|].
      intros Hin. lia.
Qed.

Lemma build_spec
    (b : Builder.ElevatorSystemBuilder) (s : option DispatchStrategy) :
  configured b ->
  (build b s = Raise <->
     exists f, f ∈ default [] (Builder._start_floors b)
               /\ ~ (Builder._min_floor b <= f <= Builder._max_floor b))
  /\ forall c, build b s = Ok c ->
       Controller._dispatch_strategy c = default LookStrategy s
       /\ Controller._pending_requests c = []
       /\ Z.of_nat (length (Controller._elevators c))
          = Builder._num_elevators b
       /\ forall (i : nat) e, Controller._elevators c !! i = Some e ->
            e = mkElevator (Z.of_nat i) (Builder._min_floor b)
                  (Builder._max_floor b) (Builder._capacity b)
                  (start_floor_of b i) IDLE CLOSED 0 ∅ ∅ ∅ [].
Proof.
  intros Hb. destruct (configured_consistent b Hb) as (Hmn & Hnum & Hcap & Hlen).
  pose proof (build_elevators_spec b (Z.to_nat (Builder._num_elevators b))
                0%nat Hmn Hcap) as Hspec.
  unfold build. simpl in Hspec.
  assert (Hfit : Builder.truthy (Builder._start_floors b) = true ->
                 Z.of_nat (Z.to_nat (Builder._num_elevators b))
                 <= Builder.length_of (Builder._start_floors b))
    by (intros Ht; rewrite Hlen by exact Ht; lia).
  specialize (Hspec Hfit). change (Z.of_nat 0) with 0 in Hspec.
  destruct (Builder.build_elevators b (Z.to_nat (Builder._num_elevators b)) 0)
    as [cars|]; simpl.
  - destruct Hspec as (Hl & Hr & Hc).
    destruct cars as [|x cars]; [simpl in Hl; lia|]. simpl. split.
    + split; [discriminate|]. intros (f & Hf & Hout). exfalso.
      destruct (Builder.truthy (Builder._start_floors b)) eqn:Ht.
      * apply list_elem_of_lookup in Hf as (j & Hj).
        assert (Hjl : (j < Z.to_nat (Builder._num_elevators b))%nat).
        { apply lookup_lt_Some in Hj. rewrite <- (Hlen eq_refl).
          destruct (Builder._start_floors b); simpl in *; lia. }
        apply Hout. specialize (Hr j ltac:(lia)).
        unfold start_floor_of in Hr. by rewrite Hj in Hr.
      * destruct (start_floor_of_default b 0%nat Ht) as (_ & Hnil).
        rewrite Hnil in Hf. by apply not_elem_of_nil in Hf.
    + intros c [= <-]. simpl. split; [by destruct s|]. split; [reflexivity|].
      split; [simpl in Hl; lia|].
      intros i e Hi. assert (Hil : (i < Z.to_nat (Builder._num_elevators b))%nat).
      { apply lookup_lt_Some in Hi. simpl in Hi, Hl. lia. }
      rewrite (Hc i Hil) in Hi. by injection Hi as <-.
  - destruct Hspec as (j & Hj & Hout).
    split; [|discriminate]. split; [|reflexivity]. intros _.
    destruct (Builder.truthy (Builder._start_floors b)) eqn:Ht.
    + exists (start_floor_of b j). split; [|exact Hout].
      apply start_floor_of_elem; [exact Ht|]. rewrite (Hlen eq_refl). lia.
    + destruct (start_floor_of_default b j Ht) as (Hmin & _).
      rewrite Hmin in Hout. lia.
Qed.

(** X15: for a builder configured through [with_floors] and
    [with_elevators], [build] raises exactly when a start floor given to
    the builder lies outside the floors; otherwise it returns a controller
    with an empty queue, the given strategy or LOOK, and as many cars as
    asked for: car [i] has id [i], the floors and the capacity of the
    builder, and stands idle, empty and closed at its start floor, the
    lowest floor when none was given. *)
Theorem build_raises_only_on_a_start_floor
    (b : Builder.ElevatorSystemBuilder) (s : option DispatchStrategy) :
  configured b ->
  (build b s = Raise <->
     exists f, f ∈ default [] (Builder._start_floors b)
               /\ ~ (Builder._min_floor b <= f <= Builder._max_floor b))
  /\ forall c, build b s = Ok c ->
       Controller._dispatch_strategy c = default LookStrategy s
       /\ Controller._pending_requests c = []
       /\ Z.of_nat (length (Controller._elevators c))
          = Builder._num_elevators b
       /\ forall (i : nat) e, Controller._elevators c !! i = Some e ->
            e = mkElevator (Z.of_nat i) (Builder._min_floor b)
                  (Builder._max_floor b) (Builder._capacity b)
                  (start_floor_of b i) IDLE CLOSED 0 ∅ ∅ ∅ [].
Proof. exact (build_spec b s). Qed.

Lemma build_raises_only_on_a_start_floor_witness :
  exists b b',
    Builder.with_floors Builder.new_Builder 0 20 = Ok b
    /\ Builder.with_elevators b 3 10 (Some [0; 10; 20]) = Ok b'
    /\ configured b'
    /\ forall c, build b' None = Ok c ->
         Controller._dispatch_strategy c = LookStrategy
         /\ Controller._pending_requests c = []
         /\ Z.of_nat (length (Controller._elevators c)) = 3.
Proof.
  exists (Builder.mkBuilder 0 20 1 8 None),
         (Builder.mkBuilder 0 20 3 10 (Some [0; 10; 20])).
  assert (H1 : Builder.with_floors Builder.new_Builder 0 20
               = Ok (Builder.mkBuilder 0 20 1 8 None)) by reflexivity.
  assert (H2 : Builder.with_elevators (Builder.mkBuilder 0 20 1 8 None) 3 10
                 (Some [0; 10; 20])
               = Ok (Builder.mkBuilder 0 20 3 10 (Some [0; 10; 20])))
    by reflexivity.
  assert (Hb : configured (Builder.mkBuilder 0 20 3 10 (Some [0; 10; 20]))).
  { eapply configured_elevators; [|exact H2].
    eapply configured_floors; [|exact H1]. constructor. }
  split; [exact H1|]. split; [exact H2|]. split; [exact Hb|].
  intros c Hc.
  destruct (build_raises_only_on_a_start_floor _ None Hb) as (_ & H).
  destruct (H c Hc) as (Hs & Hp & Hn & _).
  split; [exact Hs|]. split; [exact Hp | exact Hn].
Defined.

(** X16: a system built by a configured builder stays safe under any
    sequence of controller calls: the fleet keeps the number of cars asked
    for, car [i] keeps id [i] and the floors and capacity of the builder,
    and every car stands at a floor of the range with closed doors and a
    load between zero and the capacity. *)
Theorem built_system_stays_safe (set_iter : list Request -> list Request)
    (b : Builder.ElevatorSystemBuilder) (s : option DispatchStrategy)
    (c : Controller.t) (ops : list ControllerOp) :
  (forall l, set_iter l ≡ₚ l) ->
  configured b ->
  build b s = Ok c ->
  let c' := controller_run set_iter c ops in
  Z.of_nat (length (Controller._elevators c')) = Builder._num_elevators b
  /\ forall (i : nat) e, Controller._elevators c' !! i = Some e ->
       _id e = Z.of_nat i
       /\ _min_floor e = Builder._min_floor b
       /\ _max_floor e = Builder._max_floor b
       /\ _capacity e = Builder._capacity b
       /\ Builder._min_floor b <= _current_floor e <= Builder._max_floor b
       /\ 0 <= _current_load e <= Builder._capacity b
       /\ _door_state e = CLOSED.
Proof.
  intros Hperm Hb Hc c'.
  destruct (build_spec b s Hb) as (Hraise & Hok).
  destruct (Hok c Hc) as (_ & Hpend & Hlen & Hcars).
  assert (Hnew : Forall (reachable set_iter) (Controller._elevators c)).
  { apply Forall_forall. intros e He.
    apply list_elem_of_lookup in He as (i & Hi).
    pose proof (Hcars i e Hi) as ->.
    destruct (new_Elevator (Z.of_nat i) (Builder._min_floor b)
                (Builder._max_floor b) (Builder._capacity b)
                (start_floor_of b i)) as [e0|] eqn:Hn.
    - pose proof Hn as Hn'. apply new_Elevator_Ok in Hn' as (_ & <-).
      by eapply new_car_reachable.
    - exfalso. apply new_Elevator_Raise in Hn.
      destruct (configured_consistent b Hb) as (Hmn & Hnum & Hcap & Hsf).
      destruct Hn as [Hn | [Hn | Hn]]; [lia | lia |].
      assert (Hr : build b s = Raise); [|congruence].
      apply Hraise.
      destruct (Builder.truthy (Builder._start_floors b)) eqn:Ht.
      + exists (start_floor_of b i). split; [|exact Hn].
        apply start_floor_of_elem; [exact Ht|]. rewrite (Hsf eq_refl).
        apply lookup_lt_Some in Hi. lia.
      + destruct (start_floor_of_default b i Ht) as (Hmin & _).
        rewrite Hmin in Hn. lia. }
  assert (Hq : Forall constructed (Controller._pending_requests c))
    by (rewrite Hpend; constructor).
  destruct (controller_run_keeps set_iter Hperm c ops Hnew Hq)
    as (Hconf & _ & _ & Hsafe).
  fold c' in Hconf, Hsafe. split.
  - rewrite <- Hlen. f_equal.
    apply (f_equal length) in Hconf. by rewrite !length_map in Hconf.
  - intros i e' Hi'.
    assert (Hcfg : exists e, Controller._elevators c !! i = Some e
                             /\ config e' = config e).
    { assert (H1 : map config (Controller._elevators c') !! i
                   = Some (config e'))
        by (by rewrite (list_lookup_fmap config), Hi').
      rewrite Hconf, (list_lookup_fmap config) in H1.
      destruct (Controller._elevators c !! i) as [e|]; [|discriminate].
      exists e. split; [reflexivity|]. simpl in H1. congruence. }
    destruct Hcfg as (e & Hi & Hcfg). pose proof (Hcars i e Hi) as ->.
    unfold config in Hcfg. simpl in Hcfg.
    assert (Hid : _id e' = Z.of_nat i) by congruence.
    assert (Hmn : _min_floor e' = Builder._min_floor b) by congruence.
    assert (Hmx : _max_floor e' = Builder._max_floor b) by congruence.
    assert (Hcp : _capacity e' = Builder._capacity b) by congruence.
    rewrite Forall_forall in Hsafe.
    destruct (Hsafe e') as (Hf & Hl & Hd);
      [apply list_elem_of_lookup; eauto|].
    rewrite Hmn, Hmx in Hf. rewrite Hcp in Hl. done.
Qed.

Lemma built_system_stays_safe_witness :
  let b := Builder.mkBuilder 0 20 3 10 (Some [0; 10; 20]) in
  let ops := [c_request_elevator 4 7 1 0 0; c_step; c_step] in
  exists c,
    (forall l : list Request, (fun l => l) l ≡ₚ l)
    /\ configured b
    /\ build b (Some NearestStrategy) = Ok c
    /\ Z.of_nat (length (Controller._elevators
                           (controller_run (fun l => l) c ops))) = 3.
Proof.
  intros b ops.
  assert (Hp : forall l : list Request, (fun l => l) l ≡ₚ l)
    by (intros l; reflexivity).
  assert (Hb : configured b).
  { eapply (configured_elevators (Builder.mkBuilder 0 20 1 8 None) 3 10
              (Some [0; 10; 20])); [|reflexivity].
    eapply (configured_floors Builder.new_Builder 0 20); [|reflexivity].
    constructor. }
  let v := eval vm_compute in (build b (Some NearestStrategy)) in
  match v with
  | Ok ?c =>
      exists c;
      assert (Hc : build b (Some NearestStrategy) = Ok c)
        by (vm_compute; reflexivity)
  end.
  split; [exact Hp|]. split; [exact Hb|]. split; [exact Hc|].
  destruct (built_system_stays_safe (fun l => l) b _ _ ops Hp Hb Hc)
    as (H & _).
  exact H.
Defined.

(** *** A car serves a request that lies ahead of it *)

Lemma direction_not_idle r : direction r <> IDLE.
Proof. unfold direction. by case_bool_decide. Qed.

Lemma len_pos (s : gset Z) : bool_decide (len s > 0) = bool_decide (s ≠ ∅).
Proof.
  unfold len. apply bool_decide_ext.
  rewrite <- (leibniz_equiv_iff s ∅), <- size_non_empty_iff. lia.
Qed.

Section Service.

Variable set_iter : list Request -> list Request.
Hypothesis set_iter_perm : forall l, set_iter l ≡ₚ l.

Lemma set_iter_singleton r : set_iter [r] = [r].
Proof. apply Permutation_singleton_r. by rewrite set_iter_perm. Qed.

Lemma arrive_pass e :
  _direction e <> IDLE ->
  _current_floor e ∉ stops_for (_direction e) e ->
  arrive set_iter e = e.
Proof.
  intros Hd Hf. unfold arrive, _is_current_floor_a_stop.
  destruct (_direction e); [| |done]; simpl in Hf;
    by rewrite bool_decide_eq_false_2.
Qed.

Lemma move_toward e :
  _direction e <> IDLE ->
  _min_floor e <= toward (_direction e) (_current_floor e) <= _max_floor e ->
  _move e = set_current_floor e (toward (_direction e) (_current_floor e)).
Proof.
  intros Hd Hf. unfold _move.
  destruct (_direction e); [| |done]; simpl in Hf;
    by rewrite bool_decide_eq_true_2 by lia.
Qed.

Lemma update_direction_keeps e g :
  _direction e <> IDLE ->
  g ∈ stops_for (_direction e) e ->
  beyond (_direction e) (_current_floor e) g ->
  _update_direction e = e.
Proof.
  intros Hd Hg Hb. unfold _update_direction.
  destruct (_direction e); [| |done]; simpl in Hg, Hb.
  - destruct (filter (fun f => f > _current_floor e) (elements (_up_stops e)))
      as [|x l] eqn:Hf; [|reflexivity].
    assert (Hin : g ∈ filter (fun f => f > _current_floor e)
                      (elements (_up_stops e))).
    { apply list_elem_of_filter. split; [lia|]. by apply elem_of_elements. }
    rewrite Hf in Hin. by apply not_elem_of_nil in Hin.
  - destruct (filter (fun f => f < _current_floor e)
                (elements (_down_stops e))) as [|x l] eqn:Hf; [|reflexivity].
    assert (Hin : g ∈ filter (fun f => f < _current_floor e)
                      (elements (_down_stops e))).
    { apply list_elem_of_filter. split; [lia|]. by apply elem_of_elements. }
    rewrite Hf in Hin. by apply not_elem_of_nil in Hin.
Qed.

Lemma update_direction_rests e :
  _direction e <> IDLE ->
  _up_stops e = ∅ -> _down_stops e = ∅ ->
  _update_direction e = set_direction e IDLE.
Proof.
  intros Hd Hu Hdn. unfold _update_direction, truthy.
  destruct (_direction e); [| |done]; rewrite Hu, Hdn, elements_empty; simpl;
    by rewrite bool_decide_eq_false_2 by (intros H; by apply H).
Qed.

Lemma step_halves e :
  _direction e <> IDLE ->
  (_up_stops (arrive set_iter e) ≠ ∅ \/ _down_stops (arrive set_iter e) ≠ ∅) ->
  step set_iter e = move_and_arrive set_iter (arrive set_iter e).
Proof.
  intros Hd Hs. unfold step, move_and_arrive, _has_pending_stops.
  rewrite bool_decide_eq_false_2 by exact Hd. rewrite !len_pos.
  destruct Hs as [Hs | Hs].
  - by rewrite (bool_decide_eq_true_2 _ Hs).
  - rewrite (bool_decide_eq_true_2 (_down_stops _ ≠ ∅) Hs).
    by rewrite orb_true_r.
Qed.

Lemma set_discard_self r : set_discard r [r] = [].
Proof.
  unfold set_discard, Request_eqb. rewrite filter_cons, decide_False; [done|].
  by rewrite bool_decide_eq_true_2.
Qed.

Lemma process_current_floor_pickup e r :
  _direction e <> IDLE ->
  _current_floor e ∈ stops_for (_direction e) e ->
  _active_requests e !! _current_floor e = Some [r] ->
  pickup_floor r = _current_floor e ->
  destination_floor r <> _current_floor e ->
  _current_load e + passengers r <= _capacity e ->
  let e' := _process_current_floor set_iter e in
  config e' = config e
  /\ _current_floor e' = _current_floor e
  /\ _direction e' = _direction e
  /\ _door_state e' = CLOSED
  /\ stops_for (_direction e) e'
     = stops_for (_direction e) e ∖ {[_current_floor e]}
  /\ stops_for (opposite (_direction e)) e'
     = stops_for (opposite (_direction e)) e
  /\ _current_load e' = _current_load e + passengers r
  /\ _active_requests e' = _active_requests e.
Proof.
  intros Hd Hin Hact Hp Hdest Hfit.
  destruct e as [i mn mx cap f d door load ups downs act log].
  simpl in *. unfold _process_current_floor, remove_stop, process_active.
  simpl.
  destruct d; [| |done]; simpl in *.
  - rewrite (bool_decide_eq_true_2 _ Hin). simpl. rewrite Hact.
    rewrite set_iter_singleton. simpl.
    rewrite (bool_decide_eq_false_2 _ Hdest), (bool_decide_eq_true_2 _ Hp).
    rewrite (bool_decide_eq_true_2 _ Hfit). simpl. rewrite Hact. done.
  - rewrite (bool_decide_eq_true_2 _ Hin). simpl. rewrite Hact.
    rewrite set_iter_singleton. simpl.
    rewrite (bool_decide_eq_false_2 _ Hdest), (bool_decide_eq_true_2 _ Hp).
    rewrite (bool_decide_eq_true_2 _ Hfit). simpl. rewrite Hact. done.
Qed.

Lemma process_current_floor_dropoff e r :
  _direction e <> IDLE ->
  _current_floor e ∈ stops_for (_direction e) e ->
  _active_requests e !! _current_floor e = Some [r] ->
  destination_floor r = _current_floor e ->
  pickup_floor r <> _current_floor e ->
  _active_requests e !! pickup_floor r = Some [r] ->
  let e' := _process_current_floor set_iter e in
  config e' = config e
  /\ _current_floor e' = _current_floor e
  /\ _direction e' = _direction e
  /\ _door_state e' = CLOSED
  /\ stops_for (_direction e) e'
     = stops_for (_direction e) e ∖ {[_current_floor e]}
  /\ stops_for (opposite (_direction e)) e'
     = stops_for (opposite (_direction e)) e
  /\ _current_load e' = Z.max 0 (_current_load e - passengers r)
  /\ _active_requests e' !! _current_floor e = None
  /\ _active_requests e' !! pickup_floor r = Some []
  /\ (forall f', f' <> _current_floor e -> f' <> pickup_floor r ->
        _active_requests e' !! f' = _active_requests e !! f')
  /\ exists s, on_request_completed s r ∈ notified e'.
Proof.
  intros Hd Hin Hact Hdest Hp Hpick.
  destruct e as [i mn mx cap f d door load ups downs act log].
  simpl in *. unfold _process_current_floor, remove_stop, process_active.
  simpl.
  assert (Hclean :
    alter (set_discard r) (pickup_floor r) (alter (set_discard r) f act) !! f
    = Some []).
  { rewrite lookup_alter_ne by done. rewrite lookup_alter_eq, Hact. simpl.
    by rewrite set_discard_self. }
  destruct d; [| |done]; simpl in *.
  - rewrite (bool_decide_eq_true_2 _ Hin). simpl. rewrite Hact.
    rewrite set_iter_singleton. simpl.
    rewrite (bool_decide_eq_true_2 _ Hdest). simpl. rewrite Hclean. simpl.
    repeat split; try done.
    + by rewrite lookup_delete_eq.
    + rewrite lookup_delete_ne by done. rewrite lookup_alter_eq.
      rewrite lookup_alter_ne by done. rewrite Hpick. simpl.
      by rewrite set_discard_self.
    + intros f' Hf' Hf'p. rewrite lookup_delete_ne by done.
      by rewrite !lookup_alter_ne by done.
    + eexists. rewrite !elem_of_app. left. right.
      apply list_elem_of_singleton. reflexivity.
  - rewrite (bool_decide_eq_true_2 _ Hin). simpl. rewrite Hact.
    rewrite set_iter_singleton. simpl.
    rewrite (bool_decide_eq_true_2 _ Hdest). simpl. rewrite Hclean. simpl.
    repeat split; try done.
    + by rewrite lookup_delete_eq.
    + rewrite lookup_delete_ne by done. rewrite lookup_alter_eq.
      rewrite lookup_alter_ne by done. rewrite Hpick. simpl.
      by rewrite set_discard_self.
    + intros f' Hf' Hf'p. rewrite lookup_delete_ne by done.
      by rewrite !lookup_alter_ne by done.
    + eexists. rewrite !elem_of_app. left. right.
      apply list_elem_of_singleton. reflexivity.
Qed.

Lemma set_direction_fields e d :
  let e' := set_direction e d in
  config e' = config e /\ _current_floor e' = _current_floor e
  /\ _direction e' = d /\ _door_state e' = _door_state e
  /\ _current_load e' = _current_load e
  /\ _up_stops e' = _up_stops e /\ _down_stops e' = _down_stops e
  /\ _active_requests e' = _active_requests e
  /\ notified e' = notified e.
Proof. by destruct e. Qed.

Lemma arrive_stop e :
  _direction e <> IDLE ->
  _current_floor e ∈ stops_for (_direction e) e ->
  arrive set_iter e = _process_current_floor set_iter e.
Proof.
  intros Hd Hf. unfold arrive, _is_current_floor_a_stop.
  destruct (_direction e); [| |done]; simpl in Hf;
    by rewrite bool_decide_eq_true_2.
Qed.

Lemma moved_fields e f ev :
  let e' := notify ev (set_current_floor e f) in
  config e' = config e /\ _current_floor e' = f
  /\ _direction e' = _direction e /\ _door_state e' = _door_state e
  /\ _current_load e' = _current_load e
  /\ _up_stops e' = _up_stops e /\ _down_stops e' = _down_stops e
  /\ _active_requests e' = _active_requests e.
Proof. by destruct e. Qed.

Lemma serving_moved cfg r stops load f f' e ev :
  serving cfg r stops load f e ->
  serving cfg r stops load f' (notify ev (set_current_floor e f')).
Proof. destruct e. unfold serving, stops_for. simpl. tauto. Qed.

(** The move to a floor that is not a stop, with a stop further ahead. *)
Lemma move_and_arrive_cruise cfg r stops load f e g :
  serving cfg r stops load f e ->
  cfg.1.1.2 <= toward (direction r) f <= cfg.1.2 ->
  toward (direction r) f ∉ stops ->
  g ∈ stops -> beyond (direction r) (toward (direction r) f) g ->
  serving cfg r stops load (toward (direction r) f)
    (move_and_arrive set_iter e).
Proof.
  intros Hs Hb Hn Hg Hbey.
  pose proof Hs as (Hc & Hf & Hd & Hst & _).
  pose proof (direction_not_idle r) as Hni.
  unfold move_and_arrive. rewrite move_toward;
    [|by rewrite Hd|rewrite Hd, Hf; subst cfg; exact Hb].
  cbv zeta. simpl (_current_floor (set_current_floor _ _)).
  rewrite Hd, Hf.
  set (e1 := notify _ (set_current_floor e (toward (direction r) f))).
  assert (Hs1 : serving cfg r stops load (toward (direction r) f) e1)
    by (by apply (serving_moved cfg r stops load f)).
  pose proof Hs1 as (_ & Hf1 & Hd1 & Hst1 & _).
  rewrite arrive_pass by (rewrite ?Hd1, ?Hf1, ?Hst1; done).
  rewrite (update_direction_keeps e1 g);
    [exact Hs1|by rewrite Hd1|by rewrite Hd1, Hst1|by rewrite Hd1, Hf1].
Qed.

Lemma process_pickup cfg r load e :
  serving cfg r {[pickup_floor r; destination_floor r]} load
    (pickup_floor r) e ->
  pickup_floor r <> destination_floor r ->
  load + passengers r <= cfg.2 ->
  serving cfg r {[destination_floor r]} (load + passengers r)
    (pickup_floor r) (_process_current_floor set_iter e).
Proof.
  intros (Hc & Hf & Hd & Hst & Hop & Hl & Hap & Had & Hoth) Hne Hfit.
  pose proof (direction_not_idle r) as Hni.
  destruct (process_current_floor_pickup e r)
    as (Hc' & Hf' & Hd' & _ & Hst' & Hop' & Hl' & Ha');
    [by rewrite Hd | rewrite Hd, Hst, Hf; set_solver | by rewrite Hf
    | by rewrite Hf | by rewrite Hf
    | rewrite Hl; subst cfg; exact Hfit |].
  rewrite Hd in Hst', Hop'. unfold serving.
  rewrite Hc', Hf', Hd', Hst', Hop', Hl', Ha', Hst, Hf, Hl.
  repeat split; try done. set_solver.
Qed.

Lemma arrive_pickup cfg r load e :
  serving cfg r {[pickup_floor r; destination_floor r]} load
    (pickup_floor r) e ->
  pickup_floor r <> destination_floor r ->
  load + passengers r <= cfg.2 ->
  serving cfg r {[destination_floor r]} (load + passengers r)
    (pickup_floor r) (arrive set_iter e).
Proof.
  intros Hs Hne Hfit. pose proof Hs as (_ & Hf & Hd & Hst & _).
  pose proof (direction_not_idle r) as Hni.
  rewrite arrive_stop; [by apply process_pickup | by rewrite Hd|].
  rewrite Hd, Hst, Hf. set_solver.
Qed.

(** The move to the pickup floor. *)
Lemma move_and_arrive_pickup cfg r load f e :
  serving cfg r {[pickup_floor r; destination_floor r]} load f e ->
  toward (direction r) f = pickup_floor r ->
  cfg.1.1.2 <= pickup_floor r <= cfg.1.2 ->
  pickup_floor r <> destination_floor r ->
  load + passengers r <= cfg.2 ->
  serving cfg r {[destination_floor r]} (load + passengers r)
    (pickup_floor r) (move_and_arrive set_iter e).
Proof.
  intros Hs Ht Hb Hne Hfit.
  pose proof Hs as (Hc & Hf & Hd & Hst & _).
  pose proof (direction_not_idle r) as Hni.
  unfold move_and_arrive. rewrite move_toward;
    [|by rewrite Hd|rewrite Hd, Hf, Ht; subst cfg; exact Hb].
  cbv zeta. simpl (_current_floor (set_current_floor _ _)).
  rewrite Hd, Hf, Ht.
  set (e1 := notify _ (set_current_floor e (pickup_floor r))).
  assert (Hs1 : serving cfg r {[pickup_floor r; destination_floor r]} load
                  (pickup_floor r) e1)
    by (by apply (serving_moved cfg r _ load f)).
  pose proof (arrive_pickup cfg r load e1 Hs1 Hne Hfit) as Hs2.
  pose proof Hs2 as (_ & Hf2 & Hd2 & Hst2 & _).
  rewrite (update_direction_keeps _ (destination_floor r));
    [exact Hs2|by rewrite Hd2|rewrite Hd2, Hst2; set_solver|].
  rewrite Hd2, Hf2. unfold direction, beyond.
  case_bool_decide; lia.
Qed.

(** The move to the destination floor. *)
Lemma move_and_arrive_dropoff cfg r load f e :
  serving cfg r {[destination_floor r]} load f e ->
  toward (direction r) f = destination_floor r ->
  cfg.1.1.2 <= destination_floor r <= cfg.1.2 ->
  pickup_floor r <> destination_floor r ->
  let e' := move_and_arrive set_iter e in
  at_rest e' /\ config e' = cfg
  /\ _current_floor e' = destination_floor r
  /\ _current_load e' = Z.max 0 (load - passengers r)
  /\ _door_state e' = CLOSED
  /\ exists s, on_request_completed s r ∈ notified e'.
Proof.
  intros Hs Ht Hb Hne.
  pose proof Hs as (Hc & Hf & Hd & Hst & _).
  pose proof (direction_not_idle r) as Hni.
  unfold move_and_arrive. rewrite move_toward;
    [|by rewrite Hd|rewrite Hd, Hf, Ht; subst cfg; exact Hb].
  cbv zeta. simpl (_current_floor (set_current_floor _ _)).
  rewrite Hd, Hf, Ht.
  set (e1 := notify _ (set_current_floor e (destination_floor r))).
  assert (Hs1 : serving cfg r {[destination_floor r]} load
                  (destination_floor r) e1)
    by (by apply (serving_moved cfg r _ load f)).
  destruct Hs1 as (Hc1 & Hf1 & Hd1 & Hst1 & Hop1 & Hl1 & Hap1 & Had1 & Hoth1).
  rewrite arrive_stop; [|by rewrite Hd1|rewrite Hd1, Hst1, Hf1; set_solver].
  destruct (process_current_floor_dropoff e1 r)
    as (Hc2 & Hf2 & Hd2 & Hdoor2 & Hst2 & Hop2 & Hl2 & Had2 & Hap2 & Hoth2
        & Hev);
    [by rewrite Hd1 | rewrite Hd1, Hst1, Hf1; set_solver | by rewrite Hf1
    | by rewrite Hf1 | by rewrite Hf1 | exact Hap1 |].
  set (e2 := _process_current_floor set_iter e1) in *. clearbody e2.
  rewrite Hd1 in Hst2, Hop2. rewrite Hst1, Hf1 in Hst2. rewrite Hop1 in Hop2.
  assert (Hempty : _up_stops e2 = ∅ /\ _down_stops e2 = ∅).
  { revert Hst2 Hop2. unfold direction, stops_for.
    case_bool_decide; simpl; intros H1 H2; rewrite H1, H2; set_solver. }
  destruct Hempty as (Hu & Hdn).
  rewrite update_direction_rests; [|by rewrite Hd2, Hd1|exact Hu|exact Hdn].
  destruct (set_direction_fields e2 IDLE)
    as (Gc & Gf & Gd & Gdoor & Gl & Gu & Gdn & Ga & Gn).
  cbv zeta. unfold at_rest. rewrite Gc, Gf, Gd, Gdoor, Gl, Gu, Gdn, Ga, Gn.
  split; [|rewrite Hc2, Hf2, Hl2, Hl1, Hf1; done].
  split; [reflexivity|]. split; [exact Hu|]. split; [exact Hdn|].
  intros f' l Hl'.
  destruct (decide (f' = destination_floor r)) as [-> | Hn1];
    [rewrite <- Hf1 in Hl'; congruence|].
  destruct (decide (f' = pickup_floor r)) as [-> | Hn2]; [congruence|].
  rewrite Hoth2 in Hl' by (rewrite ?Hf1; done). by eapply Hoth1.
Qed.

Lemma steps_S n e :
  steps set_iter (S n) e = steps set_iter n (step set_iter e).
Proof. reflexivity. Qed.

Lemma steps_add a b e :
  steps set_iter (a + b) e = steps set_iter b (steps set_iter a e).
Proof. unfold steps, run. by rewrite replicate_add, fold_left_app. Qed.

Lemma step_cruising cfg r stops load f e g :
  serving cfg r stops load f e -> f ∉ stops -> g ∈ stops ->
  step set_iter e = move_and_arrive set_iter e.
Proof.
  intros (_ & Hf & Hd & Hst & _) Hn Hg.
  pose proof (direction_not_idle r) as Hni.
  assert (Hpass : arrive set_iter e = e)
    by (apply arrive_pass; [by rewrite Hd | by rewrite Hd, Hst, Hf]).
  rewrite step_halves, Hpass; [reflexivity | by rewrite Hd |].
  rewrite Hpass. revert Hst. unfold direction, stops_for.
  case_bool_decide; intros <-; set_solver.
Qed.

Lemma beyond_destination r :
  pickup_floor r <> destination_floor r ->
  beyond (direction r) (pickup_floor r) (destination_floor r).
Proof. unfold direction, beyond. case_bool_decide; lia. Qed.

Lemma serve_after_pickup cfg r load : forall (n : nat) f e,
  serving cfg r {[destination_floor r]} load f e ->
  pickup_floor r <> destination_floor r ->
  cfg.1.1.2 <= f <= cfg.1.2 ->
  cfg.1.1.2 <= destination_floor r <= cfg.1.2 ->
  beyond (direction r) f (destination_floor r) ->
  Z.abs (destination_floor r - f) = Z.of_nat n + 1 ->
  let e' := steps set_iter n (move_and_arrive set_iter e) in
  at_rest e' /\ config e' = cfg
  /\ _current_floor e' = destination_floor r
  /\ _current_load e' = Z.max 0 (load - passengers r)
  /\ _door_state e' = CLOSED
  /\ exists s, on_request_completed s r ∈ notified e'.
Proof.
  induction n as [|n IH]; intros f e Hs Hne Hbf Hbd Hbey Hdist.
  - apply (move_and_arrive_dropoff cfg r load f); try done.
    revert Hbey Hdist. unfold direction, beyond, toward.
    case_bool_decide; lia.
  - assert (Hdir : (direction r = UP /\ f + 1 < destination_floor r)
                   \/ (direction r = DOWN /\ destination_floor r < f - 1)).
    { revert Hbey Hdist. unfold direction, beyond.
      case_bool_decide; intros; [left | right]; split; try done; lia. }
    assert (Hs1 : serving cfg r {[destination_floor r]} load
                    (toward (direction r) f) (move_and_arrive set_iter e)).
    { apply (move_and_arrive_cruise cfg r _ load f e (destination_floor r));
        [exact Hs | | | set_solver |];
        destruct Hdir as [(-> & ?) | (-> & ?)]; simpl; try lia;
        rewrite elem_of_singleton; lia. }
    cbv zeta. rewrite steps_S.
    rewrite (step_cruising cfg r _ load _ _ (destination_floor r) Hs1);
      [|rewrite elem_of_singleton;
        destruct Hdir as [(-> & ?) | (-> & ?)]; simpl; lia
       |set_solver].
    apply (IH (toward (direction r) f)); try done;
      destruct Hdir as [(-> & ?) | (-> & ?)]; simpl; lia.
Qed.

Lemma serve_until_pickup cfg r load : forall (n : nat) f e,
  serving cfg r {[pickup_floor r; destination_floor r]} load f e ->
  pickup_floor r <> destination_floor r ->
  cfg.1.1.2 <= f <= cfg.1.2 ->
  cfg.1.1.2 <= pickup_floor r <= cfg.1.2 ->
  load + passengers r <= cfg.2 ->
  beyond (direction r) f (pickup_floor r) ->
  Z.abs (pickup_floor r - f) = Z.of_nat n + 1 ->
  serving cfg r {[destination_floor r]} (load + passengers r)
    (pickup_floor r) (steps set_iter n (move_and_arrive set_iter e)).
Proof.
  induction n as [|n IH]; intros f e Hs Hne Hbf Hbp Hfit Hbey Hdist.
  - apply (move_and_arrive_pickup cfg r load f); try done.
    revert Hbey Hdist. unfold direction, beyond, toward.
    case_bool_decide; lia.
  - pose proof (beyond_destination r Hne) as Hpd.
    assert (Hdir : (direction r = UP /\ f + 1 < pickup_floor r
                    /\ pickup_floor r < destination_floor r)
                   \/ (direction r = DOWN /\ pickup_floor r < f - 1
                       /\ destination_floor r < pickup_floor r)).
    { revert Hbey Hdist Hpd. unfold direction, beyond.
      case_bool_decide; intros; [left | right]; split; try done; lia. }
    assert (Hs1 : serving cfg r {[pickup_floor r; destination_floor r]} load
                    (toward (direction r) f) (move_and_arrive set_iter e)).
    { apply (move_and_arrive_cruise cfg r _ load f e (pickup_floor r));
        [exact Hs | | | set_solver |];
        destruct Hdir as [(-> & ? & ?) | (-> & ? & ?)]; simpl; try lia;
        rewrite elem_of_union, !elem_of_singleton; lia. }
    rewrite steps_S.
    rewrite (step_cruising cfg r _ load _ _ (pickup_floor r) Hs1);
      [|rewrite elem_of_union, !elem_of_singleton;
        destruct Hdir as [(-> & ? & ?) | (-> & ? & ?)]; simpl; lia
       |set_solver].
    apply (IH (toward (direction r) f)); try done;
      destruct Hdir as [(-> & ? & ?) | (-> & ? & ?)]; simpl; lia.
Qed.

Lemma add_request_serving e r :
  at_rest e -> can_accept_request e r = true ->
  pickup_floor r <> destination_floor r ->
  (pickup_floor r = _current_floor e
   \/ beyond (direction r) (_current_floor e) (pickup_floor r)) ->
  serving (config e) r {[pickup_floor r; destination_floor r]}
    (_current_load e) (_current_floor e) (add_request e r).2.
Proof.
  intros (Hd & Hu & Hdn & Hempty) Hacc Hne Hahead.
  destruct (add_request_accepted e r Hacc) as (Ha & Hst & Hop & _).
  destruct (add_request_fields e r) as (Hc & Hf & _ & Hl).
  cbv zeta in *.
  assert (Hnil : forall f, default [] (_active_requests e !! f) = []).
  { intros f. destruct (_active_requests e !! f) as [l|] eqn:E;
      [by apply Hempty in E | reflexivity]. }
  unfold serving. rewrite Hc, Hf, Hl, Hst, Hop, Ha.
  split; [reflexivity|]. split; [reflexivity|]. split.
  { clear Ha Hst Hop Hc Hf Hl Hnil Hempty.
    unfold add_request. rewrite Hacc. clear Hacc.
    destruct e; simpl in *. subst. revert Hahead.
    unfold direction, beyond.
    repeat case_bool_decide; simpl in *; try done; lia. }
  split.
  { unfold direction, stops_for.
    case_bool_decide; simpl; rewrite ?Hu, ?Hdn; set_solver. }
  split.
  { unfold direction, opposite, stops_for.
    case_bool_decide; simpl; rewrite ?Hu, ?Hdn; set_solver. }
  split; [reflexivity|].
  split; [|split].
  - rewrite !track_lookup. rewrite decide_False by done.
    rewrite decide_True by done. by rewrite Hnil.
  - rewrite !track_lookup. rewrite decide_True by done.
    rewrite decide_False by done. by rewrite Hnil.
  - intros f' l Hf1 Hf2. rewrite !track_lookup.
    rewrite !decide_False by done. apply Hempty.
Qed.

Lemma stops_not_empty cfg r stops load f e g :
  serving cfg r stops load f e -> g ∈ stops ->
  _up_stops e ≠ ∅ \/ _down_stops e ≠ ∅.
Proof.
  intros (_ & _ & _ & Hst & _) Hg. revert Hst. unfold direction, stops_for.
  case_bool_decide; intros <-; set_solver.
Qed.

(** X17: a car at rest serves a request that does not lie behind it.  The
    car stands idle with no stop, the request fits into it, and its
    pickup floor is the floor of the car or lies in the direction of the
    request from it.  Then, as many steps after [add_request] as floors
    separate the car from the destination, the car stands at the
    destination, at rest again, with closed doors and the load it had,
    and the observers have been told that the request is completed. *)
Theorem request_ahead_is_served (e : Elevator) (r : Request) :
  at_rest e -> floor_in_range e -> 0 <= _current_load e ->
  constructed r -> can_accept_request e r = true ->
  _current_load e + passengers r <= _capacity e ->
  (pickup_floor r = _current_floor e
   \/ beyond (direction r) (_current_floor e) (pickup_floor r)) ->
  let n := Z.abs_nat (destination_floor r - _current_floor e) in
  let e' := steps set_iter n (add_request e r).2 in
  at_rest e' /\ config e' = config e
  /\ _current_floor e' = destination_floor r
  /\ _current_load e' = _current_load e
  /\ _door_state e' = CLOSED
  /\ exists s, on_request_completed s r ∈ notified e'.
Proof.
  intros Hrest Hfloor Hload Hr Hacc Hfit Hahead n e'.
  assert (Hne : pickup_floor r <> destination_floor r).
  { unfold constructed, Request_post_init in Hr.
    by case_bool_decide. }
  destruct (can_accept_bounds e r Hacc) as (Hbp & Hbd & _).
  pose proof (add_request_serving e r Hrest Hacc Hne Hahead) as Hs.
  pose proof (beyond_destination r Hne) as Hpd.
  pose proof (direction_not_idle r) as Hni.
  set (e1 := (add_request e r).2) in *.
  assert (Hfinal : forall e2,
    serving (config e) r {[destination_floor r]}
      (_current_load e + passengers r) (pickup_floor r) e2 ->
    let e3 := steps set_iter
                (S (Z.to_nat (Z.abs (destination_floor r - pickup_floor r)
                              - 1)))
                e2 in
    at_rest e3 /\ config e3 = config e
    /\ _current_floor e3 = destination_floor r
    /\ _current_load e3 = _current_load e
    /\ _door_state e3 = CLOSED
    /\ exists s, on_request_completed s r ∈ notified e3).
  { intros e2 Hs2. cbv zeta. rewrite steps_S.
    rewrite (step_cruising _ r _ _ _ _ (destination_floor r) Hs2);
      [|rewrite elem_of_singleton; done|set_solver].
    destruct (serve_after_pickup (config e) r
                (_current_load e + passengers r)
                (Z.to_nat (Z.abs (destination_floor r - pickup_floor r) - 1))
                (pickup_floor r) e2 Hs2 Hne)
      as (H1 & H2 & H3 & H4 & H5 & H6); try done; [lia|].
    split; [exact H1|]. split; [exact H2|]. split; [exact H3|].
    split; [rewrite H4; lia|]. split; [exact H5 | exact H6]. }
  destruct Hahead as [Hat | Hbey].
  - assert (Hs2 : serving (config e) r {[destination_floor r]}
                    (_current_load e + passengers r) (pickup_floor r)
                    (arrive set_iter e1)).
    { apply arrive_pickup; [by rewrite <- Hat in Hs | exact Hne | exact Hfit]. }
    assert (Hn : n = S (Z.to_nat (Z.abs (destination_floor r - pickup_floor r)
                                  - 1))) by (subst n; lia).
    subst e'. rewrite Hn.
    pose proof Hs as (_ & _ & Hd1 & _).
    specialize (Hfinal _ Hs2). cbv zeta in Hfinal.
    rewrite steps_S in *.
    rewrite (step_cruising _ r _ _ _ _ (destination_floor r) Hs2) in Hfinal;
      [|rewrite elem_of_singleton; done|set_solver].
    rewrite step_halves;
      [exact Hfinal | by rewrite Hd1
      | by apply (stops_not_empty _ _ _ _ _ _ (destination_floor r) Hs2);
        set_solver].
  - assert (Hdir : (direction r = UP /\ _current_floor e < pickup_floor r
                    /\ pickup_floor r < destination_floor r)
                   \/ (direction r = DOWN /\ pickup_floor r < _current_floor e
                       /\ destination_floor r < pickup_floor r)).
    { revert Hbey Hpd. unfold direction, beyond.
      case_bool_decide; intros; [left | right]; split; try done; lia. }
    set (m1 := Z.to_nat (Z.abs (pickup_floor r - _current_floor e) - 1)).
    set (m2 := Z.to_nat (Z.abs (destination_floor r - pickup_floor r) - 1)).
    assert (Hn : n = (S m1 + S m2)%nat)
      by (subst n m1 m2; destruct Hdir as [(_ & ? & ?) | (_ & ? & ?)]; lia).
    subst e'. rewrite Hn, steps_add. apply Hfinal.
    rewrite steps_S.
    rewrite (step_cruising _ r _ _ _ _ (pickup_floor r) Hs);
      [|rewrite elem_of_union, !elem_of_singleton;
        destruct Hdir as [(_ & ? & ?) | (_ & ? & ?)]; lia
       |set_solver].
    apply (serve_until_pickup (config e) r (_current_load e) m1
             (_current_floor e)); try done.
    subst m1. destruct Hdir as [(_ & ? & ?) | (_ & ? & ?)]; lia.
Qed.

End Service.

Lemma request_ahead_is_served_witness :
  let e := mkElevator 0 0 10 8 2 IDLE CLOSED 0 ∅ ∅ ∅ [] in
  let r := mkRequest 4 7 1 0 3 in
  let e' := steps (fun l => l)
              (Z.abs_nat (destination_floor r - _current_floor e))
              (add_request e r).2 in
  (forall l : list Request, (fun l => l) l ≡ₚ l)
  /\ at_rest e /\ floor_in_range e /\ 0 <= _current_load e
  /\ constructed r /\ can_accept_request e r = true
  /\ _current_load e + passengers r <= _capacity e
  /\ beyond (direction r) (_current_floor e) (pickup_floor r)
  /\ at_rest e' /\ _current_floor e' = destination_floor r
  /\ _current_load e' = _current_load e.
Proof.
  intros e r e'.
  assert (Hp : forall l : list Request, (fun l => l) l ≡ₚ l)
    by (intros l; reflexivity).
  assert (Hrest : at_rest e).
  { unfold at_rest, e. simpl.
    split; [reflexivity|]. split; [reflexivity|]. split; [reflexivity|].
    intros f l H. by rewrite lookup_empty in H. }
  assert (Hfl : floor_in_range e) by (unfold floor_in_range, e; simpl; lia).
  assert (Hl : 0 <= _current_load e) by (unfold e; simpl; lia).
  assert (Hr : constructed r) by reflexivity.
  assert (Hacc : can_accept_request e r = true) by reflexivity.
  assert (Hfit : _current_load e + passengers r <= _capacity e)
    by (unfold e, r; simpl; lia).
  assert (Hbey : beyond (direction r) (_current_floor e) (pickup_floor r))
    by (unfold beyond, direction, e, r; simpl; lia).
  pose proof (request_ahead_is_served (fun l => l) Hp e r Hrest Hfl Hl Hr
                Hacc Hfit (or_intror Hbey)) as H.
  cbv zeta in H. destruct H as (H1 & _ & H3 & H4 & _).
  split; [exact Hp|]. split; [exact Hrest|]. split; [exact Hfl|].
  split; [exact Hl|]. split; [exact Hr|]. split; [exact Hacc|].
  split; [exact Hfit|]. split; [exact Hbey|].
  split; [exact H1|]. split; [exact H3 | exact H4].
Defined.

(** *** A request behind the car *)

Section Behind.

Variable set_iter : list Request -> list Request.

Lemma process_current_floor_stops e :
  let e' := _process_current_floor set_iter e in
  _up_stops e' = _up_stops (remove_stop (_current_floor e) e)
  /\ _down_stops e' = _down_stops (remove_stop (_current_floor e) e).
Proof.
  unfold _process_current_floor. cbv zeta.
  set (e1 := notify on_door_opened (set_door_state e OPEN)).
  destruct (process_active_fields set_iter (_current_floor e)
              (remove_stop (_current_floor e) e1))
    as (_ & _ & _ & _ & Hu & Hd).
  simpl. rewrite Hu, Hd. subst e1. unfold remove_stop.
  destruct e as [i mn mx cap f d door load ups downs act log]. simpl.
  destruct (_ && _); simpl; [done|]. by destruct (_ && _).
Qed.

Lemma arrive_stops e :
  _direction e <> IDLE ->
  stops_for (opposite (_direction e)) (arrive set_iter e)
  = stops_for (opposite (_direction e)) e
  /\ (forall x, x ∈ stops_for (_direction e) e -> x <> _current_floor e ->
        x ∈ stops_for (_direction e) (arrive set_iter e))
  /\ (forall x, x ∈ stops_for (_direction e) (arrive set_iter e) ->
        x ∈ stops_for (_direction e) e).
Proof.
  intros Hd. unfold arrive.
  destruct (_is_current_floor_a_stop e); [|done].
  destruct (process_current_floor_stops e) as (Hu & Hdn). cbv zeta in *.
  unfold stops_for, opposite, remove_stop in *.
  destruct e as [i mn mx cap f d door load ups downs act log].
  simpl in *. destruct d; [| |done]; simpl in *.
  - rewrite Hu, Hdn. case_bool_decide; simpl; set_solver.
  - rewrite Hu, Hdn. case_bool_decide; simpl; set_solver.
Qed.

Lemma move_floor_cases e :
  _direction e <> IDLE -> floor_in_range e ->
  (_current_floor (_move e) = toward (_direction e) (_current_floor e)
   /\ _min_floor e <= toward (_direction e) (_current_floor e)
      <= _max_floor e)
  \/ (_current_floor (_move e) = _current_floor e
      /\ match _direction e with
         | UP => _max_floor e <= _current_floor e
         | DOWN => _current_floor e <= _min_floor e
         | IDLE => False
         end).
Proof.
  intros Hd Hf. unfold _move, floor_in_range in *.
  destruct e as [i mn mx cap f d door load ups downs act log]. simpl in *.
  destruct d; [| |done]; case_bool_decide; simpl; lia.
Qed.

Lemma elements_nil (s : gset Z) : s = ∅ -> elements s = [].
Proof. intros ->. apply elements_empty. Qed.

Lemma update_direction_dir e :
  _direction e <> IDLE ->
  (stops_for (_direction e) e = ∅ ->
   stops_for (opposite (_direction e)) e ≠ ∅ ->
   _direction (_update_direction e) = opposite (_direction e))
  /\ (stops_for (_direction e) e ≠ ∅ ->
      _direction (_update_direction e) = _direction e
      \/ _direction (_update_direction e) = opposite (_direction e)).
Proof.
  intros Hd. unfold _update_direction, truthy, stops_for, opposite.
  destruct e as [i mn mx cap f d door load ups downs act log]. simpl in *.
  destruct d; [| |done]; simpl; split.
  - intros -> Hne. rewrite elements_empty. simpl.
    by rewrite bool_decide_eq_true_2.
  - intros Hne. destruct (filter _ _); simpl; [|by left].
    destruct (bool_decide (downs ≠ ∅)); simpl; [by right|].
    rewrite bool_decide_eq_true_2 by done. by right.
  - intros -> Hne. rewrite elements_empty. simpl.
    by rewrite bool_decide_eq_true_2.
  - intros Hne. destruct (filter _ _); simpl; [|by left].
    destruct (bool_decide (ups ≠ ∅)); simpl; [by right|].
    rewrite bool_decide_eq_true_2 by done. by right.
Qed.

Lemma opposite_involutive d : opposite (opposite d) = d.
Proof. by destruct d. Qed.

Lemma circling_arrive cfg r e :
  config e = cfg ->
  stops_for (opposite (direction r)) e = ∅ ->
  pickup_floor r ∈ stops_for (direction r) e ->
  (_direction e = direction r /\ _current_floor e <> pickup_floor r)
  \/ _direction e = opposite (direction r) ->
  let e1 := arrive set_iter e in
  config e1 = cfg /\ _current_floor e1 = _current_floor e
  /\ _direction e1 = _direction e
  /\ stops_for (opposite (direction r)) e1 = ∅
  /\ pickup_floor r ∈ stops_for (direction r) e1.
Proof.
  intros Hc Hopp Hp Hcase e1. pose proof (direction_not_idle r) as Hni.
  assert (Hd : _direction e <> IDLE).
  { destruct Hcase as [(-> & _) | ->]; [done|]. by destruct (direction r). }
  destruct (arrive_fields set_iter e) as (Hc1 & Hf1 & Hd1 & _).
  destruct (arrive_stops e Hd) as (S1 & S2 & S3). fold e1 in Hc1, Hf1, Hd1, S1, S2, S3.
  split; [congruence|]. split; [exact Hf1|]. split; [exact Hd1|].
  destruct Hcase as [(Hdir & Hne) | Hdir]; rewrite Hdir in S1, S2, S3.
  - split; [by rewrite S1|]. apply S2; [exact Hp | done].
  - rewrite opposite_involutive in S1. split; [|by rewrite S1].
    apply set_eq. intros x. split; [|set_solver].
    intros Hx. apply S3 in Hx. by rewrite Hopp in Hx.
Qed.

Lemma circling_step cfg r c e :
  circling cfg r c e ->
  cfg.1.1.2 <= c <= cfg.1.2 ->
  beyond (direction r) (pickup_floor r) (toward (opposite (direction r)) c) ->
  circling cfg r c (step set_iter e).
Proof.
  intros (Hc & Hfl & Hopp & Hp & Hcase) Hcr Hbeh.
  pose proof (direction_not_idle r) as Hni.
  assert (Hd : _direction e <> IDLE).
  { destruct Hcase as [(-> & _) | (-> & _)]; [done|].
    by destruct (direction r). }
  assert (Hk : (_direction e = direction r
                /\ _current_floor e <> pickup_floor r)
               \/ _direction e = opposite (direction r)).
  { destruct Hcase as [(Hdir & Hb) | (Hdir & Hb)]; [left | by right].
    split; [exact Hdir|]. revert Hb Hbeh.
    destruct (direction r); simpl; lia. }
  destruct (circling_arrive cfg r e Hc Hopp Hp Hk)
    as (Hc1 & Hf1 & Hd1 & Hopp1 & Hp1).
  set (e1 := arrive set_iter e) in *.
  assert (Hpend : _up_stops e1 ≠ ∅ \/ _down_stops e1 ≠ ∅).
  { revert Hp1. unfold stops_for. destruct (direction r); set_solver. }
  rewrite step_halves by done. fold e1. unfold move_and_arrive. cbv zeta.
  set (e2 := notify _ (_move e1)).
  destruct (move_fields e1) as (M1 & M2 & _ & _ & M5 & M6 & _).
  destruct (notify_fields
              (fun s => on_floor_reached s (_current_floor (_move e1)))
              (_move e1)) as (N1 & N2 & N3 & _ & _ & N6 & N7 & _).
  fold e2 in N1, N2, N3, N6, N7.
  assert (Hc2 : config e2 = cfg) by congruence.
  assert (Hd2 : _direction e2 = _direction e) by congruence.
  assert (Hu2 : _up_stops e2 = _up_stops e1) by congruence.
  assert (Hdn2 : _down_stops e2 = _down_stops e1) by congruence.
  assert (Hf2 : _current_floor e2 = _current_floor (_move e1))
    by exact N2.
  assert (Hmn1 : _min_floor e1 = cfg.1.1.2 /\ _max_floor e1 = cfg.1.2)
    by (rewrite <- Hc1; done).
  destruct Hmn1 as (Hmn1 & Hmx1).
  assert (Hrange1 : floor_in_range e1)
    by (unfold floor_in_range; rewrite Hf1, Hmn1, Hmx1; exact Hfl).
  pose proof (move_floor_cases e1 ltac:(congruence) Hrange1) as Hmove.
  rewrite Hd1, Hf1, Hmn1, Hmx1, <- Hf2 in Hmove.
  assert (Hfl2 : cfg.1.1.2 <= _current_floor e2 <= cfg.1.2).
  { destruct Hmove as [(-> & ?) | (-> & _)]; done. }
  assert (Hk2 : (_direction e2 = direction r
                 /\ _current_floor e2 <> pickup_floor r)
                \/ _direction e2 = opposite (direction r)).
  { rewrite Hd2. destruct Hcase as [(Hdir & Hb) | (Hdir & Hb)];
      [left | by right].
    split; [exact Hdir|]. rewrite Hdir in Hmove. revert Hb Hbeh Hmove.
    destruct (direction r); simpl; lia. }
  destruct (circling_arrive cfg r e2 Hc2) as (Hc3 & Hf3 & Hd3 & Hopp3 & Hp3);
    [by rewrite (stops_for_eq _ e1 e2 Hu2 Hdn2)
    |by rewrite (stops_for_eq _ e1 e2 Hu2 Hdn2)|exact Hk2|].
  set (e3 := arrive set_iter e2) in *.
  destruct (update_direction_fields e3) as (U1 & U2 & _ & _ & U5 & U6 & _).
  destruct (update_direction_dir e3 ltac:(congruence)) as (D1 & D2).
  unfold circling.
  rewrite U1, U2, !(stops_for_eq _ _ _ U5 U6), Hf3.
  split; [exact Hc3|]. split; [exact Hfl2|]. split; [exact Hopp3|].
  split; [exact Hp3|].
  rewrite Hd3, Hd2 in D1, D2.
  destruct Hcase as [(Hdir & Hb) | (Hdir & Hb)]; rewrite Hdir in D1, D2, Hmove.
  - destruct D2 as [D2 | D2]; [set_solver| |].
    + left. split; [exact D2|]. revert Hb Hmove.
      destruct (direction r); simpl; lia.
    + right. split; [exact D2|]. revert Hb Hmove Hcr.
      destruct (direction r); simpl; lia.
  - left. rewrite opposite_involutive in D1.
    split; [apply D1; [exact Hopp3 | set_solver]|].
    revert Hb Hmove. destruct (direction r); simpl; lia.
Qed.

Lemma circling_steps cfg r c : forall (n : nat) e,
  circling cfg r c e ->
  cfg.1.1.2 <= c <= cfg.1.2 ->
  beyond (direction r) (pickup_floor r) (toward (opposite (direction r)) c) ->
  circling cfg r c (steps set_iter n e).
Proof.
  induction n as [|n IH]; intros e He Hc Hb; [exact He|].
  rewrite steps_S. apply IH; [|exact Hc|exact Hb]. by apply circling_step.
Qed.

Lemma add_request_circling e r :
  at_rest e -> floor_in_range e -> can_accept_request e r = true ->
  beyond (direction r) (pickup_floor r) (_current_floor e) ->
  circling (config e) r (_current_floor e) (add_request e r).2.
Proof.
  intros (Hd & Hu & Hdn & _) Hfl Hacc Hbeh.
  destruct (add_request_accepted e r Hacc) as (_ & Hst & Hop & _).
  destruct (add_request_fields e r) as (Hc & Hf & _).
  cbv zeta in *. unfold circling. rewrite Hc, Hf, Hst, Hop.
  split; [reflexivity|]. split; [exact Hfl|]. split.
  { unfold direction, opposite, stops_for.
    case_bool_decide; simpl; rewrite ?Hu, ?Hdn; set_solver. }
  split; [set_solver|]. right. split.
  - clear Hst Hop Hc Hf Hfl. unfold add_request. rewrite Hacc. clear Hacc.
    destruct e; simpl in *. subst. revert Hbeh. unfold direction, beyond.
    repeat case_bool_decide; simpl in *; try done; lia.
  - destruct (direction r); simpl; lia.
Qed.

(** X18: a request whose pickup floor lies two floors or more behind a
    car at rest, against the direction of the request, is never picked
    up.  After [add_request] the car turns round one floor from where it
    stood and, whatever the number of steps, it is never idle, the pickup
    floor is still a stop of the direction of the request, and the car
    stands strictly beyond the pickup floor. *)
Theorem request_behind_is_never_picked_up (e : Elevator) (r : Request)
    (n : nat) :
  at_rest e -> floor_in_range e -> can_accept_request e r = true ->
  beyond (direction r) (pickup_floor r) (_current_floor e) ->
  2 <= Z.abs (_current_floor e - pickup_floor r) ->
  let e' := steps set_iter n (add_request e r).2 in
  _direction e' <> IDLE
  /\ pickup_floor r ∈ stops_for (direction r) e'
  /\ beyond (direction r) (pickup_floor r) (_current_floor e').
Proof.
  intros Hrest Hfl Hacc Hbeh Htwo e'.
  pose proof (direction_not_idle r) as Hni.
  assert (Hb : beyond (direction r) (pickup_floor r)
                 (toward (opposite (direction r)) (_current_floor e))).
  { revert Hbeh Htwo. destruct (direction r); simpl; lia. }
  pose proof (circling_steps (config e) r (_current_floor e) n _
                (add_request_circling e r Hrest Hfl Hacc Hbeh) Hfl Hb)
    as (_ & _ & _ & Hp & Hcase).
  fold e' in Hp, Hcase. split; [|split; [exact Hp|]].
  - destruct Hcase as [(-> & _) | (-> & _)]; [done|].
    by destruct (direction r).
  - revert Hb Hcase. destruct (direction r); simpl; lia.
Qed.

End Behind.

Lemma request_behind_is_never_picked_up_witness :
  let e := mkElevator 0 0 10 8 5 IDLE CLOSED 0 ∅ ∅ ∅ [] in
  let r := mkRequest 2 7 1 0 3 in
  let e' := steps (fun l => l) 40 (add_request e r).2 in
  at_rest e /\ floor_in_range e /\ can_accept_request e r = true
  /\ beyond (direction r) (pickup_floor r) (_current_floor e)
  /\ 2 <= Z.abs (_current_floor e - pickup_floor r)
  /\ _direction e' <> IDLE
  /\ pickup_floor r ∈ stops_for (direction r) e'
  /\ beyond (direction r) (pickup_floor r) (_current_floor e').
Proof.
  intros e r e'.
  assert (Hrest : at_rest e).
  { unfold at_rest, e. simpl.
    split; [reflexivity|]. split; [reflexivity|]. split; [reflexivity|].
    intros f l H. by rewrite lookup_empty in H. }
  assert (Hfl : floor_in_range e) by (unfold floor_in_range, e; simpl; lia).
  assert (Hacc : can_accept_request e r = true) by reflexivity.
  assert (Hbeh : beyond (direction r) (pickup_floor r) (_current_floor e))
    by (unfold beyond, direction, e, r; simpl; lia).
  assert (Htwo : 2 <= Z.abs (_current_floor e - pickup_floor r))
    by (unfold e, r; simpl; lia).
  pose proof (request_behind_is_never_picked_up (fun l => l) e r 40
                Hrest Hfl Hacc Hbeh Htwo) as H.
  cbv zeta in H. destruct H as (H1 & H2 & H3).
  split; [exact Hrest|]. split; [exact Hfl|]. split; [exact Hacc|].
  split; [exact Hbeh|]. split; [exact Htwo|].
  split; [exact H1|]. split; [exact H2 | exact H3].
Defined.

(** *** The metrics observer *)

Lemma observe_spec events : forall m,
  let m' := MetricsObserver.observe m events in
  MetricsObserver.floor_visits m'
  = MetricsObserver.floor_visits m ++ omap reported_floor events
  /\ MetricsObserver.load_samples m'
     = MetricsObserver.load_samples m ++ omap reported_load events
  /\ MetricsObserver.total_requests_completed m'
     = MetricsObserver.total_requests_completed m
       + Z.of_nat (length (omap reported_completion events)).
Proof.
  unfold MetricsObserver.observe.
  induction events as [|ev events IH]; intros m; simpl.
  - rewrite !app_nil_r. split; [done|]. split; [done | lia].
  - destruct (IH (MetricsObserver.handle m ev)) as (H1 & H2 & H3).
    cbv zeta in *. rewrite H1, H2, H3.
    destruct ev; simpl; rewrite <- ?app_assoc; simpl;
      (split; [done|]; split; [done | unfold omap; lia]).
Qed.

Section Metrics.

Variable set_iter : list Request -> list Request.
Hypothesis set_iter_perm : forall l, set_iter l ≡ₚ l.

Lemma arrive_log e :
  exists mid, notified (arrive set_iter e) = notified e ++ mid
              /\ Forall quiet_event mid.
Proof.
  unfold arrive. destruct (_is_current_floor_a_stop e).
  - destruct (process_current_floor_notified set_iter e)
      as (s1 & mid & s2 & -> & _ & _ & Hmid).
    eexists. split; [reflexivity|]. constructor; [done|].
    apply Forall_app. split; [|by repeat constructor].
    eapply Forall_impl; [exact Hmid|]. by intros ev (s & r & -> & _).
  - exists []. by rewrite app_nil_r.
Qed.

Lemma update_direction_notified e :
  notified (_update_direction e) = notified e.
Proof.
  unfold _update_direction. destruct e as [? ? ? ? ? d ? ? ? ? ? ?].
  simpl. destruct d; simpl; try done;
    destruct (filter _ _); simpl; try done; repeat case_match; done.
Qed.

Lemma move_notified e : notified (_move e) = notified e.
Proof.
  unfold _move. destruct e as [? ? ? ? ? d ? ? ? ? ? ?]. simpl.
  destruct d; simpl; try done; case_bool_decide; done.
Qed.

Lemma step_log e :
  exists mid,
    notified (step set_iter e) = notified e ++ mid
    /\ Forall (fun ev =>
         quiet_event ev
         \/ ev = on_floor_reached (get_state (_move (arrive set_iter e)))
                   (_current_floor (_move (arrive set_iter e)))) mid.
Proof.
  unfold step. case_bool_decide; [exists []; by rewrite app_nil_r|].
  cbv zeta. rewrite update_direction_notified.
  destruct (arrive_log e) as (mid1 & H1 & Q1).
  set (e1 := arrive set_iter e) in *.
  assert (Hq : forall l, Forall quiet_event l ->
             Forall (fun ev =>
               quiet_event ev
               \/ ev = on_floor_reached (get_state (_move e1))
                         (_current_floor (_move e1))) l).
  { intros l Hl. eapply Forall_impl; [exact Hl|]. by left. }
  destruct (_has_pending_stops e1).
  - set (e2 := notify _ (_move e1)).
    destruct (arrive_log e2) as (mid2 & H2 & Q2). rewrite H2.
    subst e2. simpl. rewrite move_notified, H1.
    exists (mid1 ++ on_floor_reached (get_state (_move e1))
                      (_current_floor (_move e1)) :: mid2).
    split; [by rewrite <- !app_assoc|].
    apply Forall_app. split; [by apply Hq|].
    constructor; [by right | by apply Hq].
  - exists mid1. split; [exact H1 | by apply Hq].
Qed.

Lemma add_request_notified e r :
  exists mid, notified (add_request e r).2 = notified e ++ mid
              /\ Forall quiet_event mid.
Proof.
  unfold add_request. destruct (can_accept_request e r); simpl.
  - repeat case_bool_decide; simpl;
      (eexists; split; [reflexivity | by repeat constructor]).
  - exists []. by rewrite app_nil_r.
Qed.

Lemma arrive_safe e :
  floor_in_range e /\ load_in_range e /\ all_constructed e ->
  floor_in_range (arrive set_iter e) /\ load_in_range (arrive set_iter e)
  /\ all_constructed (arrive set_iter e).
Proof.
  apply (arrive_preserves set_iter
           (fun e => floor_in_range e /\ load_in_range e
                     /\ all_constructed e)).
  - intros e0 d H. by destruct e0.
  - intros ev e0 H. by destruct e0.
  - intros f e0 (Hf & Hl & Hc).
    destruct (remove_stop_fields f e0) as (C & F & _ & _ & L & A).
    apply config_eq in C as (Cmn & Cmx & Ccap).
    unfold floor_in_range, load_in_range, all_constructed.
    rewrite Cmn, Cmx, Ccap, F, L, A. done.
  - intros f e0 (Hf & Hl & Hc).
    destruct (process_active_fields set_iter f e0) as (C & F & _).
    apply config_eq in C as (Cmn & Cmx & _).
    split; [unfold floor_in_range; rewrite Cmn, Cmx, F; exact Hf|].
    split; [by apply process_active_load
           |by apply process_active_constructed].
Qed.

Lemma log_sound e :
  reachable set_iter e -> Forall (sound_event (config e)) (notified e).
Proof.
  intros (i & mn & mx & cap & st & e0 & ops & Hnew & Hops & ->).
  apply new_Elevator_Ok in Hnew as ((Hst & Hcap) & ->).
  assert (H : (fun e => (floor_in_range e /\ load_in_range e
                         /\ all_constructed e)
                        /\ Forall (sound_event (config e)) (notified e))
                (run set_iter
                   (mkElevator i mn mx cap st IDLE CLOSED 0 ∅ ∅ ∅ []) ops));
    [|by destruct H].
  apply run_invariant; [| |exact Hops|].
  - intros e r Hr ((Hf & Hl & Hc) & Hlog).
    destruct (add_request_fields e r) as (C & F & _).
    destruct (add_request_load e r Hr (conj Hl Hc)) as (Hl' & Hc').
    destruct (add_request_notified e r) as (mid & -> & Hmid).
    rewrite C. split.
    + split; [|done]. apply config_eq in C as (Cmn & Cmx & _).
      unfold floor_in_range. by rewrite Cmn, Cmx, F.
    + apply Forall_app. split; [exact Hlog|].
      eapply Forall_impl; [exact Hmid|]. by intros [].
  - intros e ((Hf & Hl & Hc) & Hlog).
    destruct (step_fields set_iter e) as (C & _).
    destruct (step_load set_iter set_iter_perm e (conj Hl Hc)) as (Hl' & Hc').
    destruct (step_floor set_iter e Hf) as (Hf' & _).
    split; [done|]. rewrite C.
    destruct (step_log e) as (mid & -> & Hmid).
    apply Forall_app. split; [exact Hlog|].
    eapply Forall_impl; [exact Hmid|]. intros ev [Hq | ->];
      [by destruct ev|].
    destruct (arrive_safe e (conj Hf (conj Hl Hc))) as (Hf1 & Hl1 & _).
    destruct (arrive_fields set_iter e) as (C1 & _).
    destruct (move_fields (arrive set_iter e))
      as (C2 & _ & _ & L2 & _).
    destruct (move_floor (arrive set_iter e) Hf1) as (Hf2 & _).
    assert (C3 : config (_move (arrive set_iter e)) = config e)
      by congruence.
    apply config_eq in C3 as (Cmn & Cmx & Ccap).
    unfold floor_in_range, load_in_range in *. simpl.
    rewrite L2, <- Cmn, <- Cmx, <- Ccap.
    apply config_eq in C2 as (_ & _ & Ccap2). rewrite Ccap2. done.
  - unfold floor_in_range, load_in_range, all_constructed. simpl.
    split; [|constructor]. split; [lia|]. split; [lia|].
    intros f l r Hl. by rewrite lookup_empty in Hl.
Qed.

(** X19: a metrics observer that is attached to a car at some time, the
    car being built by the constructor and driven by [add_request] and
    [step] only, collects sound numbers: as many load samples as floor
    visits, every visited floor a floor of the car, every sampled load
    between zero and the capacity, and a count of completed requests equal
    to the number of completions the car has announced since. *)
Theorem metrics_of_a_car_are_sound (e : Elevator) (events : list Event) :
  reachable set_iter e ->
  events `suffix_of` notified e ->
  let m := MetricsObserver.observe MetricsObserver.init events in
  length (MetricsObserver.floor_visits m)
  = length (MetricsObserver.load_samples m)
  /\ Forall (fun f => _min_floor e <= f <= _max_floor e)
       (MetricsObserver.floor_visits m)
  /\ Forall (fun l => 0 <= l <= _capacity e) (MetricsObserver.load_samples m)
  /\ MetricsObserver.total_requests_completed m
     = Z.of_nat (length (omap reported_completion events)).
Proof.
  intros Hr (before & Hlog) m.
  pose proof (log_sound e Hr) as Hs. rewrite Hlog in Hs.
  apply Forall_app in Hs as (_ & Hs).
  destruct (observe_spec events MetricsObserver.init) as (H1 & H2 & H3).
  fold m in H1, H2, H3. rewrite H1, H2, H3. simpl. clear H1 H2 H3 Hlog m.
  split; [|split; [|split; [|lia]]].
  - induction events as [|ev events IH]; [reflexivity|].
    apply Forall_cons in Hs as (_ & Hs). destruct ev; simpl; auto.
  - induction events as [|ev events IH]; [constructor|].
    apply Forall_cons in Hs as (Hev & Hs). destruct ev; simpl; auto.
    constructor; [|auto]. simpl in Hev. lia.
  - induction events as [|ev events IH]; [constructor|].
    apply Forall_cons in Hs as (Hev & Hs). destruct ev; simpl; auto.
    constructor; [|auto]. simpl in Hev. lia.
Qed.

End Metrics.

Lemma metrics_of_a_car_are_sound_witness :
  let e := run (fun l => l) (mkElevator 0 0 10 8 0 IDLE CLOSED 0 ∅ ∅ ∅ [])
             [op_add_request (mkRequest 1 3 1 0 2); op_step; op_step] in
  let m := MetricsObserver.observe MetricsObserver.init (notified e) in
  (forall l : list Request, (fun l => l) l ≡ₚ l)
  /\ reachable (fun l => l) e
  /\ notified e `suffix_of` notified e
  /\ length (MetricsObserver.floor_visits m)
     = length (MetricsObserver.load_samples m)
  /\ Forall (fun l => 0 <= l <= _capacity e) (MetricsObserver.load_samples m).
Proof.
  intros e m.
  assert (Hp : forall l : list Request, (fun l => l) l ≡ₚ l)
    by (intros l; reflexivity).
  assert (Hr : reachable (fun l => l) e).
  { exists 0, 0, 10, 8, 0, (mkElevator 0 0 10 8 0 IDLE CLOSED 0 ∅ ∅ ∅ []),
      [op_add_request (mkRequest 1 3 1 0 2); op_step; op_step].
    split; [reflexivity|]. split; [|reflexivity].
    repeat constructor. }
  clearbody e.
  assert (Hsuf : notified e `suffix_of` notified e) by reflexivity.
  pose proof (metrics_of_a_car_are_sound (fun l => l) Hp e (notified e)
                Hr Hsuf) as H.
  cbv zeta in H. destruct H as (H1 & _ & H3 & _).
  split; [exact Hp|]. split; [exact Hr|]. split; [exact Hsuf|].
  split; [exact H1 | exact H3].
Defined.
